(** * ml-notebooks: the preprocessing and hyperparameter-search notebooks

    A shallow embedding of the algorithmic content of
    [notebooks/preprocessing.ipynb] (CSV labels, shuffle and 75/25 split,
    min-max scaling, z-score standardization, the model factory and the
    argmax-based accuracy) and of the last code cell of
    [notebooks/hyperparameter_search.ipynb] (the [try]/[except] around
    [pickle.dump]).

    Conventions.
    - A 2-D [ndarray] of [float64] is a list of rows ([matrix]); the element
      type is the carrier of a [Float64] structure, see below.
    - Library calls (numpy, scikit-learn, keras) are modelled from their
      documented behaviour; the name of the modelled routine is kept.
    - A Python exception is the [None] of an [option], or a [Raised] outcome
      where the exception itself matters. *)

From Stdlib Require Import ZArith List Bool Lia PrimFloat Uint63 Floats.
From stdpp Require Import gmap strings list.

(** ** The interface of IEEE 754 double precision

    The notebook computes on [float64] arrays.  The operations it uses are
    collected in a structure so that the same definitions can be run on the
    hardware doubles of the kernel ([binary64], below) and reasoned about
    from the algebraic laws of correctly rounded arithmetic. *)

Class Float64 : Type := {
  F : Type;
  fadd : F -> F -> F;
  fsub : F -> F -> F;
  fmul : F -> F -> F;
  fdiv : F -> F -> F;
  fsqrt : F -> F;
  (** [a <= b], false as soon as one side is NaN *)
  fle : F -> F -> bool;
  (** [a == b], false as soon as one side is NaN, true on [0.0 == -0.0] *)
  feq : F -> F -> bool;
  f_isnan : F -> bool;
  f_isposinf : F -> bool;
  f_isneginf : F -> bool;
  (** an integer count converted to a double, as [true_divide] does *)
  f_of_nat : nat -> F;
  f_zero : F;
  f_one : F;
  (** [np.finfo(np.float64).max] and [.min] *)
  f_max : F;
  f_min : F
}.

Declare Scope f64_scope.
Delimit Scope f64_scope with f64.
Infix "⊕" := fadd (at level 50, left associativity) : f64_scope.
Infix "⊖" := fsub (at level 50, left associativity) : f64_scope.
Infix "⊗" := fmul (at level 40, left associativity) : f64_scope.
Infix "⊘" := fdiv (at level 40, left associativity) : f64_scope.
Local Open Scope f64_scope.

(** The doubles of the kernel: every operation is the hardware one. *)
#[export] Instance binary64 : Float64 := {|
  F := float;
  fadd := PrimFloat.add;
  fsub := PrimFloat.sub;
  fmul := PrimFloat.mul;
  fdiv := PrimFloat.div;
  fsqrt := PrimFloat.sqrt;
  fle := PrimFloat.leb;
  feq := PrimFloat.eqb;
  f_isnan := PrimFloat.is_nan;
  f_isposinf := fun x => PrimFloat.eqb x infinity;
  f_isneginf := fun x => PrimFloat.eqb x neg_infinity;
  f_of_nat := fun n => PrimFloat.of_uint63 (Uint63.of_Z (Z.of_nat n));
  f_zero := PrimFloat.zero;
  f_one := PrimFloat.one;
  f_max := 0x1.fffffffffffffp+1023%float;
  f_min := (-0x1.fffffffffffffp+1023)%float
|}.

(** A row of doubles, and a 2-D array as the list of its rows. *)
Abbreviation vector := (list F) (only parsing).
Abbreviation matrix := (list (list F)) (only parsing).

(** A location of the notebook's heap of arrays. *)
Abbreviation loc := nat (only parsing).

Section Numpy.
Context {FL : Float64}.

(** A value is finite when it is none of NaN, +inf, -inf. *)
Definition f_isfinite (x : F) : bool :=
  negb (f_isnan x) && negb (f_isposinf x) && negb (f_isneginf x).


(** All rows have [m] columns: the list is an array of shape [(n, m)]. *)
Definition has_cols (m : nat) (X : matrix) : Prop :=
  Forall (fun r => length r = m) X.

(** [np.minimum.reduce] and [np.maximum.reduce]: the accumulator starts at
    the first element; the step keeps the accumulator when it compares
    [<=] (resp. [>=]) or is NaN, and takes the new element otherwise, so a
    NaN anywhere gives NaN.  This is numpy's scalar loop.  Its vector
    loops agree with it up to [==]: of two operands that compare equal,
    which are [-0.0] and [0.0], they may keep the other one.  What is
    proved of [np_min] and [np_max] below does not depend on that choice:
    it is stated with [<=] and [==]. *)
Definition minimum_step (io1 in2 : F) : F :=
  if fle io1 in2 || f_isnan io1 then io1 else in2.
Definition maximum_step (io1 in2 : F) : F :=
  if fle in2 io1 || f_isnan io1 then io1 else in2.

(** [np.min(X)], [np.max(X)] with no axis: over the flattened array;
    a zero-size array raises [ValueError]. *)
Definition np_min (X : matrix) : option F :=
  match concat X with
  | [] => None
  | x :: xs => Some (fold_left minimum_step xs x)
  end.
Definition np_max (X : matrix) : option F :=
  match concat X with
  | [] => None
  | x :: xs => Some (fold_left maximum_step xs x)
  end.

(** Element-wise operations with a row vector broadcast over the rows, and
    with a scalar broadcast over every entry.  The row vector has the
    length of the rows: the statistics and the matrices of the cell come
    from arrays of the same number of columns. *)
Definition row_sub (r v : vector) : vector := zip_with fsub r v.
Definition row_div (r v : vector) : vector := zip_with fdiv r v.
Definition row_add (r v : vector) : vector := zip_with fadd r v.
Definition sub_rows (X : matrix) (v : vector) : matrix := map (fun r => row_sub r v) X.
Definition div_rows (X : matrix) (v : vector) : matrix := map (fun r => row_div r v) X.
Definition sub_scalar (X : matrix) (c : F) : matrix := map (map (fun x => x ⊖ c)) X.
Definition div_scalar (X : matrix) (c : F) : matrix := map (map (fun x => x ⊘ c)) X.
Definition square (X : matrix) : matrix := map (map (fun x => x ⊗ x)) X.

(** numpy's pairwise summation of a contiguous run of doubles
    ([pairwise_sum] of [loops_utils.h]), in three regimes.

    Fewer than 8 elements are added one after the other, starting from
    [0.0].  Up to 128 elements are added in eight interleaved accumulators:
    [r[k]] starts at [a[k]] and receives [a[8 i + k]] for each further full
    block of eight; the accumulators are combined as
    [((r0 + r1) + (r2 + r3)) + ((r4 + r5) + (r6 + r7))] and the last
    [n mod 8] elements are then added one after the other.  A longer run is
    cut at [n / 2] rounded down to a multiple of 8, and the sums of the two
    parts are added. *)
Fixpoint accumulate8 (blocks : nat) (r a : vector) : vector * vector :=
  match blocks with
  | 0 => (r, a)
  | S blocks => accumulate8 blocks (zip_with fadd r (take 8 a)) (drop 8 a)
  end.

Definition combine8 (r : vector) : F :=
  match r with
  | [r0; r1; r2; r3; r4; r5; r6; r7] =>
      ((r0 ⊕ r1) ⊕ (r2 ⊕ r3)) ⊕ ((r4 ⊕ r5) ⊕ (r6 ⊕ r7))
  | _ => f_zero
  end.

(** The middle regime, for [8 <= length a]. *)
Definition unrolled_sum (a : vector) : F :=
  let '(r, rest) := accumulate8 (length a / 8 - 1) (take 8 a) (drop 8 a) in
  fold_left fadd rest (combine8 r).

(** [depth] bounds the number of cuts; [length a] is always enough, see
    [pairwise_sum_depth]. *)
Fixpoint pairwise_sum (depth : nat) (a : vector) : F :=
  let n := length a in
  if n <? 8 then fold_left fadd a f_zero
  else match depth with
       | S depth =>
           if 128 <? n
           then let n2 := n / 2 - (n / 2) mod 8 in
                pairwise_sum depth (take n2 a) ⊕ pairwise_sum depth (drop n2 a)
           else unrolled_sum a
       | 0 => unrolled_sum a
       end.

(** Every row has exactly one entry: the array has shape [(n, 1)]. *)
Definition one_column (X : matrix) : bool :=
  forallb (fun r => length r =? 1) X.

(** [np.add.reduce(X, axis=0)].  The result starts as zeros ([0.0] is the
    identity of [add]).  For an array of two or more columns the rows are
    added to it one after the other.  An array of one column is a
    contiguous run, which is summed by [pairwise_sum] and added to the
    initial [0.0]. *)
Definition sum_axis0 (X : matrix) : vector :=
  match X with
  | [] => []
  | r :: _ =>
      if one_column X
      then [f_zero ⊕ pairwise_sum (length X) (concat X)]
      else fold_left row_add X (replicate (length r) f_zero)
  end.

(** [np.mean(X, axis=0)]: the column sums divided by the row count. *)
Definition np_mean0 (X : matrix) : vector :=
  map (fun s => s ⊘ f_of_nat (length X)) (sum_axis0 X).

(** [np.std(X, axis=0)] (numpy's [_var] with [ddof = 0], then [sqrt]):
    the mean of the squared deviations from the column mean. *)
Definition np_var0 (X : matrix) : vector :=
  map (fun s => s ⊘ f_of_nat (length X)) (sum_axis0 (square (sub_rows X (np_mean0 X)))).
Definition np_std0 (X : matrix) : vector := map fsqrt (np_var0 X).

(** [np.nan_to_num]: NaN becomes 0.0, then +inf the largest finite double,
    then -inf the most negative one, by three masked copies in that order. *)
Definition nan_to_num1 (x : F) : F :=
  let d := if f_isnan x then f_zero else x in
  let d := if f_isposinf d then f_max else d in
  if f_isneginf d then f_min else d.
Definition nan_to_num (X : matrix) : matrix := map (map nan_to_num1) X.

(** [np.copy]: the same values (in a new array, see [Store] below). *)
Definition np_copy (X : matrix) : matrix := X.

(** *** The two transforms of the preprocessing cell

    [minmax_with] and [standardize_with] are the arithmetic of the
    right-hand sides of the [*_X_norm] and [*_X_std] assignments, with
    the reference statistics as arguments. *)
Definition minmax_with (lo hi : F) (X : matrix) : matrix :=
  nan_to_num (div_scalar (sub_scalar X lo) (hi ⊖ lo)).
Definition standardize_with (mean std : vector) (X : matrix) : matrix :=
  nan_to_num (div_rows (sub_rows X mean) std).

(** [np.nan_to_num((X - np.min(train_X)) / (np.max(train_X) - np.min(train_X)))] *)
Definition minmax (X train_X : matrix) : option matrix :=
  lo ← np_min train_X;
  hi ← np_max train_X;
  Some (minmax_with lo hi X).

(** [np.nan_to_num((X - np.mean(train_X, axis=0)) / np.std(train_X, axis=0))] *)
Definition standardize (X train_X : matrix) : matrix :=
  standardize_with (np_mean0 train_X) (np_std0 train_X) X.

Definition train_X_norm (train_X : matrix) : option matrix := minmax train_X train_X.
Definition test_X_norm (train_X test_X : matrix) : option matrix := minmax test_X train_X.
Definition train_X_std (train_X : matrix) : matrix := standardize (np_copy train_X) train_X.
Definition test_X_std (train_X test_X : matrix) : matrix := standardize (np_copy test_X) train_X.

(** Column [j] of a matrix is the constant [c]. *)
Definition constant_column (j : nat) (c : F) (X : matrix) : Prop :=
  Forall (fun r => r !! j = Some c) X.

(** [np.argmax] on a row of doubles: a leading NaN is maximal; afterwards
    an entry replaces the maximum when it is not [<=] it, and a NaN so
    reached ends the scan.  An empty row raises [ValueError]. *)
Fixpoint argmax_double_loop (mp : F) (max_ind i : nat) (ip : vector) : nat :=
  match ip with
  | [] => max_ind
  | x :: ip' =>
      if negb (fle x mp)
      then (if f_isnan x then i else argmax_double_loop x i (S i) ip')
      else argmax_double_loop mp max_ind (S i) ip'
  end.
Definition np_argmax_double (v : vector) : option nat :=
  match v with
  | [] => None
  | x :: v' => Some (if f_isnan x then 0 else argmax_double_loop x 0 1 v')
  end.

(** *** The notebook's object store

    Arrays live in a heap and variables name heap locations, so that two
    names may share one array.  Every numpy call of the cell allocates its
    result; none writes into an existing array. *)
Record store : Type := Store {
  heap : list matrix;
  env : gmap string loc
}.

(** A step of the cell: it fails on an exception, else returns a value and
    the next store. *)
Definition cmd (A : Type) : Type := store -> option (A * store).
Definition ret {A} (a : A) : cmd A := fun s => Some (a, s).
Definition bind {A B} (c : cmd A) (k : A -> cmd B) : cmd B :=
  fun s => match c s with Some (a, s') => k a s' | None => None end.
Definition lift {A} (o : option A) : cmd A := fun s => (fun a => (a, s)) <$> o.

(** Reading a variable ([NameError] when unbound), binding one, loading
    the array a location holds, allocating a new array. *)
Definition var (x : string) : cmd loc := fun s => lift (env s !! x) s.
Definition assign (x : string) (l : loc) : cmd unit :=
  fun s => Some (tt, Store (heap s) (<[x := l]> (env s))).
Definition load (l : loc) : cmd matrix := fun s => lift (heap s !! l) s.
Definition alloc (X : matrix) : cmd loc :=
  fun s => Some (length (heap s), Store (heap s ++ [X]) (env s)).
End Numpy.

Arguments pairwise_sum {_} _ _ : simpl never.

Declare Scope cmd_scope.
Delimit Scope cmd_scope with cmd.
Notation "x <~ c ;; k" := (bind c (fun x => k))
  (at level 100, c at next level, right associativity) : cmd_scope.
Notation "c ;;; k" := (bind c (fun _ => k))
  (at level 100, right associativity) : cmd_scope.

Section Cell.
Context {FL : Float64}.
Local Open Scope cmd_scope.

(** A numpy call on one array, on an array and a scalar, on an array and
    a row vector: the result is a new array. *)
Definition call1 (f : matrix -> matrix) (l : loc) : cmd loc :=
  X <~ load l ;; alloc (f X).
Definition reduce {A} (f : matrix -> A) (l : loc) : cmd A :=
  X <~ load l ;; ret (f X).
Definition reduce_opt {A} (f : matrix -> option A) (l : loc) : cmd A :=
  X <~ load l ;; lift (f X).

(** [dst = np.copy(src)] *)
Definition copy_stmt (dst src : string) : cmd unit :=
  a <~ var src ;; b <~ call1 np_copy a ;; assign dst b.

(** [dst = np.nan_to_num((src - np.min(train_X)) /
                         (np.max(train_X) - np.min(train_X)))] *)
Definition norm_stmt (dst src : string) : cmd unit :=
  a <~ var src ;; t <~ var "train_X" ;; lo <~ reduce_opt np_min t ;;
  d <~ call1 (fun X => sub_scalar X lo) a ;;
  t <~ var "train_X" ;; hi <~ reduce_opt np_max t ;;
  t <~ var "train_X" ;; lo' <~ reduce_opt np_min t ;;
  q <~ call1 (fun X => div_scalar X (hi ⊖ lo')) d ;;
  r <~ call1 nan_to_num q ;; assign dst r.

(** [dst = np.nan_to_num((src - np.mean(train_X, axis=0)) /
                         np.std(train_X, axis=0))] *)
Definition std_stmt (dst src : string) : cmd unit :=
  a <~ var src ;; t <~ var "train_X" ;; m <~ reduce np_mean0 t ;;
  d <~ call1 (fun X => sub_rows X m) a ;;
  t <~ var "train_X" ;; sd <~ reduce np_std0 t ;;
  q <~ call1 (fun X => div_rows X sd) d ;;
  r <~ call1 nan_to_num q ;; assign dst r.

(** The code cell under "Preprocessing", statement by statement. *)
Definition preprocessing_cell : cmd unit :=
  copy_stmt "train_X_base" "train_X" ;;;
  copy_stmt "test_X_base" "test_X" ;;;
  norm_stmt "train_X_norm" "train_X" ;;;
  norm_stmt "test_X_norm" "test_X" ;;;
  copy_stmt "train_X_std" "train_X" ;;;
  copy_stmt "test_X_std" "test_X" ;;;
  std_stmt "train_X_std" "train_X_std" ;;;
  std_stmt "test_X_std" "test_X_std".

(** The array a variable names in a store. *)
Definition value_of (x : string) (s : store) : option matrix :=
  l ← env s !! x; heap s !! l.

(** The effect of one assignment statement: [dst] is bound to a new
    location holding [V]; nothing else changes. *)
Definition assigned (dst : string) (V : matrix) (s s' : store) : Prop :=
  exists l news,
    heap s' = heap s ++ news /\
    env s' = <[dst := l]> (env s) /\
    length (heap s) <= l /\
    heap s' !! l = Some V.

(** In [s], the name [x] is bound to an array allocated after [s0]. *)
Definition newly_bound (s0 s : store) (x : string) : Prop :=
  exists l, env s !! x = Some l /\ length (heap s0) <= l.

(** The names the cell assigns. *)
Definition outputs : list string :=
  ["train_X_base"; "test_X_base"; "train_X_norm"; "test_X_norm";
   "train_X_std"; "test_X_std"].
End Cell.

(** ** Reading the CSV file (the loop of the cell under "Split Data") *)

(** [l[lo:hi]] for [0 <= lo <= hi]: a slice never raises, it ends where
    the list ends. *)
Definition slice {A} (lo hi : nat) (l : list A) : list A := take (hi - lo) (drop lo l).

(** The loop over the rows of the reader: [features.append([*row[5:11]])]
    and [labels.append(row[2])]; [row[2]] raises [IndexError] on a row of
    fewer than three fields. *)
Fixpoint read_rows (reader : list (list string))
    (features : list (list string)) (labels : list string)
  : option (list (list string) * list string) :=
  match reader with
  | [] => Some (features, labels)
  | row :: reader' =>
      let features := features ++ [slice 5 11 row] in
      l ← row !! 2;
      read_rows reader' features (labels ++ [l])
  end.

(** [l.pop(0)], for the list it leaves; [IndexError] on an empty list. *)
Definition pop0 {A} (l : list A) : option (list A) :=
  match l with
  | [] => None
  | _ :: l' => Some l'
  end.

(** The rows are read, then the column names are removed from both lists. *)
Definition load_csv (reader : list (list string))
  : option (list (list string) * list string) :=
  '(features, labels) ← read_rows reader [] [];
  features ← pop0 features;
  labels ← pop0 labels;
  Some (features, labels).

(** ** Loading, shuffling and splitting (the cell under "Split Data")

    [sklearn.utils.shuffle] draws from a [numpy.random.RandomState].  The
    generator is taken as given: [RandomState seed] is the state seeded with
    [seed], and [rk_interval max st] the next draw, uniform in [0, max],
    with the state that follows. *)
Section Split.
Context {rng : Type}.
Variable RandomState : Z -> rng.
Variable rk_interval : nat -> rng -> nat * rng.

(** [x[i], x[j] = x[j], x[i]]; [IndexError] out of range. *)
Definition swap {A} (x : list A) (i j : nat) : option (list A) :=
  xi ← x !! i; xj ← x !! j; Some (<[j := xi]> (<[i := xj]> x)).

(** [RandomState.shuffle]: for [i] from [n - 1] down to [1], swap entry
    [i] with entry [rk_interval(i)]. *)
Fixpoint shuffle_down {A} (i : nat) (x : list A) (st : rng) : option (list A * rng) :=
  match i with
  | 0 => Some (x, st)
  | S i' =>
      let '(j, st') := rk_interval i st in
      x' ← swap x i j; shuffle_down i' x' st'
  end.
Definition rs_shuffle {A} (x : list A) (st : rng) : option (list A * rng) :=
  shuffle_down (length x - 1) x st.

(** The [random_state] argument of scikit-learn: [None] is the process-wide
    generator, an integer seeds a new one ([check_random_state]). *)
Inductive random_state : Type :=
| RSNone
| RSSeed (seed : Z).

(** [a[indices]] on the first axis; [IndexError] out of range. *)
Definition safe_indexing {A} (a : list A) (indices : list nat) : option (list A) :=
  mapM (fun i => a !! i) indices.

(** [sklearn.utils.shuffle(X, y, random_state=rs)]: one permutation of
    [arange(n)], applied to both arrays; arrays of different lengths raise
    [ValueError].  [g] is the state of the process-wide generator; the
    call returns the state it leaves it in. *)
Definition sk_shuffle {A B} (X : list A) (y : list B) (rs : random_state) (g : rng)
  : option (list A * list B * rng) :=
  if negb (length X =? length y)%nat then None else
  '(indices, g') ←
    match rs with
    | RSNone => rs_shuffle (seq 0 (length X)) g
    | RSSeed seed =>
        '(indices, _) ← rs_shuffle (seq 0 (length X)) (RandomState seed);
        Some (indices, g)
    end;
  X' ← safe_indexing X indices;
  y' ← safe_indexing y indices;
  Some (X', y', g').

(** [math.floor] of a double: the largest integer not above it; a NaN
    raises [ValueError] and an infinity [OverflowError]. *)
Definition math_floor (x : float) : option Z :=
  match Prim2SF x with
  | S754_zero _ => Some 0%Z
  | S754_finite s m e => Some (Z.shiftl (if s then Zneg m else Zpos m) e)
  | S754_infinity _ | S754_nan => None
  end.

(** [math.floor(n * 0.75)]: the length becomes a double, the product is
    the rounded one, and its floor is an integer again. *)
Definition floor_three_quarters (n : nat) : option nat :=
  Z.to_nat <$>
    math_floor (PrimFloat.mul (PrimFloat.of_uint63 (Uint63.of_Z (Z.of_nat n))) 0.75).

Record split_data (A B : Type) : Type := SplitData {
  train_X : list A; train_y : list B;
  test_X : list A; test_y : list B
}.
Global Arguments SplitData {A B}.
Global Arguments train_X {A B}. Global Arguments train_y {A B}.
Global Arguments test_X {A B}. Global Arguments test_y {A B}.

(** The end of the cell: shuffle with [random_state=0], then cut both
    arrays at [split]. *)
Definition shuffle_and_split {A B} (features : list A) (labels : list B) (g : rng)
  : option (split_data A B * rng) :=
  '(features, labels, g') ← sk_shuffle features labels (RSSeed 0) g;
  split ← floor_three_quarters (length labels);
  Some (SplitData (take split features) (take split labels)
                  (drop split features) (drop split labels), g').
End Split.

(** ** Labels: from strings to one-hot rows, and back *)

(** [uniq_labels = list(set(labels))]: the distinct labels, in the iteration
    order of the set. *)
Definition uniq_labels (labels : list string) : list string :=
  elements (list_to_set labels : gset string).

(** [label_2_int = dict(zip(uniq_labels, range(len(uniq_labels))))] *)
Definition label_2_int (labels : list string) : gmap string nat :=
  list_to_map (zip (uniq_labels labels) (seq 0 (length (uniq_labels labels)))).

(** The number of distinct labels of the dataset. *)
Definition label_cardinality (labels : list string) : nat :=
  length (uniq_labels labels).

(** One row of [to_categorical]: zeros, and a one at the class index. *)
Definition one_hot (nb_classes y : nat) : list Z :=
  <[y := 1%Z]> (replicate nb_classes 0%Z).

(** [keras.utils.np_utils.to_categorical(y)] with [nb_classes] left out: the
    number of classes is [max(y) + 1]; an empty [y] raises in [np.max]. *)
Definition to_categorical (y : list nat) : option (list (list Z)) :=
  match y with
  | [] => None
  | _ => let nb_classes := S (max_list y) in Some (map (one_hot nb_classes) y)
  end.

(** [to_categorical(list(map(lambda l: label_2_int[l], labels)))];
    a label missing from the dictionary raises [KeyError]. *)
Definition encode_labels (labels : list string) : option (list (list Z)) :=
  ints ← mapM (fun l => label_2_int labels !! l) labels;
  to_categorical ints.

(** [np.argmax] on a row of integers: the index of the first maximum;
    an empty row raises [ValueError]. *)
Fixpoint argmax_loop (mp : Z) (max_ind : nat) (i : nat) (ip : list Z) : nat :=
  match ip with
  | [] => max_ind
  | x :: ip' =>
      if (mp <? x)%Z then argmax_loop x i (S i) ip'
      else argmax_loop mp max_ind (S i) ip'
  end.
Definition np_argmax (v : list Z) : option nat :=
  match v with
  | [] => None
  | x :: v' => Some (argmax_loop x 0 1 v')
  end.

(** [y = [np.argmax(pred) for pred in test_y]] *)
Definition decode_labels (test_y : list (list Z)) : option (list nat) :=
  mapM np_argmax test_y.

(** [print_accuracy]: the number of rows on which the argmax of the
    prediction and of the expected one-hot row agree; the printed accuracy
    is this count over the test-set size.  [expected[i]] raises [IndexError]
    when the predictions outnumber the expected rows. *)
Fixpoint correct_count {FL : Float64}
    (expected : list (list Z)) (predicted : matrix) : option nat :=
  match predicted, expected with
  | [], _ => Some 0
  | p :: predicted', e :: expected' =>
      a ← np_argmax_double p; b ← np_argmax e;
      n ← correct_count expected' predicted';
      Some (if decide (a = b) then S n else n)
  | _ :: _, [] => None
  end.

(** The number [print_accuracy] formats: [correct / len(test_y)], the
    quotient of two integers as a double ([ZeroDivisionError] when
    [test_y] is empty).  [test_y] is the global of the notebook, not the
    argument [expected].  The quotient of two integers below [2^53] is the
    quotient of the doubles they convert to without rounding. *)
Definition accuracy (test_y expected : list (list Z)) (predicted : list (list float))
  : option float :=
  correct ← correct_count (FL:=binary64) expected predicted;
  if decide (length test_y = 0) then None
  else Some (PrimFloat.div (f_of_nat (Float64:=binary64) correct)
                           (f_of_nat (Float64:=binary64) (length test_y))).

(** ** The model factory *)
Inductive activation : Type := Relu | Softmax.
Inductive layer : Type :=
| Dense (units : nat) (input_dim : option nat) (act : activation)
| Dropout (rate : float).

(** [get_model(num_inputs)] *)
Definition get_model (num_inputs : nat) : list layer :=
  [ Dense 128 (Some num_inputs) Relu;
    Dropout 0.5;
    Dense 64 None Relu;
    Dropout 0.5;
    Dense 18 None Softmax ].

(** The width of the last [Dense] layer with a softmax activation. *)
Definition softmax_units (model : list layer) : option nat :=
  match last model with
  | Some (Dense units _ Softmax) => Some units
  | _ => None
  end.

(** ** The last code cell of the hyperparameter search

    [[
    try:
        pickle.dump(trials.trials, open(..., 'wb'), recurse=True, byref=False)
    except e:
        print(e)
    ]] *)
Module Py.
(** An exception object: the classes it is an instance of (its own class
    first, [BaseException] last) and its message. *)
Record exn : Type := Exn { exn_mro : list string; exn_msg : string }.

(** What a name of the notebook may be bound to. *)
#[warnings="-register-all"] Inductive value : Type :=
| VClass (name : string)       (* a class that does not derive from BaseException *)
| VExcClass (name : string)    (* an exception class: it derives from BaseException *)
| VTuple (items : list value)  (* a tuple *)
| VObject (repr : string).     (* a module, a function, an instance *)

(** A statement or expression: it reads and extends the printed output,
    and either returns or raises. *)
Definition py (A : Type) : Type := list string -> (exn + A) * list string.
Definition pure {A} (a : A) : py A := fun out => (inr a, out).
Definition raise {A} (e : exn) : py A := fun out => (inl e, out).
Definition seq {A B} (c : py A) (k : A -> py B) : py B :=
  fun out => match c out with
             | (inr a, out') => k a out'
             | (inl e, out') => (inl e, out')
             end.

Definition NameError (x : string) : exn :=
  Exn ["NameError"; "Exception"; "BaseException"]
      ("name '" +:+ x +:+ "' is not defined").
Definition TypeError : exn :=
  Exn ["TypeError"; "Exception"; "BaseException"]
      "catching classes that do not inherit from BaseException is not allowed".

(** The names bound when the cell runs: by the imports, the two [def]s and
    the assignments of the cells above, in the order of the notebook. *)
Definition notebook_globals : gmap string value :=
  list_to_map
    [ ("pickle", VObject "<module 'dill'>");
      ("pprint", VObject "<module 'pprint'>");
      ("mnist", VObject "<module 'keras.datasets.mnist'>");
      ("to_categorical", VObject "<function to_categorical>");
      ("Sequential", VClass "Sequential");
      ("Dense", VClass "Dense");
      ("Dropout", VClass "Dropout");
      ("Activation", VClass "Activation");
      ("Trials", VClass "Trials");
      ("STATUS_OK", VObject "ok");
      ("tpe", VObject "<module 'hyperopt.tpe'>");
      ("optim", VObject "<module 'hyperas.optim'>");
      ("choice", VObject "<function choice>");
      ("uniform", VObject "<function uniform>");
      ("conditional", VObject "<function conditional>");
      ("data", VObject "<function data>");
      ("model", VObject "<function model>");
      ("trials", VObject "<hyperopt.base.Trials object>");
      ("best_run", VObject "{...}");
      ("foo", VObject "<keras.models.Sequential object>") ].

(** The built-in names the cell could reach. *)
Definition builtins : gmap string value :=
  list_to_map
    [ ("print", VObject "<built-in function print>");
      ("open", VObject "<built-in function open>");
      ("BaseException", VExcClass "BaseException");
      ("Exception", VExcClass "Exception");
      ("OSError", VExcClass "OSError");
      ("NameError", VExcClass "NameError");
      ("TypeError", VExcClass "TypeError") ].

(** Evaluating a name: the globals, then the built-ins, else [NameError]. *)
Definition name (globals : gmap string value) (x : string) : py value :=
  match globals !! x with
  | Some v => pure v
  | None => match builtins !! x with
            | Some v => pure v
            | None => raise (NameError x)
            end
  end.

(** The text [print] writes for a value; the items of a tuple are written
    between parentheses, with a comma after a single item. *)
Fixpoint str (v : value) : string :=
  match v with
  | VClass c | VExcClass c => "<class '" +:+ c +:+ "'>"
  | VObject r => r
  | VTuple [] => "()"
  | VTuple [v] => "(" +:+ str v +:+ ",)"
  | VTuple (v :: vs) =>
      "(" +:+ str v +:+
      (fix items (vs : list value) : string :=
         match vs with
         | [] => ")"
         | v :: vs => ", " +:+ str v +:+ items vs
         end) vs
  end.
Definition print (line : string) : py unit := fun out => (inr tt, out ++ [line]).

(** Whether a clause [except v] catches the exception [x].  The clause
    must name an exception class, or a tuple whose items are all exception
    classes; anything else (a class that does not derive from
    [BaseException], a tuple with such an item or with a nested tuple, any
    other object) is the [TypeError] that [None] stands for.  An exception
    class catches its instances, a tuple what one of its items catches. *)
Definition exception_class (v : value) : option string :=
  match v with
  | VExcClass c => Some c
  | _ => None
  end.
Definition catches (v : value) (x : exn) : option bool :=
  match v with
  | VTuple vs =>
      cs ← mapM exception_class vs;
      Some (existsb (fun c => bool_decide (c ∈ exn_mro x)) cs)
  | _ =>
      c ← exception_class v;
      Some (bool_decide (c ∈ exn_mro x))
  end.

(** [try: body  except <clause>: handler].  When the body raises, the
    clause expression is evaluated (which may itself raise) and matched
    against the exception: the handler runs when the clause catches it,
    the exception propagates when it does not, and a clause that names no
    exception class raises [TypeError]. *)
Definition try_except (body : py unit) (clause : py value) (handler : py unit)
  : py unit :=
  fun out =>
    match body out with
    | (inr tt, out') => (inr tt, out')
    | (inl x, out') =>
        match clause out' with
        | (inl y, out'') => (inl y, out'')
        | (inr v, out'') =>
            match catches v x with
            | Some true => handler out''
            | Some false => (inl x, out'')
            | None => (inl TypeError, out'')
            end
        end
    end.

(** The cell, for a [pickle.dump] call that behaves as [dump]. *)
Definition save_trials (globals : gmap string value) (dump : py unit) : py unit :=
  try_except dump
    (name globals "e")
    (seq (name globals "e") (fun v => print (str v))).

(** The same statement with the clause [except Exception as e]. *)
Definition save_trials_as (dump : py unit) : py unit :=
  fun out =>
    match dump out with
    | (inr tt, out') => (inr tt, out')
    | (inl x, out') =>
        if bool_decide ("Exception" ∈ exn_mro x)
        then print (exn_msg x) out' else (inl x, out')
    end.
End Py.

(** ** The value of a double

    Every finite binary64 number is an integer multiple of [2^-1074].  A
    double is given its value in that unit, and an integer is rounded to 53
    significant bits; with these the operations of [SpecFloat], which the
    kernel's doubles follow, are read as operations on integers. *)
Module Binary64.
Local Open Scope Z_scope.

(** [N / 2^n] rounded to nearest, ties to even. *)
Definition rne (N n : Z) : Z :=
  let q := N / 2 ^ n in
  let r := N mod 2 ^ n in
  let h := 2 ^ (n - 1) in
  if (h <? r) || ((r =? h) && Z.odd q) then q + 1 else q.

(** A positive integer rounded to 53 significant bits. *)
Definition RN (N : Z) : Z :=
  let n := Zdigits2 N - 53 in
  if n <=? 0 then N else rne N n * 2 ^ n.

(** An integer of either sign rounded to 53 significant bits. *)
Definition RNZ (z : Z) : Z :=
  match z with
  | Z0 => 0
  | Zpos _ => RN z
  | Zneg p => - RN (Zpos p)
  end.

(** A shift record [(m, r, s)] as the integer [2 m + r] and the sticky bit. *)
Definition code (mrs : shr_record) : Z := 2 * shr_m mrs + Z.b2z (shr_r mrs).

(** The overflow threshold [2^1024], in units of [2^-1074]. *)
Definition OVF : Z := 2 ^ 2098.

(** A magnitude with the sign bit [s]. *)
Definition sgn (s : bool) (z : Z) : Z := if s then - z else z.

(** Every finite double is an integer multiple of [2^-1074]; the infinities
    are given the value of the overflow threshold. *)
Definition sv (x : spec_float) : Z :=
  match x with
  | S754_zero _ | S754_nan => 0
  | S754_infinity s => sgn s OVF
  | S754_finite s m e => sgn s (Zpos m * 2 ^ (e + 1074))
  end.

(** A rounded value at or beyond the threshold is an infinity. *)
Definition clip (z : Z) : Z := Z.max (- OVF) (Z.min OVF z).

(** The classes of a double. *)
Definition is_nan_sf (x : spec_float) : bool :=
  match x with S754_nan => true | _ => false end.
Definition is_finite_sf (x : spec_float) : bool :=
  match x with S754_zero _ | S754_finite _ _ _ => true | _ => false end.

(** A well-formed double: 53 bits of mantissa at most, exponent in range. *)
Abbreviation valid := (SpecFloat.valid_binary prec emax).

Definition is_inf_sf (x : spec_float) : bool :=
  match x with S754_infinity _ => true | _ => false end.

(** The double 1.0. *)
Definition SFone64 : spec_float := S754_finite false 4503599627370496 (-52).

End Binary64.

(** ** Laws of correctly rounded arithmetic

    What the proofs below use of the arithmetic.  Each law is a property of
    IEEE 754 binary64 with round-to-nearest and gradual underflow; the laws
    are proved for the hardware doubles in [Binary64Facts]. *)

(** The three constants of [nan_to_num] are finite. *)
Class ClassifyLaws (FL : Float64) : Prop := {
  zero_finite : f_isfinite f_zero = true;
  max_finite : f_isfinite f_max = true;
  min_finite : f_isfinite f_min = true
}.

(** Subtracting [0.0] and dividing by [1.0] are exact. *)
Class IdentityLaws (FL : Float64) : Prop := {
  sub_zero x : x ⊖ f_zero = x;
  div_one x : x ⊘ f_one = x
}.

(** [<=] is a total preorder away from NaN, and rounding is monotone. *)
Class OrderLaws (FL : Float64) : Prop := {
  le_refl x : f_isnan x = false -> fle x x = true;
  le_trans x y z : fle x y = true -> fle y z = true -> fle x z = true;
  le_total x y : f_isnan x = false -> f_isnan y = false ->
    fle x y = false -> fle y x = true;
  le_nan_r x y : f_isnan y = true -> fle x y = false;
  zero_le_one : fle f_zero f_one = true;
  posinf_above x : f_isposinf x = true -> fle x f_one = false;
  neginf_below x : f_isneginf x = true -> fle f_zero x = false;
  sub_nan_r x y : f_isnan y = true -> f_isnan (x ⊖ y) = true;
  div_nan_l x y : f_isnan x = true -> f_isnan (x ⊘ y) = true;
  div_nan_r x y : f_isnan y = true -> f_isnan (x ⊘ y) = true;
  (** [lo <= x] gives [0 <= x - lo], unless the difference is NaN *)
  sub_nonneg x lo : fle lo x = true ->
    f_isnan (x ⊖ lo) = true \/ fle f_zero (x ⊖ lo) = true;
  (** [x <= y] gives [x - lo <= y - lo], unless a difference is NaN *)
  sub_mono x y lo : fle x y = true ->
    f_isnan (x ⊖ lo) = true \/ f_isnan (y ⊖ lo) = true \/
    fle (x ⊖ lo) (y ⊖ lo) = true;
  (** [0 <= a <= b] gives [0 <= a / b <= 1], unless the quotient is NaN *)
  div_unit a b : fle f_zero a = true -> fle a b = true ->
    f_isnan (a ⊘ b) = true \/
    (fle f_zero (a ⊘ b) = true /\ fle (a ⊘ b) f_one = true)
}.

(** Arithmetic on zeros, and the sign of a difference. *)
Class ZeroLaws (FL : Float64) : Prop := {
  eq_not_nan a b : feq a b = true -> f_isnan a = false /\ f_isnan b = false;
  (** for finite [a == b], [a - b] is a zero *)
  sub_eq a b : f_isfinite a = true -> feq a b = true -> feq (a ⊖ b) f_zero = true;
  sq_zero d : feq d f_zero = true -> d ⊗ d = f_zero;
  add_zero_zero : f_zero ⊕ f_zero = f_zero;
  zero_div_count n : (0 < n)%nat -> (Z.of_nat n < 2 ^ 63)%Z ->
    f_zero ⊘ f_of_nat n = f_zero;
  sqrt_zero : fsqrt f_zero = f_zero;
  zero_div_zero d : feq d f_zero = true -> f_isnan (d ⊘ f_zero) = true;
  (** for [a > b], [a - b] is positive, and [(a - b) / 0.0] is [+inf] *)
  sub_pos a b : f_isnan a = false -> f_isnan b = false -> fle a b = false ->
    f_isnan (a ⊖ b) = false /\ fle (a ⊖ b) f_zero = false;
  pos_div_zero p : f_isnan p = false -> fle p f_zero = false ->
    f_isnan (p ⊘ f_zero) = false /\ f_isposinf (p ⊘ f_zero) = true;
  (** for [a < b], [a - b] is negative, and [(a - b) / 0.0] is [-inf] *)
  sub_neg a b : f_isnan a = false -> f_isnan b = false -> fle b a = false ->
    f_isnan (a ⊖ b) = false /\ fle f_zero (a ⊖ b) = false;
  neg_div_zero p : f_isnan p = false -> fle f_zero p = false ->
    f_isnan (p ⊘ f_zero) = false /\ f_isposinf (p ⊘ f_zero) = false /\
    f_isneginf (p ⊘ f_zero) = true
}.

(** ** Statements of the results *)
Section Specs.
Context {FL : Float64}.

(** What [nan_to_num] makes of a quotient [q]: the result [r] is finite;
    it is 0.0 for a NaN, the largest finite double for +inf, the most
    negative one for -inf, and [q] itself when [q] is finite. *)
Definition replaced (q r : F) : Prop :=
  f_isfinite r = true /\
  (f_isnan q = true -> r = f_zero) /\
  (f_isnan q = false -> f_isposinf q = true -> r = f_max) /\
  (f_isnan q = false -> f_isposinf q = false -> f_isneginf q = true -> r = f_min) /\
  (f_isfinite q = true -> r = q).

(** An entry of the closed interval [0, 1]. *)
Definition in_unit (r : F) : Prop :=
  fle f_zero r = true /\ fle r f_one = true.
End Specs.

(** ** Concrete inputs *)

(** A store of hardware doubles: a training matrix of three rows and a test
    matrix of one row; and the same with another test matrix. *)
Definition demo_train : list (list float) := [[0; 10]; [5; 5]; [10; 0]]%float.
Definition demo_store : store (FL:=binary64) :=
  Store [demo_train; [[20; 5]]%float]
        (<["train_X" := 0%nat]> (<["test_X" := 1%nat]> ∅)).
Definition demo_store' : store (FL:=binary64) :=
  Store [[[-3; 7]; [2; 2]]%float; demo_train]
        (<["train_X" := 1%nat]> (<["test_X" := 0%nat]> ∅)).

(** A training matrix whose only column is the constant 5, and a test row
    with another value. *)
Definition const_train : list (list float) := [[5]; [5]; [5]]%float.
Definition const_test : list (list float) := [[7]]%float.

(** A training matrix whose only column is the constant 0.1 (the double
    nearest to it). *)
Definition tenth : float := 0x1.999999999999ap-4%float.
Definition tenth_train : list (list float) := [[tenth]; [tenth]; [tenth]].

(** Eight rows of 0.1, in one column and in two. *)
Definition eight_tenths : list (list float) := replicate 8 [tenth].
Definition eight_tenths2 : list (list float) := replicate 8 [tenth; tenth].

(** Test rows above, at and below the constant. *)
Definition const_tests : list (list float) := [[7]; [5]; [3]]%float.

(** A linear congruential generator, standing for the Mersenne twister. *)
Definition lcg_seed (seed : Z) : Z := seed.
Definition lcg_interval (max : nat) (st : Z) : nat * Z :=
  (Z.to_nat (st `mod` (Z.of_nat max + 1)),
   ((st * 1103515245 + 12345) `mod` 2147483648)%Z).

(** A [pickle.dump] that fails because the directory [../data] is missing. *)
Definition FileNotFoundError : Py.exn :=
  Py.Exn ["FileNotFoundError"; "OSError"; "Exception"; "BaseException"]
         "[Errno 2] No such file or directory: '../data/hyperparameter_trials.pickel'".
Definition dump_fails : Py.py unit := Py.raise FileNotFoundError.

(** A file of the layout of [Pokemon.csv]: the column names and two rows. *)
Definition pokemon_header : list string :=
  ["#"; "Name"; "Type 1"; "Type 2"; "Total"; "HP"; "Attack"; "Defense";
   "Sp. Atk"; "Sp. Def"; "Speed"; "Generation"; "Legendary"].
Definition pokemon_rows : list (list string) :=
  [ ["1"; "Bulbasaur"; "Grass"; "Poison"; "318"; "45"; "49"; "49"; "65"; "65";
     "45"; "1"; "False"];
    ["4"; "Charmander"; "Fire"; ""; "309"; "39"; "52"; "43"; "60"; "50";
     "65"; "1"; "False"] ].

(** A training matrix with a NaN, and one whose entries are all 5. *)
Definition nan_train : list (list float) := [[1; nan]; [2; 3]]%float.
Definition fives : list (list float) := [[5; 5]; [5; 5]]%float.

(** A training matrix with both zeros, the negative one first. *)
Definition signed_zeros : list (list float) := [[neg_zero; 0; 1]]%float.

(** Two rows of scores and the one-hot rows expected for them. *)
Definition scores : list (list float) := [[0.125; 0.75; 0.125]; [0.5; 0.25; 0.25]]%float.
Definition expected_rows : list (list Z) := [[0; 1; 0]; [0; 0; 1]]%Z.

(* ================================================================== *)
(** * Proofs *)

Section NanToNum.
Context {FL : Float64} {CL : ClassifyLaws FL}.

Lemma isfinite_inv (x : F) :
  f_isfinite x = true ->
  f_isnan x = false /\ f_isposinf x = false /\ f_isneginf x = false.
Proof.
  unfold f_isfinite. rewrite !andb_true_iff, !negb_true_iff. tauto.
Qed.

Lemma isfinite_intro (x : F) :
  f_isnan x = false -> f_isposinf x = false -> f_isneginf x = false ->
  f_isfinite x = true.
Proof. unfold f_isfinite. intros -> -> ->. reflexivity. Qed.

Lemma nan_to_num1_nan (x : F) : f_isnan x = true -> nan_to_num1 x = f_zero.
Proof.
  intros Hx. unfold nan_to_num1. rewrite Hx.
  destruct (isfinite_inv _ zero_finite) as (_ & -> & ->). reflexivity.
Qed.

Lemma nan_to_num1_posinf (x : F) :
  f_isnan x = false -> f_isposinf x = true -> nan_to_num1 x = f_max.
Proof.
  intros Hn Hp. unfold nan_to_num1. rewrite Hn, Hp.
  destruct (isfinite_inv _ max_finite) as (_ & _ & ->). reflexivity.
Qed.

Lemma nan_to_num1_neginf (x : F) :
  f_isnan x = false -> f_isposinf x = false -> f_isneginf x = true ->
  nan_to_num1 x = f_min.
Proof. intros Hn Hp Hm. unfold nan_to_num1. rewrite Hn, Hp, Hm. reflexivity. Qed.

Lemma nan_to_num1_finite (x : F) : f_isfinite x = true -> nan_to_num1 x = x.
Proof.
  intros (Hn & Hp & Hm)%isfinite_inv. unfold nan_to_num1.
  rewrite Hn, Hp, Hm. reflexivity.
Qed.

Lemma nan_to_num1_isfinite (x : F) : f_isfinite (nan_to_num1 x) = true.
Proof.
  destruct (f_isnan x) eqn:Hn.
  { rewrite nan_to_num1_nan by done. apply zero_finite. }
  destruct (f_isposinf x) eqn:Hp.
  { rewrite nan_to_num1_posinf by done. apply max_finite. }
  destruct (f_isneginf x) eqn:Hm.
  { rewrite nan_to_num1_neginf by done. apply min_finite. }
  rewrite nan_to_num1_finite; by apply isfinite_intro.
Qed.

Lemma nan_to_num1_replaced (q : F) : replaced q (nan_to_num1 q).
Proof.
  split; [apply nan_to_num1_isfinite|].
  split; [apply nan_to_num1_nan|].
  split; [apply nan_to_num1_posinf|].
  split; [apply nan_to_num1_neginf|apply nan_to_num1_finite].
Qed.

Lemma nan_to_num1_idemp (x : F) : nan_to_num1 (nan_to_num1 x) = nan_to_num1 x.
Proof. apply nan_to_num1_finite, nan_to_num1_isfinite. Qed.

Lemma nan_to_num_replaced (Q : matrix) : Forall2 (Forall2 replaced) Q (nan_to_num Q).
Proof.
  unfold nan_to_num. induction Q as [|r Q IH]; simpl; constructor; [|exact IH].
  induction r as [|q r IHr]; simpl; constructor; [apply nan_to_num1_replaced|exact IHr].
Qed.

Lemma nan_to_num_idemp (X : matrix) : nan_to_num (nan_to_num X) = nan_to_num X.
Proof.
  unfold nan_to_num. rewrite map_map. apply map_ext. intros r.
  rewrite map_map. apply map_ext. intros x. apply nan_to_num1_idemp.
Qed.

(** C3, as the code has it: in both transforms, and for the training and
    the test matrix alike, every entry of the result comes from the
    quotient at its position by [nan_to_num]: it is finite; a NaN
    quotient has become 0.0, but a +inf quotient the largest finite
    double and a -inf quotient the most negative one, not zero. *)
Theorem nan_to_num_coerces (X train_X : matrix) :
  (forall M, minmax X train_X = Some M ->
     exists lo hi, np_min train_X = Some lo /\ np_max train_X = Some hi /\
       Forall2 (Forall2 replaced) (div_scalar (sub_scalar X lo) (hi ⊖ lo)) M) /\
  Forall2 (Forall2 replaced)
    (div_rows (sub_rows X (np_mean0 train_X)) (np_std0 train_X))
    (standardize X train_X).
Proof.
  split.
  - intros M HM. unfold minmax in HM.
    destruct (np_min train_X) as [lo|]; [|discriminate].
    destruct (np_max train_X) as [hi|]; [|discriminate].
    simpl in HM. injection HM as <-. exists lo, hi.
    split; [done|]. split; [done|]. apply nan_to_num_replaced.
  - apply nan_to_num_replaced.
Qed.
End NanToNum.

(** ** The preprocessing cell on the store *)
Section CellProofs.
Context {FL : Float64}.
Local Open Scope cmd_scope.

Lemma bind_ok {A B} (c : cmd A) (k : A -> cmd B) s a s' :
  c s = Some (a, s') -> bind c k s = k a s'.
Proof. unfold bind. intros ->. reflexivity. Qed.

Lemma var_ok s x l : env s !! x = Some l -> var x s = Some (l, s).
Proof. unfold var, lift. intros ->. reflexivity. Qed.

Lemma call1_ok s (f : matrix -> matrix) l X :
  heap s !! l = Some X ->
  call1 f l s = Some (length (heap s), Store (heap s ++ [f X]) (env s)).
Proof. unfold call1, bind, load, lift, alloc. intros ->. reflexivity. Qed.

Lemma reduce_ok {A} s (f : matrix -> A) l X :
  heap s !! l = Some X -> reduce f l s = Some (f X, s).
Proof. unfold reduce, bind, load, lift, ret. intros ->. reflexivity. Qed.

Lemma reduce_opt_ok {A} s (f : matrix -> option A) l X v :
  heap s !! l = Some X -> f X = Some v -> reduce_opt f l s = Some (v, s).
Proof.
  unfold reduce_opt, bind, load, lift. intros HX Hv.
  rewrite HX. simpl. rewrite Hv. reflexivity.
Qed.

Lemma assigned_value dst V s s' : assigned dst V s s' -> value_of dst s' = Some V.
Proof.
  intros (l & news & Hh & He & Hl & HV). unfold value_of.
  rewrite He, lookup_insert_eq. exact HV.
Qed.

Lemma assigned_frame dst V s s' x X :
  assigned dst V s s' -> x <> dst -> value_of x s = Some X -> value_of x s' = Some X.
Proof.
  intros (l & news & Hh & He & Hl & HV) Hne. unfold value_of.
  destruct (env s !! x) as [k|] eqn:Hx; [simpl|done].
  intros Hk. rewrite He, lookup_insert_ne, Hx by done. simpl.
  rewrite Hh. by apply lookup_app_l_Some.
Qed.

Lemma copy_stmt_spec dst src s X :
  value_of src s = Some X ->
  exists s', copy_stmt dst src s = Some (tt, s') /\ assigned dst X s s'.
Proof.
  unfold value_of. destruct (env s !! src) as [a|] eqn:Ha; [simpl|done]. intros HX.
  eexists. split.
  - unfold copy_stmt.
    erewrite bind_ok by (by apply var_ok).
    erewrite bind_ok by (by eapply call1_ok).
    reflexivity.
  - exists (length (heap s)), [X]. simpl. split; [done|]. split; [done|].
    split; [lia|]. by apply list_lookup_middle.
Qed.

Lemma norm_stmt_spec dst src s X tr lo hi :
  value_of src s = Some X -> value_of "train_X" s = Some tr ->
  np_min tr = Some lo -> np_max tr = Some hi ->
  exists s', norm_stmt dst src s = Some (tt, s') /\
             assigned dst (minmax_with lo hi X) s s'.
Proof.
  unfold value_of.
  destruct (env s !! src) as [a|] eqn:Ha; [simpl|done]. intros HX.
  destruct (env s !! "train_X") as [t|] eqn:Ht; [simpl|done]. intros Htr Hlo Hhi.
  eexists. split.
  - unfold norm_stmt.
    erewrite bind_ok by (by apply var_ok).
    erewrite bind_ok by (by apply var_ok).
    erewrite bind_ok by (by eapply reduce_opt_ok).
    erewrite bind_ok by (by eapply call1_ok).
    erewrite bind_ok by (by apply var_ok).
    erewrite bind_ok by (eapply reduce_opt_ok; [by apply lookup_app_l_Some|done]).
    erewrite bind_ok by (by apply var_ok).
    erewrite bind_ok by (eapply reduce_opt_ok; [by apply lookup_app_l_Some|done]).
    erewrite bind_ok by (eapply call1_ok; by apply list_lookup_middle).
    erewrite bind_ok by (eapply call1_ok; by apply list_lookup_middle).
    reflexivity.
  - eexists _, [_; _; _]. simpl. split; [by rewrite <- !app_assoc|].
    split; [done|]. rewrite !length_app. simpl. split; [lia|].
    apply list_lookup_middle. rewrite !length_app. simpl. lia.
Qed.

Lemma std_stmt_spec dst src s X tr :
  value_of src s = Some X -> value_of "train_X" s = Some tr ->
  exists s', std_stmt dst src s = Some (tt, s') /\
             assigned dst (standardize X tr) s s'.
Proof.
  unfold value_of.
  destruct (env s !! src) as [a|] eqn:Ha; [simpl|done]. intros HX.
  destruct (env s !! "train_X") as [t|] eqn:Ht; [simpl|done]. intros Htr.
  eexists. split.
  - unfold std_stmt.
    erewrite bind_ok by (by apply var_ok).
    erewrite bind_ok by (by apply var_ok).
    erewrite bind_ok by (by eapply reduce_ok).
    erewrite bind_ok by (by eapply call1_ok).
    erewrite bind_ok by (by apply var_ok).
    erewrite bind_ok by (eapply reduce_ok; by apply lookup_app_l_Some).
    erewrite bind_ok by (eapply call1_ok; by apply list_lookup_middle).
    erewrite bind_ok by (eapply call1_ok; by apply list_lookup_middle).
    reflexivity.
  - eexists _, [_; _; _]. simpl. split; [by rewrite <- !app_assoc|].
    split; [done|]. rewrite !length_app. simpl. split; [lia|].
    apply list_lookup_middle. rewrite !length_app. simpl. lia.
Qed.

Lemma assigned_env_ne dst V s s' x :
  assigned dst V s s' -> x <> dst -> env s' !! x = env s !! x.
Proof. intros (l & news & Hh & He & Hl & HV) Hne. by rewrite He, lookup_insert_ne. Qed.

Lemma assigned_length dst V s s' :
  assigned dst V s s' -> length (heap s) <= length (heap s').
Proof. intros (l & news & Hh & He & Hl & HV). rewrite Hh, length_app. lia. Qed.

Lemma assigned_prefix dst V s s' :
  assigned dst V s s' -> heap s `prefix_of` heap s'.
Proof. intros (l & news & Hh & He & Hl & HV). rewrite Hh. by apply prefix_app_r. Qed.

Lemma assigned_new dst V s0 s s' :
  assigned dst V s s' -> length (heap s0) <= length (heap s) ->
  newly_bound s0 s' dst.
Proof.
  intros (l & news & Hh & He & Hl & HV) Hlen. exists l.
  rewrite He, lookup_insert_eq. split; [done|lia].
Qed.

Lemma newly_bound_frame dst V s0 s s' x :
  assigned dst V s s' -> x <> dst -> newly_bound s0 s x -> newly_bound s0 s' x.
Proof.
  intros HA Hne (l & Hl & Hle). exists l.
  by rewrite (assigned_env_ne _ _ _ _ _ HA Hne).
Qed.

(** Carries what is known of the store before an assignment over to the
    store after it. *)
Ltac carry HA :=
  repeat match goal with
    | H : value_of ?x ?s = Some ?X |- _ =>
        lazymatch type of HA with
        | assigned ?dst _ s ?s' =>
            lazymatch goal with
            | _ : value_of x s' = Some _ |- _ => fail
            | _ => assert (value_of x s' = Some X)
                     by (apply (assigned_frame _ _ _ _ _ _ HA); [done|exact H])
            end
        end
    | H : newly_bound ?s0 ?s ?x |- _ =>
        lazymatch type of HA with
        | assigned ?dst _ s ?s' =>
            lazymatch goal with
            | _ : newly_bound s0 s' x |- _ => fail
            | _ => assert (newly_bound s0 s' x)
                     by (apply (newly_bound_frame _ _ _ _ _ _ HA); [done|exact H])
            end
        end
    end.

(** The cell runs to its end on a non-empty training matrix, and what
    each name holds afterwards. *)
Lemma preprocessing_cell_spec s tr te lo hi :
  value_of "train_X" s = Some tr -> value_of "test_X" s = Some te ->
  np_min tr = Some lo -> np_max tr = Some hi ->
  exists s', preprocessing_cell s = Some (tt, s') /\
    (value_of "train_X" s' = Some tr /\ value_of "test_X" s' = Some te) /\
    (value_of "train_X_base" s' = Some tr /\ value_of "test_X_base" s' = Some te) /\
    (value_of "train_X_norm" s' = Some (minmax_with lo hi tr) /\
     value_of "test_X_norm" s' = Some (minmax_with lo hi te)) /\
    (value_of "train_X_std" s' = Some (standardize tr tr) /\
     value_of "test_X_std" s' = Some (standardize te tr)) /\
    (env s' !! "train_X" = env s !! "train_X" /\
     env s' !! "test_X" = env s !! "test_X") /\
    heap s `prefix_of` heap s' /\
    Forall (newly_bound s s') outputs.
Proof.
  intros Htr Hte Hlo Hhi. unfold preprocessing_cell.
  destruct (copy_stmt_spec "train_X_base" "train_X" s tr Htr) as (s1 & E1 & A1).
  pose proof (assigned_value _ _ _ _ A1) as V1.
  pose proof (assigned_new _ _ s _ _ A1 (le_n _)) as N1.
  pose proof (assigned_length _ _ _ _ A1) as L1.
  pose proof (assigned_prefix _ _ _ _ A1) as P1.
  carry A1.
  destruct (copy_stmt_spec "test_X_base" "test_X" s1 te ltac:(done)) as (s2 & E2 & A2).
  pose proof (assigned_value _ _ _ _ A2) as V2.
  pose proof (assigned_length _ _ _ _ A2) as L2.
  pose proof (assigned_new _ _ s _ _ A2 ltac:(lia)) as N2.
  pose proof (assigned_prefix _ _ _ _ A2) as P2.
  carry A2.
  destruct (norm_stmt_spec "train_X_norm" "train_X" s2 tr tr lo hi
              ltac:(done) ltac:(done) Hlo Hhi) as (s3 & E3 & A3).
  pose proof (assigned_value _ _ _ _ A3) as V3.
  pose proof (assigned_length _ _ _ _ A3) as L3.
  pose proof (assigned_new _ _ s _ _ A3 ltac:(lia)) as N3.
  pose proof (assigned_prefix _ _ _ _ A3) as P3.
  carry A3.
  destruct (norm_stmt_spec "test_X_norm" "test_X" s3 te tr lo hi
              ltac:(done) ltac:(done) Hlo Hhi) as (s4 & E4 & A4).
  pose proof (assigned_value _ _ _ _ A4) as V4.
  pose proof (assigned_length _ _ _ _ A4) as L4.
  pose proof (assigned_new _ _ s _ _ A4 ltac:(lia)) as N4.
  pose proof (assigned_prefix _ _ _ _ A4) as P4.
  carry A4.
  destruct (copy_stmt_spec "train_X_std" "train_X" s4 tr ltac:(done)) as (s5 & E5 & A5).
  pose proof (assigned_value _ _ _ _ A5) as V5.
  pose proof (assigned_length _ _ _ _ A5) as L5.
  pose proof (assigned_prefix _ _ _ _ A5) as P5.
  carry A5.
  destruct (copy_stmt_spec "test_X_std" "test_X" s5 te ltac:(done)) as (s6 & E6 & A6).
  pose proof (assigned_value _ _ _ _ A6) as V6.
  pose proof (assigned_length _ _ _ _ A6) as L6.
  pose proof (assigned_prefix _ _ _ _ A6) as P6.
  carry A6.
  destruct (std_stmt_spec "train_X_std" "train_X_std" s6 tr tr
              ltac:(done) ltac:(done)) as (s7 & E7 & A7).
  pose proof (assigned_value _ _ _ _ A7) as V7.
  pose proof (assigned_length _ _ _ _ A7) as L7.
  pose proof (assigned_new _ _ s _ _ A7 ltac:(lia)) as N7.
  pose proof (assigned_prefix _ _ _ _ A7) as P7.
  carry A7.
  destruct (std_stmt_spec "test_X_std" "test_X_std" s7 te tr
              ltac:(done) ltac:(done)) as (s8 & E8 & A8).
  pose proof (assigned_value _ _ _ _ A8) as V8.
  pose proof (assigned_new _ _ s _ _ A8 ltac:(lia)) as N8.
  pose proof (assigned_prefix _ _ _ _ A8) as P8.
  carry A8.
  exists s8. split.
  { rewrite (bind_ok _ _ _ _ _ E1), (bind_ok _ _ _ _ _ E2), (bind_ok _ _ _ _ _ E3),
      (bind_ok _ _ _ _ _ E4), (bind_ok _ _ _ _ _ E5), (bind_ok _ _ _ _ _ E6),
      (bind_ok _ _ _ _ _ E7). exact E8. }
  do 4 (split; [by split|]).
  split.
  { rewrite !(assigned_env_ne _ _ _ _ _ A8), !(assigned_env_ne _ _ _ _ _ A7),
      !(assigned_env_ne _ _ _ _ _ A6), !(assigned_env_ne _ _ _ _ _ A5),
      !(assigned_env_ne _ _ _ _ _ A4), !(assigned_env_ne _ _ _ _ _ A3),
      !(assigned_env_ne _ _ _ _ _ A2), !(assigned_env_ne _ _ _ _ _ A1) by done.
    done. }
  split.
  { repeat (etrans; [eassumption|]). done. }
  unfold outputs. repeat constructor; assumption.
Qed.

Lemma np_min_max_defined (X : matrix) :
  concat X <> [] -> exists lo hi, np_min X = Some lo /\ np_max X = Some hi.
Proof.
  unfold np_min, np_max. destruct (concat X) as [|x xs]; [done|].
  intros _. eauto.
Qed.

(** C9: run on a store where [train_X] and [test_X] name two arrays, the
    training one not empty, the cell runs to its end; afterwards both
    names are bound to the same locations as before, every array of the
    former heap is unchanged (so the two inputs hold the values they had),
    and each of the six names the cell assigns is bound to an array
    allocated by the cell. *)
Theorem inputs_not_mutated (s : store) (tr te : matrix) :
  value_of "train_X" s = Some tr -> value_of "test_X" s = Some te ->
  concat tr <> [] ->
  exists s', preprocessing_cell s = Some (tt, s') /\
    env s' !! "train_X" = env s !! "train_X" /\
    env s' !! "test_X" = env s !! "test_X" /\
    heap s `prefix_of` heap s' /\
    value_of "train_X" s' = Some tr /\ value_of "test_X" s' = Some te /\
    Forall (newly_bound s s') outputs.
Proof.
  intros Htr Hte (lo & hi & Hlo & Hhi)%np_min_max_defined.
  destruct (preprocessing_cell_spec s tr te lo hi Htr Hte Hlo Hhi)
    as (s' & Hrun & [Ha Hb] & _ & _ & _ & [Hc Hd] & Hp & Hn).
  exists s'. repeat split; assumption.
Qed.

(** C5: two runs of the cell on the same training matrix and on any two
    test matrices transform their test matrices with the same statistics,
    those of the training matrix (its global minimum and maximum, its
    column means and standard deviations), and give the same transformed
    training matrices. *)
Theorem statistics_from_train_only (s1 s2 : store) (tr te1 te2 : matrix) :
  value_of "train_X" s1 = Some tr -> value_of "test_X" s1 = Some te1 ->
  value_of "train_X" s2 = Some tr -> value_of "test_X" s2 = Some te2 ->
  concat tr <> [] ->
  exists lo hi s1' s2',
    np_min tr = Some lo /\ np_max tr = Some hi /\
    preprocessing_cell s1 = Some (tt, s1') /\
    preprocessing_cell s2 = Some (tt, s2') /\
    value_of "test_X_norm" s1' = Some (minmax_with lo hi te1) /\
    value_of "test_X_norm" s2' = Some (minmax_with lo hi te2) /\
    value_of "test_X_std" s1' =
      Some (standardize_with (np_mean0 tr) (np_std0 tr) te1) /\
    value_of "test_X_std" s2' =
      Some (standardize_with (np_mean0 tr) (np_std0 tr) te2) /\
    value_of "train_X_norm" s1' = Some (minmax_with lo hi tr) /\
    value_of "train_X_norm" s2' = Some (minmax_with lo hi tr) /\
    value_of "train_X_std" s1' =
      Some (standardize_with (np_mean0 tr) (np_std0 tr) tr) /\
    value_of "train_X_std" s2' =
      Some (standardize_with (np_mean0 tr) (np_std0 tr) tr).
Proof.
  intros Htr1 Hte1 Htr2 Hte2 (lo & hi & Hlo & Hhi)%np_min_max_defined.
  destruct (preprocessing_cell_spec s1 tr te1 lo hi Htr1 Hte1 Hlo Hhi)
    as (s1' & Hrun1 & _ & _ & [Hn1 Hm1] & [Hs1 Ht1] & _).
  destruct (preprocessing_cell_spec s2 tr te2 lo hi Htr2 Hte2 Hlo Hhi)
    as (s2' & Hrun2 & _ & _ & [Hn2 Hm2] & [Hs2 Ht2] & _).
  exists lo, hi, s1', s2'. repeat split; assumption.
Qed.
End CellProofs.

(** ** Min-max scaling stays in the unit interval *)
Section OrderProofs.
Context {FL : Float64} {CL : ClassifyLaws FL} {OL : OrderLaws FL}.

Lemma le_not_nan_r (x y : F) : fle x y = true -> f_isnan y = false.
Proof.
  intros Hle. destruct (f_isnan y) eqn:Hy; [|done].
  by rewrite (le_nan_r x y Hy) in Hle.
Qed.

Lemma fold_min_stuck (xs : list F) (x : F) :
  f_isnan x = true -> fold_left minimum_step xs x = x.
Proof.
  intros Hx. induction xs as [|y xs IH]; [done|]. simpl.
  unfold minimum_step at 2. rewrite Hx, orb_true_r. exact IH.
Qed.

Lemma fold_max_stuck (xs : list F) (x : F) :
  f_isnan x = true -> fold_left maximum_step xs x = x.
Proof.
  intros Hx. induction xs as [|y xs IH]; [done|]. simpl.
  unfold maximum_step at 2. rewrite Hx, orb_true_r. exact IH.
Qed.

(** A NaN anywhere makes the minimum a NaN. *)
Lemma fold_min_nan (xs : list F) (x : F) :
  Exists (fun y => f_isnan y = true) (x :: xs) ->
  f_isnan (fold_left minimum_step xs x) = true.
Proof.
  revert x. induction xs as [|y xs IH]; intros x Hex.
  - simpl. by inversion Hex as [? ? H|? ? H]; [|inversion H].
  - destruct (f_isnan x) eqn:Hx.
    { by rewrite fold_min_stuck. }
    simpl. apply IH. unfold minimum_step. rewrite Hx, orb_false_r.
    inversion Hex as [? ? H|? ? H]; subst; [congruence|].
    inversion H as [? ? Hy|? ? Hxs]; subst.
    + rewrite (le_nan_r x y Hy). by left.
    + right. exact Hxs.
Qed.

(** Without NaN, the minimum is below every entry. *)
Lemma fold_min_le (xs : list F) (x : F) :
  Forall (fun y => f_isnan y = false) (x :: xs) ->
  Forall (fun y => fle (fold_left minimum_step xs x) y = true) (x :: xs).
Proof.
  revert x. induction xs as [|y xs IH]; intros x Hall.
  - simpl. constructor; [|done]. apply le_refl. by inversion Hall.
  - inversion Hall as [|? ? Hx Hrest]; subst.
    inversion Hrest as [|? ? Hy Hxs]; subst.
    simpl.
    assert (minimum_step x y = if fle x y then x else y) as ->.
    { unfold minimum_step. by rewrite Hx, orb_false_r. }
    destruct (fle x y) eqn:Hxy.
    + specialize (IH x ltac:(by constructor)).
      inversion IH as [|? ? Hmx Hmxs]; subst.
      constructor; [done|]. constructor; [|done].
      by apply le_trans with x.
    + specialize (IH y ltac:(by constructor)).
      inversion IH as [|? ? Hmy Hmxs]; subst.
      constructor; [|by constructor].
      apply le_trans with y; [done|]. by apply le_total.
Qed.

(** Without NaN, the maximum is above every entry. *)
Lemma fold_max_ge (xs : list F) (x : F) :
  Forall (fun y => f_isnan y = false) (x :: xs) ->
  Forall (fun y => fle y (fold_left maximum_step xs x) = true) (x :: xs).
Proof.
  revert x. induction xs as [|y xs IH]; intros x Hall.
  - simpl. constructor; [|done]. apply le_refl. by inversion Hall.
  - inversion Hall as [|? ? Hx Hrest]; subst.
    inversion Hrest as [|? ? Hy Hxs]; subst.
    simpl.
    assert (maximum_step x y = if fle y x then x else y) as ->.
    { unfold maximum_step. by rewrite Hx, orb_false_r. }
    destruct (fle y x) eqn:Hyx.
    + specialize (IH x ltac:(by constructor)).
      inversion IH as [|? ? Hmx Hmxs]; subst.
      constructor; [done|]. constructor; [|done].
      by apply le_trans with x.
    + specialize (IH y ltac:(by constructor)).
      inversion IH as [|? ? Hmy Hmxs]; subst.
      constructor; [|by constructor].
      apply le_trans with y; [|done]. by apply le_total.
Qed.

Lemma in_unit_zero : in_unit f_zero.
Proof.
  split; [|apply zero_le_one]. apply le_refl.
  by destruct (isfinite_inv _ zero_finite) as (-> & _).
Qed.

(** One entry: scaled with bounds that enclose it, it lands in [0, 1]. *)
Lemma scaled_in_unit (x lo hi : F) :
  fle lo x = true -> fle x hi = true ->
  in_unit (nan_to_num1 ((x ⊖ lo) ⊘ (hi ⊖ lo))).
Proof.
  intros Hlo Hhi.
  assert (forall q, f_isnan q = true -> in_unit (nan_to_num1 q)) as Hnan.
  { intros q Hq. rewrite nan_to_num1_nan by done. apply in_unit_zero. }
  destruct (sub_nonneg x lo Hlo) as [Ha|Ha].
  { apply Hnan. by apply div_nan_l. }
  destruct (sub_mono x hi lo Hhi) as [Hab|[Hab|Hab]].
  { apply Hnan. by apply div_nan_l. }
  { apply Hnan. by apply div_nan_r. }
  destruct (div_unit _ _ Ha Hab) as [Hq|[Hq0 Hq1]].
  { by apply Hnan. }
  rewrite nan_to_num1_finite; [by split|].
  apply isfinite_intro.
  - by apply le_not_nan_r with f_zero.
  - destruct (f_isposinf _) eqn:Hp; [|done].
    by rewrite (posinf_above _ Hp) in Hq1.
  - destruct (f_isneginf _) eqn:Hm; [|done].
    by rewrite (neginf_below _ Hm) in Hq0.
Qed.

(** Min-max scaling of a matrix with its own minimum and maximum gives
    entries of [0, 1], in any arithmetic with the order laws. *)
Lemma own_range_in_unit (X M : matrix) :
  train_X_norm X = Some M -> Forall (Forall in_unit) M.
Proof.
  unfold train_X_norm, minmax, np_min, np_max.
  destruct (concat X) as [|x0 xs] eqn:Hcat; [done|]. simpl.
  intros [= <-]. unfold minmax_with, nan_to_num, div_scalar, sub_scalar.
  rewrite !map_map. apply Forall_map, Forall_forall. intros r Hr.
  rewrite !map_map. apply Forall_map, Forall_forall. intros x Hx.
  assert (x ∈ x0 :: xs) as Hin.
  { rewrite <- Hcat. apply list_elem_of_In, in_concat.
    exists r. split; by apply list_elem_of_In. }
  destruct (decide (Forall (fun y => f_isnan y = false) (x0 :: xs))) as [Hall|Hex].
  - pose proof (fold_min_le xs x0 Hall) as Hmin.
    pose proof (fold_max_ge xs x0 Hall) as Hmax.
    rewrite Forall_forall in Hmin, Hmax.
    apply scaled_in_unit; [by apply Hmin|by apply Hmax].
  - apply not_Forall_Exists in Hex; [|intros y; apply _].
    assert (Exists (fun y => f_isnan y = true) (x0 :: xs)) as Hex'.
    { eapply Exists_impl; [exact Hex|]. simpl. intros y Hy.
      by destruct (f_isnan y). }
    rewrite nan_to_num1_nan; [apply in_unit_zero|].
    apply div_nan_l, sub_nan_r. by apply fold_min_nan.
Qed.
End OrderProofs.

(** ** Re-applying a transform *)
Section IdentityProofs.
Context {FL : Float64} {CL : ClassifyLaws FL} {IL : IdentityLaws FL}.

Lemma map_id_ext {A} (f : A -> A) (l : list A) :
  (forall x, f x = x) -> map f l = l.
Proof. intros Hf. induction l as [|x l IH]; simpl; congruence. Qed.

Lemma minmax_with_identity (X : matrix) :
  minmax_with f_zero f_one X = nan_to_num X.
Proof.
  unfold minmax_with. f_equal. unfold div_scalar, sub_scalar.
  rewrite map_map. apply map_id_ext. intros r.
  rewrite map_map. apply map_id_ext. intros x.
  by rewrite !sub_zero, div_one.
Qed.

Lemma standardize_with_identity (m : nat) (X : matrix) :
  has_cols m X ->
  standardize_with (replicate m f_zero) (replicate m f_one) X = nan_to_num X.
Proof.
  intros Hcols. unfold standardize_with. f_equal.
  unfold div_rows, sub_rows. rewrite map_map.
  induction Hcols as [|r X Hr _ IH]; simpl; [done|]. f_equal; [|exact IH].
  unfold row_div, row_sub.
  rewrite (zip_with_replicate_r_eq fsub m f_zero r) by done.
  rewrite (zip_with_replicate_r_eq fdiv m f_one) by (by rewrite length_fmap).
  change (map (fun x => x ⊘ f_one) (map (fun x => x ⊖ f_zero) r) = r).
  rewrite map_map. apply map_id_ext. intros x. by rewrite sub_zero, div_one.
Qed.

Lemma nan_to_num_cols (m : nat) (X : matrix) :
  has_cols m X -> has_cols m (nan_to_num X).
Proof.
  unfold has_cols, nan_to_num. intros H. apply Forall_map.
  eapply Forall_impl; [exact H|]. simpl. intros r Hr. by rewrite length_map.
Qed.

(** With minimum 0 and maximum 1, resp. column means 0 and standard
    deviations 1, a transform applied twice gives what it gives applied
    once, in any arithmetic with the identity laws. *)
Lemma identity_statistics_idempotent (m : nat) (X : matrix) :
  has_cols m X ->
  minmax_with f_zero f_one (minmax_with f_zero f_one X)
    = minmax_with f_zero f_one X /\
  standardize_with (replicate m f_zero) (replicate m f_one)
      (standardize_with (replicate m f_zero) (replicate m f_one) X)
    = standardize_with (replicate m f_zero) (replicate m f_one) X.
Proof.
  intros Hcols. split.
  - by rewrite !minmax_with_identity, nan_to_num_idemp.
  - rewrite (standardize_with_identity m X Hcols).
    rewrite (standardize_with_identity m _ (nan_to_num_cols m X Hcols)).
    apply nan_to_num_idemp.
Qed.
End IdentityProofs.

(** ** The column sums *)
Section ColumnSum.
Context {FL : Float64}.

Lemma lookup_map {A B} (f : A -> B) (l : list A) (i : nat) :
  map f l !! i = f <$> (l !! i).
Proof. revert i. induction l as [|x l IH]; intros [|i]; simpl; auto. Qed.

Lemma pairwise_sum_eq (depth : nat) (a : vector) :
  pairwise_sum depth a =
    if length a <? 8 then fold_left fadd a f_zero
    else match depth with
         | S depth =>
             if 128 <? length a
             then pairwise_sum depth (take (length a / 2 - (length a / 2) mod 8) a)
                  ⊕ pairwise_sum depth (drop (length a / 2 - (length a / 2) mod 8) a)
             else unrolled_sum a
         | 0 => unrolled_sum a
         end.
Proof. unfold pairwise_sum. by destruct depth. Qed.

(** The cut of a run of more than 128 elements leaves two shorter runs. *)
Lemma cut_bounds (n : nat) :
  128 < n -> 0 < n / 2 - (n / 2) mod 8 < n.
Proof.
  intros Hn. pose proof (Nat.div_mod_eq n 2). pose proof (Nat.mod_upper_bound n 2).
  pose proof (Nat.mod_upper_bound (n / 2) 8). lia.
Qed.

Lemma pairwise_sum_depths (d1 d2 : nat) (a : vector) :
  length a <= d1 -> length a <= d2 -> pairwise_sum d1 a = pairwise_sum d2 a.
Proof.
  revert d2 a. induction d1 as [|d1 IH]; intros d2 a H1 H2.
  - rewrite (pairwise_sum_eq 0 a), (pairwise_sum_eq d2 a).
    destruct (Nat.ltb_spec (length a) 8); [done|lia].
  - destruct d2 as [|d2].
    { rewrite (pairwise_sum_eq (S d1) a), (pairwise_sum_eq 0 a).
      destruct (Nat.ltb_spec (length a) 8); [done|lia]. }
    rewrite (pairwise_sum_eq (S d1) a), (pairwise_sum_eq (S d2) a).
    destruct (Nat.ltb_spec (length a) 8); [done|].
    destruct (Nat.ltb_spec 128 (length a)) as [Hn|]; [|done].
    pose proof (cut_bounds _ Hn).
    f_equal; apply IH; rewrite ?length_take, ?length_drop; lia.
Qed.

(** The pairwise sum does not depend on [depth] from [length a] on: the
    last case of [pairwise_sum] is met by runs of at most 128 elements
    only. *)
Lemma pairwise_sum_depth (depth : nat) (a : vector) :
  length a <= depth -> pairwise_sum depth a = pairwise_sum (length a) a.
Proof. intros. by apply pairwise_sum_depths. Qed.

Lemma one_column_cols (X : matrix) : one_column X = true <-> has_cols 1 X.
Proof.
  unfold one_column, has_cols. rewrite forallb_forall, Forall_forall.
  split; intros H r Hr.
  - apply Nat.eqb_eq, H. by apply list_elem_of_In.
  - apply Nat.eqb_eq, H. by apply list_elem_of_In.
Qed.

(** In an array of one column, the only column is column 0, and the
    flattened array is that column. *)
Lemma one_column_lookup (r : vector) (rs : matrix) (j : nat) (y : F) :
  one_column (r :: rs) = true -> r !! j = Some y -> j = 0.
Proof.
  intros [Hr _]%andb_prop Hy. apply Nat.eqb_eq in Hr. apply lookup_lt_Some in Hy. lia.
Qed.

Lemma one_column_concat_Forall (P : F -> Prop) (X : matrix) :
  one_column X = true -> Forall (fun r => exists y, r !! 0 = Some y /\ P y) X ->
  Forall P (concat X).
Proof.
  intros Hone HX. induction HX as [|r X (y & Hy & HP) _ IH]; simpl; [constructor|].
  apply andb_prop in Hone as [Hr Hone]. apply Nat.eqb_eq in Hr.
  destruct r as [|y' [|? ?]]; try done. injection Hy as ->.
  constructor; [done|by apply IH].
Qed.

Lemma one_column_concat_Exists (P : F -> Prop) (X : matrix) :
  Exists (fun r => exists y, r !! 0 = Some y /\ P y) X -> Exists P (concat X).
Proof.
  induction 1 as [r X (y & Hy & HP)|r X _ IH]; simpl; apply Exists_app; [left|by right].
  destruct r as [|y' r]; [done|]. injection Hy as ->. by apply Exists_cons_hd.
Qed.

Lemma one_column_length (X : matrix) :
  one_column X = true -> length (concat X) = length X.
Proof.
  induction X as [|r X IH]; [done|]. intros [Hr Hone]%andb_prop.
  apply Nat.eqb_eq in Hr. simpl. rewrite length_app, IH by done. lia.
Qed.

(** The column sums have an entry for every column all rows have. *)
Lemma fold_row_add_lookup (rs : matrix) (r : vector) (j : nat) :
  is_Some (r !! j) -> Forall (fun r' => is_Some (r' !! j)) rs ->
  is_Some (fold_left row_add rs r !! j).
Proof.
  intros Hr Hrs. revert r Hr.
  induction Hrs as [|r' rs [y Hy] _ IH]; intros r [b Hb]; simpl; [by eexists|].
  apply IH. unfold row_add. rewrite lookup_zip_with, Hb, Hy. by eexists.
Qed.

Lemma sum_axis0_lookup (X : matrix) (j : nat) :
  X <> [] -> Forall (fun r => is_Some (r !! j)) X -> is_Some (sum_axis0 X !! j).
Proof.
  intros Hne HX. unfold sum_axis0. destruct X as [|r rs]; [done|].
  pose proof (Forall_inv HX) as [y Hy].
  destruct (one_column (r :: rs)) eqn:Hone.
  - rewrite (one_column_lookup _ _ _ _ Hone Hy). by eexists.
  - apply fold_row_add_lookup; [|done].
    apply lookup_lt_is_Some. rewrite length_replicate. by apply lookup_lt_Some in Hy.
Qed.
End ColumnSum.

(** ** Standardizing a constant column *)
Section ZeroProofs.
Context {FL : Float64} {CL : ClassifyLaws FL} {ZL : ZeroLaws FL}.

Lemma fold_row_add_zero (rs : matrix) (r : vector) (j : nat) :
  r !! j = Some f_zero -> Forall (fun r' => r' !! j = Some f_zero) rs ->
  fold_left row_add rs r !! j = Some f_zero.
Proof.
  intros Hr Hrs. revert r Hr.
  induction Hrs as [|r' rs Hr' _ IH]; intros r Hr; simpl; [done|].
  apply IH. unfold row_add. rewrite lookup_zip_with, Hr, Hr'. simpl.
  by rewrite add_zero_zero.
Qed.

(** A run of zeros sums to zero, in each regime of the pairwise sum. *)
Lemma fold_add_zeros (a : vector) :
  Forall (fun x => x = f_zero) a -> fold_left fadd a f_zero = f_zero.
Proof. induction 1 as [|x a -> _ IH]; simpl; [done|]. by rewrite add_zero_zero. Qed.

Lemma zip_add_zeros (r a : vector) :
  Forall (fun x => x = f_zero) r -> Forall (fun x => x = f_zero) a ->
  Forall (fun x => x = f_zero) (zip_with fadd r a).
Proof.
  intros Hr. revert a. induction Hr as [|x r -> _ IH]; intros a Ha; simpl; [constructor|].
  destruct Ha as [|y a -> Ha]; constructor; [apply add_zero_zero|by apply IH].
Qed.

Lemma accumulate8_zeros (blocks : nat) (r a : vector) :
  Forall (fun x => x = f_zero) r -> Forall (fun x => x = f_zero) a ->
  Forall (fun x => x = f_zero) (fst (accumulate8 blocks r a)) /\
  Forall (fun x => x = f_zero) (snd (accumulate8 blocks r a)).
Proof.
  revert r a. induction blocks as [|blocks IH]; intros r a Hr Ha; simpl; [done|].
  apply IH; [apply zip_add_zeros; [done|by apply Forall_take]|by apply Forall_drop].
Qed.

Lemma combine8_zeros (r : vector) :
  Forall (fun x => x = f_zero) r -> combine8 r = f_zero.
Proof.
  intros Hr.
  destruct r as [|r0 [|r1 [|r2 [|r3 [|r4 [|r5 [|r6 [|r7 [|r8 r]]]]]]]]]; try done.
  repeat match goal with
         | H : Forall _ (_ :: _) |- _ => apply Forall_cons in H as [-> H]
         end.
  simpl. by rewrite !add_zero_zero.
Qed.

Lemma unrolled_sum_zeros (a : vector) :
  Forall (fun x => x = f_zero) a -> unrolled_sum a = f_zero.
Proof.
  intros Ha. unfold unrolled_sum.
  destruct (accumulate8_zeros (length a / 8 - 1) (take 8 a) (drop 8 a)) as [Hr Hrest];
    [by apply Forall_take|by apply Forall_drop|].
  destruct (accumulate8 _ _ _) as [r rest]. simpl in *.
  rewrite (combine8_zeros r Hr). by apply fold_add_zeros.
Qed.

Lemma pairwise_sum_zeros (depth : nat) (a : vector) :
  Forall (fun x => x = f_zero) a -> pairwise_sum depth a = f_zero.
Proof.
  revert a. induction depth as [|depth IH]; intros a Ha; rewrite pairwise_sum_eq.
  - destruct (length a <? 8); [by apply fold_add_zeros|by apply unrolled_sum_zeros].
  - destruct (length a <? 8); [by apply fold_add_zeros|].
    destruct (128 <? length a); [|by apply unrolled_sum_zeros].
    rewrite !IH; [apply add_zero_zero|by apply Forall_drop|by apply Forall_take].
Qed.

Lemma sum_axis0_zero_column (X : matrix) (j : nat) :
  X <> [] -> Forall (fun r => r !! j = Some f_zero) X ->
  sum_axis0 X !! j = Some f_zero.
Proof.
  intros Hne HX. unfold sum_axis0. destruct X as [|r rs]; [done|].
  destruct (one_column (r :: rs)) eqn:Hone.
  - pose proof (one_column_lookup _ _ _ _ Hone (Forall_inv HX)) as ->. simpl. f_equal.
    rewrite pairwise_sum_zeros; [apply add_zero_zero|].
    apply (one_column_concat_Forall _ _ Hone).
    eapply Forall_impl; [exact HX|]. simpl. eauto.
  - apply fold_row_add_zero; [|done].
    apply lookup_replicate_2. apply Forall_inv in HX. by apply lookup_lt_Some in HX.
Qed.

Section Column.
Variables (train : matrix) (j : nat) (c m : F).
Hypothesis Hne : train <> [].
Hypothesis Hlen : (Z.of_nat (length train) < 2 ^ 63)%Z.
Hypothesis Hconst : constant_column j c train.
Hypothesis Hfin : f_isfinite c = true.
Hypothesis Hmean : np_mean0 train !! j = Some m.
Hypothesis Heq : feq c m = true.

Lemma deviation_zero : feq (c ⊖ m) f_zero = true.
Proof using Hfin Heq ZL. by apply sub_eq. Qed.

Lemma squares_zero_column :
  Forall (fun r => r !! j = Some f_zero) (square (sub_rows train (np_mean0 train))).
Proof using Hconst Hfin Hmean Heq ZL.
  unfold square, sub_rows. rewrite map_map. apply Forall_map.
  eapply Forall_impl; [exact Hconst|]. simpl. intros r Hr.
  rewrite lookup_map. unfold row_sub. rewrite lookup_zip_with, Hr, Hmean.
  simpl. f_equal. apply sq_zero, deviation_zero.
Qed.

Lemma std_zero : np_std0 train !! j = Some f_zero.
Proof using Hne Hlen Hconst Hfin Hmean Heq ZL.
  unfold np_std0, np_var0. rewrite !lookup_map.
  rewrite sum_axis0_zero_column.
  - simpl. f_equal. rewrite zero_div_count; [apply sqrt_zero| |done].
    destruct train; [done|simpl; lia].
  - unfold square, sub_rows. by destruct train.
  - apply squares_zero_column.
Qed.

(** The entry of column [j] that [standardize] makes of an entry [x]. *)
Lemma standardize_entry (X : matrix) (i : nat) (r : vector) (x : F) :
  X !! i = Some r -> r !! j = Some x ->
  exists r', standardize X train !! i = Some r' /\
             r' !! j = Some (nan_to_num1 ((x ⊖ m) ⊘ f_zero)).
Proof using Hne Hlen Hconst Hfin Hmean Heq ZL.
  intros Hi Hx. unfold standardize, standardize_with, nan_to_num, div_rows, sub_rows.
  rewrite !map_map, lookup_map, Hi. simpl. eexists. split; [done|].
  rewrite lookup_map. unfold row_div, row_sub.
  rewrite !lookup_zip_with, Hx, Hmean, std_zero. done.
Qed.

Lemma equal_to_zero (x : F) :
  f_isfinite x = true -> feq x m = true ->
  nan_to_num1 ((x ⊖ m) ⊘ f_zero) = f_zero.
Proof using ZL CL.
  intros Hx Hxm. apply nan_to_num1_nan, zero_div_zero. by apply sub_eq.
Qed.

Lemma above_to_max (x : F) :
  f_isnan x = false -> fle x m = false ->
  nan_to_num1 ((x ⊖ m) ⊘ f_zero) = f_max.
Proof using Heq ZL CL.
  intros Hx Hxm. destruct (eq_not_nan _ _ Heq) as [_ Hm].
  destruct (sub_pos x m Hx Hm Hxm) as [Hn Hp].
  destruct (pos_div_zero _ Hn Hp) as [Hqn Hqp].
  by apply nan_to_num1_posinf.
Qed.

Lemma below_to_min (x : F) :
  f_isnan x = false -> fle m x = false ->
  nan_to_num1 ((x ⊖ m) ⊘ f_zero) = f_min.
Proof using Heq ZL CL.
  intros Hx Hxm. destruct (eq_not_nan _ _ Heq) as [_ Hm].
  destruct (sub_neg x m Hx Hm Hxm) as [Hn Hp].
  destruct (neg_div_zero _ Hn Hp) as (Hqn & Hqp & Hqm).
  by apply nan_to_num1_neginf.
Qed.
End Column.

(** A constant column whose computed mean is the constant, standardized:
    zeros in the training matrix; in the test matrix zero, the largest or
    the most negative finite double, as the test value compares with the
    mean.  In any arithmetic with the zero laws. *)
Lemma constant_column_outputs
    (train test : matrix) (j : nat) (c m : F) :
  train <> [] -> (Z.of_nat (length train) < 2 ^ 63)%Z ->
  constant_column j c train -> f_isfinite c = true ->
  np_mean0 train !! j = Some m -> feq c m = true ->
  Forall (fun r => r !! j = Some f_zero) (train_X_std train) /\
  forall i r t, test !! i = Some r -> r !! j = Some t ->
    exists r' out, test_X_std train test !! i = Some r' /\ r' !! j = Some out /\
      (f_isfinite t = true -> feq t m = true -> out = f_zero) /\
      (f_isnan t = false -> fle t m = false -> out = f_max) /\
      (f_isnan t = false -> fle m t = false -> out = f_min).
Proof.
  intros Hne Hlen Hconst Hfin Hmean Heq. split.
  - apply Forall_lookup_2. intros i r' Hi.
    unfold train_X_std, np_copy in Hi.
    assert (exists r, train !! i = Some r) as [r Hr].
    { apply lookup_lt_is_Some. apply lookup_lt_Some in Hi.
      unfold standardize, standardize_with, nan_to_num, div_rows, sub_rows in Hi.
      by rewrite !length_map in Hi. }
    pose proof (Forall_lookup_1 _ _ _ _ Hconst Hr) as Hc. simpl in Hc.
    destruct (standardize_entry train j c m Hne Hlen Hconst Hfin Hmean Heq
                train i r c Hr Hc) as (r'' & Hi' & Hj).
    rewrite Hi in Hi'. injection Hi' as <-. rewrite Hj. f_equal.
    by apply equal_to_zero.
  - intros i r t Hi Ht.
    destruct (standardize_entry train j c m Hne Hlen Hconst Hfin Hmean Heq
                test i r t Hi Ht) as (r' & Hi' & Hj).
    exists r', (nan_to_num1 ((t ⊖ m) ⊘ f_zero)).
    split; [exact Hi'|]. split; [exact Hj|]. split; [|split].
    + by apply equal_to_zero.
    + by apply (above_to_max c).
    + by apply (below_to_min c).
Qed.
End ZeroProofs.

(** The constants of the hardware doubles are finite. *)
#[export] Instance binary64_classify : ClassifyLaws binary64.
Proof. split; reflexivity. Qed.

(** ** The hardware doubles satisfy the laws *)
Module Binary64Facts.
Import Binary64.
Local Open Scope Z_scope.

Ltac zdiv := Z.to_euclidean_division_equations; lia.

(** *** Bits of a mantissa *)

Lemma digits2_pos_bounds (p : positive) :
  2 ^ (Zpos (digits2_pos p) - 1) <= Zpos p < 2 ^ Zpos (digits2_pos p).
Proof.
  induction p as [p IH|p IH|]; simpl digits2_pos.
  - rewrite Pos2Z.inj_succ.
    replace (Z.succ (Zpos (digits2_pos p)) - 1) with (Zpos (digits2_pos p) - 1 + 1) by lia.
    rewrite Z.pow_succ_r by lia.
    assert (0 <= Zpos (digits2_pos p) - 1) by lia.
    rewrite Z.pow_add_r by lia. lia.
  - rewrite Pos2Z.inj_succ.
    replace (Z.succ (Zpos (digits2_pos p)) - 1) with (Zpos (digits2_pos p) - 1 + 1) by lia.
    rewrite Z.pow_succ_r by lia.
    assert (0 <= Zpos (digits2_pos p) - 1) by lia.
    rewrite Z.pow_add_r by lia. lia.
  - simpl. lia.
Qed.

(** The number of bits is determined by the enclosing powers of two. *)
Lemma digits2_pos_unique (p : positive) (d : Z) :
  2 ^ (d - 1) <= Zpos p < 2 ^ d -> 0 < d -> Zpos (digits2_pos p) = d.
Proof.
  intros [Hlo Hhi] Hd. pose proof (digits2_pos_bounds p) as [Hlo' Hhi'].
  destruct (Z.lt_trichotomy (Zpos (digits2_pos p)) d) as [Hlt|[Heq|Hgt]]; [|done|].
  - exfalso. assert (2 ^ Zpos (digits2_pos p) <= 2 ^ (d - 1)) by (apply Z.pow_le_mono_r; lia). lia.
  - exfalso. assert (2 ^ d <= 2 ^ (Zpos (digits2_pos p) - 1)) by (apply Z.pow_le_mono_r; lia). lia.
Qed.

(** *** Rounding an integer to 53 significant bits *)

Lemma Zdigits2_bounds (N : Z) :
  0 < N -> 2 ^ (Zdigits2 N - 1) <= N < 2 ^ Zdigits2 N.
Proof. destruct N as [|p|p]; try lia. intros _. apply digits2_pos_bounds. Qed.

Lemma Zdigits2_pos (N : Z) : 0 < N -> 0 < Zdigits2 N.
Proof. destruct N; simpl; lia. Qed.

Lemma Zdigits2_unique (N d : Z) :
  2 ^ (d - 1) <= N < 2 ^ d -> 0 < d -> Zdigits2 N = d.
Proof.
  intros H Hd. assert (0 < N) by (pose proof (Z.pow_pos_nonneg 2 (d - 1)); lia).
  destruct N as [|p|p]; try lia. by apply digits2_pos_unique.
Qed.

Lemma Zdigits2_le (N1 N2 : Z) : 0 < N1 -> N1 <= N2 -> Zdigits2 N1 <= Zdigits2 N2.
Proof.
  intros H1 H12.
  pose proof (Zdigits2_bounds N1 H1) as [Hl1 Hh1].
  pose proof (Zdigits2_bounds N2 ltac:(lia)) as [Hl2 Hh2].
  pose proof (Zdigits2_pos N1 H1). pose proof (Zdigits2_pos N2 ltac:(lia)).
  destruct (Z.le_gt_cases (Zdigits2 N1) (Zdigits2 N2)) as [|Hgt]; [done|].
  assert (2 ^ Zdigits2 N2 <= 2 ^ (Zdigits2 N1 - 1)) by (apply Z.pow_le_mono_r; lia).
  lia.
Qed.

(** The quotient and remainder of a number of [53 + n] bits by [2^n]. *)
Lemma split_bits (N n : Z) :
  0 < N -> Zdigits2 N = 53 + n -> 0 < n ->
  let P := 2 ^ n in
  0 < P /\ N = P * (N / P) + N mod P /\ 0 <= N mod P < P /\
  2 ^ 52 <= N / P < 2 ^ 53 /\ 2 ^ (Zdigits2 N) = 2 ^ 53 * P /\
  2 ^ (Zdigits2 N - 1) = 2 ^ 52 * P /\ P = 2 * 2 ^ (n - 1) /\ 0 < 2 ^ (n - 1).
Proof.
  intros HN Hd Hn P.
  assert (0 < P) as HP by (apply Z.pow_pos_nonneg; lia).
  pose proof (Zdigits2_bounds N HN) as [Hlo Hhi].
  assert (2 ^ Zdigits2 N = 2 ^ 53 * P) as E1 by (rewrite Hd, Z.pow_add_r by lia; done).
  assert (2 ^ (Zdigits2 N - 1) = 2 ^ 52 * P) as E2.
  { replace (Zdigits2 N - 1) with (52 + n) by lia. by rewrite Z.pow_add_r by lia. }
  assert (P = 2 * 2 ^ (n - 1)) as E3.
  { unfold P. replace n with (1 + (n - 1)) at 1 by lia. by rewrite Z.pow_add_r by lia. }
  assert (0 < 2 ^ (n - 1)) by (apply Z.pow_pos_nonneg; lia).
  split; [done|]. split; [apply Z.div_mod; lia|].
  split; [apply Z.mod_pos_bound; lia|].
  split; [|done].
  split.
  - apply Z.div_le_lower_bound; lia.
  - apply Z.div_lt_upper_bound; lia.
Qed.

Lemma rne_bounds (N n : Z) :
  N / 2 ^ n <= rne N n <= N / 2 ^ n + 1.
Proof. unfold rne. destruct (_ || _); lia. Qed.

Lemma RN_bounds (N : Z) :
  0 < N -> 2 ^ (Zdigits2 N - 1) <= RN N <= 2 ^ Zdigits2 N.
Proof.
  intros HN. unfold RN. destruct (Z.leb_spec (Zdigits2 N - 53) 0) as [Hn|Hn].
  - pose proof (Zdigits2_bounds N HN). lia.
  - destruct (split_bits N (Zdigits2 N - 53) HN ltac:(lia) Hn)
      as (HP & Hdm & Hr & Hq & E1 & E2 & _).
    pose proof (rne_bounds N (Zdigits2 N - 53)). nia.
Qed.

Lemma RN_pos (N : Z) : 0 < N -> 0 < RN N.
Proof.
  intros HN. pose proof (RN_bounds N HN).
  assert (0 < 2 ^ (Zdigits2 N - 1)); [|lia].
  apply Z.pow_pos_nonneg; [lia|]. pose proof (Zdigits2_pos N HN). lia.
Qed.

(** Rounding is monotone. *)
Lemma RN_mono (N1 N2 : Z) : 0 < N1 -> N1 <= N2 -> RN N1 <= RN N2.
Proof.
  intros H1 H12. assert (0 < N2) as H2 by lia.
  pose proof (Zdigits2_le N1 N2 H1 H12) as Hd.
  pose proof (Zdigits2_pos N1 H1) as Hd1.
  destruct (Z.eq_dec (Zdigits2 N1) (Zdigits2 N2)) as [Heq|Hne].
  - unfold RN. rewrite <- Heq.
    destruct (Z.leb_spec (Zdigits2 N1 - 53) 0) as [Hn|Hn]; [done|].
    set (n := Zdigits2 N1 - 53) in *.
    destruct (split_bits N1 n H1 ltac:(lia) Hn) as (HP & Hdm1 & Hr1 & Hq1 & _ & _ & E3 & Hh).
    destruct (split_bits N2 n H2 ltac:(lia) Hn) as (_ & Hdm2 & Hr2 & Hq2 & _ & _ & _ & _).
    apply Z.mul_le_mono_nonneg_r; [lia|].
    assert (N1 / 2 ^ n <= N2 / 2 ^ n) as Hq by (apply Z.div_le_mono; lia).
    destruct (Z.eq_dec (N1 / 2 ^ n) (N2 / 2 ^ n)) as [Hqe|Hqne].
    + unfold rne. rewrite <- Hqe.
      assert (N1 mod 2 ^ n <= N2 mod 2 ^ n) as Hr by lia.
      destruct (Z.ltb_spec (2 ^ (n - 1)) (N1 mod 2 ^ n));
        destruct (Z.ltb_spec (2 ^ (n - 1)) (N2 mod 2 ^ n));
        destruct (Z.eqb_spec (N1 mod 2 ^ n) (2 ^ (n - 1)));
        destruct (Z.eqb_spec (N2 mod 2 ^ n) (2 ^ (n - 1)));
        destruct (Z.odd (N1 / 2 ^ n)); simpl; lia.
    + pose proof (rne_bounds N1 n). pose proof (rne_bounds N2 n). lia.
  - pose proof (RN_bounds N1 H1) as [_ Hu]. pose proof (RN_bounds N2 H2) as [Hl _].
    assert (2 ^ Zdigits2 N1 <= 2 ^ (Zdigits2 N2 - 1)) by (apply Z.pow_le_mono_r; lia).
    lia.
Qed.

Lemma RNZ_mono (z1 z2 : Z) : z1 <= z2 -> RNZ z1 <= RNZ z2.
Proof.
  intros H. destruct z1 as [|p1|p1], z2 as [|p2|p2]; simpl; try lia.
  - pose proof (RN_pos (Zpos p2)). lia.
  - apply RN_mono; lia.
  - pose proof (RN_pos (Zpos p1)). lia.
  - pose proof (RN_pos (Zpos p1)). pose proof (RN_pos (Zpos p2)). lia.
  - assert (RN (Zpos p2) <= RN (Zpos p1)); [apply RN_mono; lia|lia].
Qed.

Lemma RNZ_sign (z : Z) : (0 < z -> 0 < RNZ z) /\ (z < 0 -> RNZ z < 0) /\ (z = 0 -> RNZ z = 0).
Proof.
  destruct z as [|p|p]; simpl; repeat split; try lia; intros _.
  - by apply RN_pos.
  - pose proof (RN_pos (Zpos p)). lia.
Qed.

(** *** Shifting a mantissa right *)

Lemma shr_1_code (mrs : shr_record) :
  0 <= shr_m mrs ->
  0 <= shr_m (shr_1 mrs) /\
  code (shr_1 mrs) = code mrs / 2 /\
  shr_s (shr_1 mrs) = negb (code mrs mod 2 =? 0) || shr_s mrs.
Proof.
  destruct mrs as [m r s]. unfold code. simpl shr_m. simpl shr_r. simpl shr_s.
  intros Hm. destruct m as [|[p|p|]|p]; [| | | |lia];
    destruct r, s; simpl shr_1; cbn [shr_m shr_r shr_s Z.b2z];
    (split; [lia|]); (split; [zdiv|]);
    match goal with
    | |- _ = negb (?a mod 2 =? 0) || _ =>
        let H := fresh in
        destruct (Z.eqb_spec (a mod 2) 0) as [H|H]; simpl; try reflexivity;
        exfalso; zdiv
    end.
Qed.

Lemma sticky_compose (K A B : Z) (s : bool) :
  0 < A -> 0 < B ->
  negb (K / A mod B =? 0) || (negb (K mod A =? 0) || s)
  = negb (K mod (A * B) =? 0) || s.
Proof.
  intros HA HB. rewrite Z.rem_mul_r by lia.
  pose proof (Z.mod_pos_bound K A HA). pose proof (Z.mod_pos_bound (K / A) B HB).
  destruct (Z.eqb_spec (K / A mod B) 0), (Z.eqb_spec (K mod A) 0),
    (Z.eqb_spec (K mod A + A * (K / A mod B)) 0); destruct s; simpl; try reflexivity; nia.
Qed.

Lemma iter_shr_code (p : positive) (mrs : shr_record) :
  0 <= shr_m mrs ->
  0 <= shr_m (SpecFloat.iter_pos shr_1 p mrs) /\
  code (SpecFloat.iter_pos shr_1 p mrs) = code mrs / 2 ^ Zpos p /\
  shr_s (SpecFloat.iter_pos shr_1 p mrs) = negb (code mrs mod 2 ^ Zpos p =? 0) || shr_s mrs.
Proof.
  revert mrs. induction p as [p IH|p IH|]; intros mrs Hm; simpl SpecFloat.iter_pos.
  - destruct (shr_1_code mrs Hm) as (H1 & C1 & S1).
    destruct (IH _ H1) as (H2 & C2 & S2).
    destruct (IH _ H2) as (H3 & C3 & S3).
    assert (0 < 2 ^ Zpos p) by (apply Z.pow_pos_nonneg; lia).
    assert (2 ^ Zpos p~1 = 2 * 2 ^ Zpos p * 2 ^ Zpos p) as E.
    { replace (Zpos p~1) with (1 + Zpos p + Zpos p) by lia.
      rewrite !Z.pow_add_r by lia. lia. }
    split; [done|]. split.
    + rewrite C3, C2, C1, E, !Z.div_div by lia. f_equal. ring.
    + rewrite S3, S2, S1, C2, C1, E.
      rewrite (sticky_compose (code mrs) 2 (2 ^ Zpos p)) by lia.
      rewrite Z.div_div by lia.
      rewrite (sticky_compose (code mrs) (2 * 2 ^ Zpos p) (2 ^ Zpos p)) by lia. done.
  - destruct (IH _ Hm) as (H2 & C2 & S2).
    destruct (IH _ H2) as (H3 & C3 & S3).
    assert (0 < 2 ^ Zpos p) by (apply Z.pow_pos_nonneg; lia).
    assert (2 ^ Zpos p~0 = 2 ^ Zpos p * 2 ^ Zpos p) as E.
    { replace (Zpos p~0) with (Zpos p + Zpos p) by lia.
      rewrite Z.pow_add_r by lia. reflexivity. }
    split; [done|]. split.
    + rewrite C3, C2, E, !Z.div_div by lia. f_equal.
    + rewrite S3, S2, C2, E.
      rewrite (sticky_compose (code mrs) (2 ^ Zpos p) (2 ^ Zpos p)) by lia. done.
  - apply shr_1_code. done.
Qed.

(** A record is its code and its sticky bit. *)
Lemma code_m (mrs : shr_record) : shr_m mrs = code mrs / 2.
Proof. unfold code. destruct (shr_r mrs); simpl Z.b2z; zdiv. Qed.

Lemma code_r (mrs : shr_record) : shr_r mrs = Z.odd (code mrs).
Proof.
  unfold code. destruct (shr_r mrs); simpl Z.b2z.
  - by rewrite Z.add_comm, Z.odd_add_mul_2.
  - by rewrite Z.add_0_r, Z.odd_mul, andb_false_l.
Qed.

(** *** Rounding after a shift *)

(** The mantissa that round-to-nearest-even makes of an exact mantissa
    shifted right by [n] bits is [rne]. *)
Lemma round_after_shift (M : Z) (p : positive) :
  0 < M ->
  let mrs := SpecFloat.iter_pos shr_1 p (shr_record_of_loc M loc_Exact) in
  round_nearest_even (shr_m mrs) (loc_of_shr_record mrs) = rne M (Zpos p).
Proof.
  intros HM mrs.
  destruct (iter_shr_code p (shr_record_of_loc M loc_Exact) ltac:(simpl; lia))
    as (Hm & Hc & Hs). fold mrs in Hm, Hc, Hs.
  pose proof (code_m mrs) as Em. pose proof (code_r mrs) as Er.
  change (code (shr_record_of_loc M loc_Exact)) with (2 * M + 0) in Hc, Hs.
  change (shr_s (shr_record_of_loc M loc_Exact)) with false in Hs.
  rewrite Z.add_0_r in Hc, Hs. rewrite orb_false_r in Hs.
  set (h := 2 ^ (Zpos p - 1)).
  assert (0 < h) as Hh by (apply Z.pow_pos_nonneg; lia).
  assert (2 ^ Zpos p = 2 * h) as E.
  { unfold h. replace (Zpos p) with (1 + (Zpos p - 1)) at 1 by lia.
    by rewrite Z.pow_add_r by lia. }
  unfold rne. fold h. rewrite E in *.
  set (q := M / (2 * h)) in *. set (r := M mod (2 * h)) in *.
  assert (M = 2 * h * q + r /\ 0 <= r < 2 * h) as [HMq Hr].
  { split; [apply Z.div_mod; lia|apply Z.mod_pos_bound; lia]. }
  assert (code mrs = 2 * q + (if h <=? r then 1 else 0)) as Hcode.
  { rewrite Hc.
    destruct (Z.leb_spec h r); Z.to_euclidean_division_equations; nia. }
  assert (shr_m mrs = q) as -> by (rewrite Em, Hcode; destruct (h <=? r); zdiv).
  assert (shr_r mrs = (h <=? r)) as Hrr.
  { rewrite Er, Hcode. destruct (h <=? r).
    - by rewrite Z.add_comm, Z.odd_add_mul_2.
    - by rewrite Z.add_0_r, Z.odd_mul, andb_false_l. }
  assert (shr_s mrs = negb (r mod h =? 0)) as Hss.
  { rewrite Hs, Z.mul_mod_distr_l by lia.
    assert (M mod h = r mod h) as ->.
    { rewrite HMq at 1. replace (2 * h * q + r) with (r + (2 * q) * h) by ring.
      apply Z.mod_add. lia. }
    destruct (Z.eqb_spec (2 * (r mod h)) 0), (Z.eqb_spec (r mod h) 0);
      simpl; try reflexivity; lia. }
  assert (r mod h = if h <=? r then r - h else r) as Hrh.
  { destruct (Z.leb_spec h r).
    - symmetry. apply (Z.mod_unique_pos r h 1); lia.
    - apply Z.mod_small. lia. }
  rewrite Hrh in Hss.
  destruct mrs as [m' r' s']. simpl in Hrr, Hss. subst r' s'. simpl.
  destruct (Z.leb_spec h r), (Z.ltb_spec h r), (Z.eqb_spec r h);
    try lia; simpl.
  all: try match goal with
           | |- context [?a =? 0] => destruct (Z.eqb_spec a 0); try lia; simpl
           end.
  all: rewrite <- ?Z.negb_odd; try destruct (Z.odd q); simpl; try reflexivity; lia.
Qed.

(** *** The value of a double, in units of the smallest subnormal *)

Lemma fexp64 (k : Z) : fexp prec emax k = Z.max (k - 53) (-1074).
Proof. reflexivity. Qed.

Lemma OVF_pos : 0 < OVF.
Proof. unfold OVF. apply Z.pow_pos_nonneg; lia. Qed.

(** Rounding a mantissa that is canonical already. *)
Lemma round_canonical (s : bool) (m : positive) (e : Z) :
  fexp prec emax (Zpos (digits2_pos m) + e) = e ->
  binary_round_aux prec emax s (Zpos m) e loc_Exact
  = if e <=? 971 then S754_finite s m e else S754_infinity s.
Proof.
  intros Hc. unfold binary_round_aux, shr_fexp.
  simpl Zdigits2. rewrite Hc, Z.sub_diag. simpl shr.
  cbn [shr_record_of_loc shr_m loc_of_shr_record round_nearest_even Zdigits2].
  rewrite Hc, Z.sub_diag. simpl. reflexivity.
Qed.

(** Rounding a mantissa of more than 53 bits. *)
Lemma round_long (s : bool) (M : positive) (e : Z) :
  53 < Zpos (digits2_pos M) -> -1074 <= e ->
  let n := Zpos (digits2_pos M) - 53 in
  let V := rne (Zpos M) n * 2 ^ (n + e + 1074) in
  let R := binary_round_aux prec emax s (Zpos M) e loc_Exact in
  (R = S754_infinity s /\ OVF <= V) \/
  (exists m' e', R = S754_finite s m' e' /\ Zpos m' * 2 ^ (e' + 1074) = V /\ V < OVF).
Proof.
  intros Hd He n V R.
  destruct (split_bits (Zpos M) n ltac:(lia) ltac:(simpl; lia) ltac:(lia))
    as (HP & _ & _ & Hq & _).
  pose proof (rne_bounds (Zpos M) n) as Hrne.
  assert (exists p, n = Zpos p) as [p Hp] by (exists (Z.to_pos n); lia).
  assert (0 < 2 ^ (n + e + 1074)) as Hpow by (apply Z.pow_pos_nonneg; lia).
  unfold R, binary_round_aux, shr_fexp. simpl Zdigits2. rewrite fexp64.
  replace (Z.max (Zpos (digits2_pos M) + e - 53) (-1074) - e) with (Zpos p) by lia.
  cbn [shr]. rewrite round_after_shift by lia. rewrite <- Hp.
  fold n. set (q := rne (Zpos M) n) in *.
  destruct (Z.eq_dec q (2 ^ 53)) as [Hq53|Hq53].
  - rewrite Hq53. change (Zdigits2 (2 ^ 53)) with 54. rewrite fexp64.
    replace (Z.max (54 + (e + n) - 53) (-1074) - (e + n)) with 1 by lia.
    change (2 ^ 53) with 9007199254740992.
    cbn [shr SpecFloat.iter_pos shr_record_of_loc shr_1 shr_m].
    change (emax - prec) with 971.
    assert (V = 2 ^ 52 * 2 ^ (e + n + 1 + 1074)) as HV.
    { unfold V. rewrite Hq53. replace (e + n + 1 + 1074) with (1 + (n + e + 1074)) by lia.
      rewrite (Z.pow_add_r 2 1) by lia. change (2 ^ 53) with (2 ^ 52 * 2 ^ 1). ring. }
    change 4503599627370496 with (2 ^ 52).
    destruct (Z.leb_spec (e + n + 1) 971) as [Hle|Hgt].
    + right. eexists _, _. split; [reflexivity|]. split; [by rewrite HV|].
      rewrite HV. unfold OVF. rewrite <- Z.pow_add_r by lia.
      apply Z.pow_lt_mono_r; lia.
    + left. split; [reflexivity|]. rewrite HV. unfold OVF.
      rewrite <- Z.pow_add_r by lia. apply Z.pow_le_mono_r; lia.
  - assert (2 ^ 52 <= q < 2 ^ 53) as Hqb by lia.
    assert (exists qp, q = Zpos qp) as [qp Hqp] by (exists (Z.to_pos q); lia).
    rewrite Hqp. simpl Zdigits2.
    assert (Zpos (digits2_pos qp) = 53) as ->
      by (apply digits2_pos_unique; [change (53 - 1) with 52|]; lia).
    rewrite fexp64.
    replace (Z.max (53 + (e + n) - 53) (-1074) - (e + n)) with 0 by lia.
    cbn [shr SpecFloat.iter_pos shr_record_of_loc shr_1 shr_m].
    change (emax - prec) with 971.
    destruct (Z.leb_spec (e + n) 971) as [Hle|Hgt].
    + right. eexists _, _. split; [reflexivity|].
      assert (Zpos qp * 2 ^ (e + n + 1074) = V) as HV
        by (unfold V; rewrite Hqp; do 2 f_equal; lia).
      split; [done|]. rewrite <- HV, <- Hqp.
      apply Z.lt_le_trans with (2 ^ 53 * 2 ^ (e + n + 1074)).
      * apply Z.mul_lt_mono_pos_r; [apply Z.pow_pos_nonneg; lia|lia].
      * unfold OVF. rewrite <- Z.pow_add_r by lia. apply Z.pow_le_mono_r; lia.
    + left. split; [reflexivity|]. unfold V.
      apply Z.le_trans with (2 ^ 52 * 2 ^ (n + e + 1074)).
      * unfold OVF. rewrite <- Z.pow_add_r by lia. apply Z.pow_le_mono_r; lia.
      * apply Z.mul_le_mono_nonneg_r; lia.
Qed.

(** *** Alignment, and rounding a scaled integer *)

Lemma pos_iter_xO (m d : positive) : Zpos (Pos.iter xO m d) = Zpos m * 2 ^ Zpos d.
Proof.
  induction d as [|d IH] using Pos.peano_ind.
  - simpl. lia.
  - rewrite Pos.iter_succ, Pos2Z.inj_xO, IH, Pos2Z.inj_succ, Z.pow_succ_r by lia. ring.
Qed.

Lemma shl_align_spec (mx : positive) (ex ez : Z) :
  ez <= ex ->
  exists m', shl_align mx ex ez = (m', ez) /\ Zpos m' = Zpos mx * 2 ^ (ex - ez).
Proof.
  intros Hle. unfold shl_align.
  destruct (ez - ex) as [|d|d] eqn:Hd; try lia.
  - assert (ez = ex) as -> by lia. exists mx. rewrite Z.sub_diag. split; [done|]. lia.
  - exists (Pos.iter xO mx d). split; [done|].
    rewrite pos_iter_xO. do 2 f_equal. lia.
Qed.

Lemma shl_align_none (mx : positive) (ex ez : Z) :
  ex <= ez -> shl_align mx ex ez = (mx, ex).
Proof. intros Hle. unfold shl_align. destruct (ez - ex) eqn:Hd; try lia; done. Qed.

Lemma digits_shift (m : positive) (k : Z) :
  0 <= k -> Zdigits2 (Zpos m * 2 ^ k) = Zpos (digits2_pos m) + k.
Proof.
  intros Hk. pose proof (digits2_pos_bounds m) as [Hlo Hhi].
  assert (0 < 2 ^ k) by (apply Z.pow_pos_nonneg; lia).
  apply Zdigits2_unique; [|lia]. split.
  - replace (Zpos (digits2_pos m) + k - 1) with (Zpos (digits2_pos m) - 1 + k) by lia.
    rewrite Z.pow_add_r by lia. nia.
  - rewrite Z.pow_add_r by lia. nia.
Qed.

Lemma rne_shift (M n k : Z) :
  0 < n -> 0 <= k -> rne (M * 2 ^ k) (n + k) = rne M n.
Proof.
  intros Hn Hk. unfold rne.
  assert (0 < 2 ^ k) as HK by (apply Z.pow_pos_nonneg; lia).
  assert (0 < 2 ^ n) as HN by (apply Z.pow_pos_nonneg; lia).
  assert (0 < 2 ^ (n - 1)) as HH by (apply Z.pow_pos_nonneg; lia).
  rewrite (Z.pow_add_r 2 n k) by lia.
  rewrite Z.div_mul_cancel_r by lia.
  rewrite Z.mul_mod_distr_r by lia.
  replace (n + k - 1) with (n - 1 + k) by lia. rewrite Z.pow_add_r by lia.
  set (r := M mod 2 ^ n). set (h := 2 ^ (n - 1)). set (K := 2 ^ k) in *.
  destruct (Z.ltb_spec (h * K) (r * K)), (Z.ltb_spec h r),
    (Z.eqb_spec (r * K) (h * K)), (Z.eqb_spec r h); try reflexivity; exfalso; nia.
Qed.

Lemma rne_exact (q n : Z) : 0 < n -> rne (q * 2 ^ n) n = q.
Proof.
  intros Hn. unfold rne.
  assert (0 < 2 ^ n) by (apply Z.pow_pos_nonneg; lia).
  assert (0 < 2 ^ (n - 1)) by (apply Z.pow_pos_nonneg; lia).
  rewrite Z.div_mul, Z.mod_mul by lia.
  destruct (Z.ltb_spec (2 ^ (n - 1)) 0), (Z.eqb_spec 0 (2 ^ (n - 1))); simpl; lia.
Qed.

(** A mantissa of at most 53 bits, scaled, is not changed by rounding. *)
Lemma RN_short (m : positive) (k : Z) :
  Zpos (digits2_pos m) <= 53 -> 0 <= k -> RN (Zpos m * 2 ^ k) = Zpos m * 2 ^ k.
Proof.
  intros Hd Hk. unfold RN. rewrite digits_shift by done.
  destruct (Z.leb_spec (Zpos (digits2_pos m) + k - 53) 0) as [Hn|Hn]; [done|].
  set (n := Zpos (digits2_pos m) + k - 53) in *.
  replace k with (k - n + n) by lia. rewrite Z.pow_add_r by lia.
  rewrite Z.mul_assoc, rne_exact by lia. done.
Qed.

(** A mantissa of more than 53 bits, scaled, is rounded at its own bits. *)
Lemma RN_long (M : positive) (k : Z) :
  53 < Zpos (digits2_pos M) -> 0 <= k ->
  RN (Zpos M * 2 ^ k)
  = rne (Zpos M) (Zpos (digits2_pos M) - 53) * 2 ^ (Zpos (digits2_pos M) - 53 + k).
Proof.
  intros Hd Hk. unfold RN. rewrite digits_shift by done.
  destruct (Z.leb_spec (Zpos (digits2_pos M) + k - 53) 0) as [Hn|Hn]; [lia|].
  replace (Zpos (digits2_pos M) + k - 53) with (Zpos (digits2_pos M) - 53 + k) by lia.
  by rewrite rne_shift by lia.
Qed.

(** What [binary_round] returns for a mantissa [M] at an exponent [e] not
    below the least one: the rounding of [M * 2^e]. *)
Lemma binary_round_sv (s : bool) (M : positive) (e : Z) :
  -1074 <= e ->
  let V := RN (Zpos M * 2 ^ (e + 1074)) in
  let R := binary_round prec emax s M e in
  (R = S754_infinity s /\ OVF <= V) \/
  (exists m' e', R = S754_finite s m' e' /\ Zpos m' * 2 ^ (e' + 1074) = V /\ V < OVF).
Proof.
  intros He V R. unfold R, binary_round. rewrite fexp64.
  set (d := Zpos (digits2_pos M)) in *.
  destruct (Z.le_gt_cases d 53) as [Hd|Hd].
  - set (E := Z.max (d + e - 53) (-1074)).
    destruct (shl_align_spec M e E ltac:(lia)) as (m' & -> & Hm').
    assert (Zdigits2 (Zpos m') = d + (e - E)) as Hdm'
      by (rewrite Hm'; apply digits_shift; lia).
    simpl in Hdm'.
    rewrite round_canonical by (rewrite fexp64, Hdm'; lia).
    assert (Zpos m' * 2 ^ (E + 1074) = V) as HV.
    { unfold V. rewrite RN_short by lia. rewrite Hm', <- Z.mul_assoc, <- Z.pow_add_r by lia.
      do 2 f_equal. lia. }
    pose proof (digits2_pos_bounds m') as [Hlo Hhi]. rewrite Hdm' in Hlo, Hhi.
    assert (0 < 2 ^ (E + 1074)) by (apply Z.pow_pos_nonneg; lia).
    destruct (Z.leb_spec E 971) as [Hle|Hgt].
    + right. exists m', E. split; [done|]. split; [done|]. rewrite <- HV.
      apply Z.lt_le_trans with (2 ^ (d + (e - E)) * 2 ^ (E + 1074)); [nia|].
      unfold OVF. rewrite <- Z.pow_add_r by lia. apply Z.pow_le_mono_r; lia.
    + left. split; [done|]. rewrite <- HV.
      apply Z.le_trans with (2 ^ (d + (e - E) - 1) * 2 ^ (E + 1074)); [|nia].
      unfold OVF. rewrite <- Z.pow_add_r by lia. apply Z.pow_le_mono_r; lia.
  - rewrite shl_align_none by lia.
    unfold V. rewrite RN_long by lia. subst d.
    replace (Zpos (digits2_pos M) - 53 + (e + 1074))
      with (Zpos (digits2_pos M) - 53 + e + 1074) by lia.
    apply (round_long s M e); lia.
Qed.

(** [binary_normalize] rounds the signed integer [D * 2^e]. *)
Lemma binary_normalize_sv (D e : Z) :
  -1074 <= e ->
  let R := binary_normalize prec emax D e false in
  is_nan_sf R = false /\ sv R = clip (RNZ (D * 2 ^ (e + 1074))).
Proof.
  intros He R. pose proof OVF_pos. unfold R, binary_normalize, clip.
  assert (0 < 2 ^ (e + 1074)) by (apply Z.pow_pos_nonneg; lia).
  destruct D as [|M|M].
  - simpl. lia.
  - change (Zpos M * 2 ^ (e + 1074)) with (Zpos M * 2 ^ (e + 1074)).
    assert (RNZ (Zpos M * 2 ^ (e + 1074)) = RN (Zpos M * 2 ^ (e + 1074))) as ->.
    { destruct (Zpos M * 2 ^ (e + 1074)) eqn:E; try lia. done. }
    destruct (binary_round_sv false M e He) as [[-> HV]|(m' & e' & -> & HV & Hlt)].
    + simpl. lia.
    + simpl. pose proof (RN_pos (Zpos M * 2 ^ (e + 1074)) ltac:(lia)). lia.
  - assert (RNZ (Zneg M * 2 ^ (e + 1074)) = - RN (Zpos M * 2 ^ (e + 1074))) as ->.
    { replace (Zneg M * 2 ^ (e + 1074)) with (- (Zpos M * 2 ^ (e + 1074))) by lia.
      destruct (Zpos M * 2 ^ (e + 1074)) eqn:E; try lia. done. }
    destruct (binary_round_sv true M e He) as [[-> HV]|(m' & e' & -> & HV & Hlt)].
    + simpl. lia.
    + simpl. pose proof (RN_pos (Zpos M * 2 ^ (e + 1074)) ltac:(lia)). lia.
Qed.

(** *** Valid doubles and their order *)

Lemma valid_finite (s : bool) (m : positive) (e : Z) :
  valid (S754_finite s m e) = true ->
  -1074 <= e <= 971 /\ Zpos (digits2_pos m) <= 53 /\
  (-1074 < e -> Zpos (digits2_pos m) = 53).
Proof.
  unfold SpecFloat.valid_binary, bounded, canonical_mantissa.
  rewrite andb_true_iff, Z.eqb_eq, Z.leb_le, fexp64.
  change (emax - prec) with 971. lia.
Qed.

Lemma finite_value_bounds (s : bool) (m : positive) (e : Z) :
  valid (S754_finite s m e) = true ->
  0 < Zpos m * 2 ^ (e + 1074) < OVF.
Proof.
  intros (He & Hd & _)%valid_finite.
  assert (0 < 2 ^ (e + 1074)) by (apply Z.pow_pos_nonneg; lia).
  split; [lia|]. pose proof (digits2_pos_bounds m) as [_ Hhi].
  apply Z.lt_le_trans with (2 ^ 53 * 2 ^ (e + 1074)).
  - apply Z.mul_lt_mono_pos_r; [done|].
    apply Z.lt_le_trans with (2 ^ Zpos (digits2_pos m)); [done|].
    apply Z.pow_le_mono_r; lia.
  - unfold OVF. rewrite <- Z.pow_add_r by lia. apply Z.pow_le_mono_r; lia.
Qed.

(** With a smaller exponent comes a smaller value. *)
Lemma finite_value_lt (s1 s2 : bool) (m1 m2 : positive) (e1 e2 : Z) :
  valid (S754_finite s1 m1 e1) = true -> valid (S754_finite s2 m2 e2) = true ->
  e1 < e2 -> Zpos m1 * 2 ^ (e1 + 1074) < Zpos m2 * 2 ^ (e2 + 1074).
Proof.
  intros (He1 & Hd1 & _)%valid_finite (He2 & _ & Hd2)%valid_finite Hlt.
  pose proof (digits2_pos_bounds m1) as [_ Hhi].
  pose proof (digits2_pos_bounds m2) as [Hlo _]. rewrite Hd2 in Hlo by lia.
  change (53 - 1) with 52 in Hlo.
  assert (0 < 2 ^ (e1 + 1074)) by (apply Z.pow_pos_nonneg; lia).
  assert (0 < 2 ^ (e2 + 1074)) by (apply Z.pow_pos_nonneg; lia).
  apply Z.lt_le_trans with (2 ^ 53 * 2 ^ (e1 + 1074)).
  - apply Z.mul_lt_mono_pos_r; [done|].
    apply Z.lt_le_trans with (2 ^ Zpos (digits2_pos m1)); [done|].
    apply Z.pow_le_mono_r; lia.
  - apply Z.le_trans with (2 ^ 52 * 2 ^ (e2 + 1074)).
    + rewrite <- !Z.pow_add_r by lia. apply Z.pow_le_mono_r; lia.
    + apply Z.mul_le_mono_nonneg_r; lia.
Qed.

Lemma finite_value_compare (s1 s2 : bool) (m1 m2 : positive) (e1 e2 : Z) :
  valid (S754_finite s1 m1 e1) = true -> valid (S754_finite s2 m2 e2) = true ->
  (Zpos m1 * 2 ^ (e1 + 1074) ?= Zpos m2 * 2 ^ (e2 + 1074))
  = match e1 ?= e2 with
    | Lt => Lt
    | Gt => Gt
    | Eq => Pos.compare_cont Eq m1 m2
    end.
Proof.
  intros H1 H2. destruct (Z.compare_spec e1 e2) as [->|Hlt|Hgt].
  - change (Pos.compare_cont Eq m1 m2) with (Zpos m1 ?= Zpos m2).
    assert (0 < 2 ^ (e2 + 1074)).
    { apply Z.pow_pos_nonneg; [lia|]. apply valid_finite in H2. lia. }
    destruct (Z.compare_spec (Zpos m1) (Zpos m2)) as [->|?|?].
    + apply Z.compare_refl.
    + apply Z.compare_lt_iff. nia.
    + apply Z.compare_gt_iff. nia.
  - apply Z.compare_lt_iff. by eapply finite_value_lt.
  - apply Z.compare_gt_iff. by eapply finite_value_lt.
Qed.

(** On valid doubles other than NaN, comparison is that of the values. *)
Lemma SFcompare_sv (x y : spec_float) :
  valid x = true -> valid y = true ->
  is_nan_sf x = false -> is_nan_sf y = false ->
  SFcompare x y = Some (sv x ?= sv y).
Proof.
  intros Hx Hy Nx Ny. pose proof OVF_pos as HO.
  destruct x as [sx|sx| |sx mx ex], y as [sy|sy| |sy my ey]; try discriminate;
    try pose proof (finite_value_bounds _ _ _ Hx) as Bx;
    try pose proof (finite_value_bounds _ _ _ Hy) as By';
    cbn [SFcompare sv]; f_equal;
    try (destruct sx; try destruct sy; cbn [sgn]; symmetry;
         first [apply Z.compare_eq_iff; lia | apply Z.compare_lt_iff; lia
               | apply Z.compare_gt_iff; lia]).
  destruct sx, sy; cbn [sgn]; symmetry;
    try (first [apply Z.compare_lt_iff; lia | apply Z.compare_gt_iff; lia]).
  - rewrite Z.compare_opp, (finite_value_compare _ _ _ _ _ _ Hy Hx).
    rewrite (Z.compare_antisym ex ey), (Pos.compare_cont_antisym mx my Eq).
    by destruct (ex ?= ey).
  - apply (finite_value_compare _ _ _ _ _ _ Hx Hy).
Qed.

Lemma SFleb_sv (x y : spec_float) :
  valid x = true -> valid y = true ->
  is_nan_sf x = false -> is_nan_sf y = false ->
  SFleb x y = (sv x <=? sv y).
Proof.
  intros Hx Hy Nx Ny. unfold SFleb. rewrite SFcompare_sv by done.
  unfold Z.leb. by destruct (sv x ?= sv y).
Qed.

Lemma SFeqb_sv (x y : spec_float) :
  valid x = true -> valid y = true ->
  is_nan_sf x = false -> is_nan_sf y = false ->
  SFeqb x y = (sv x =? sv y).
Proof.
  intros Hx Hy Nx Ny. unfold SFeqb. rewrite SFcompare_sv by done.
  destruct (Z.compare_spec (sv x) (sv y)) as [->|?|?].
  - by rewrite Z.eqb_refl.
  - symmetry. apply Z.eqb_neq. lia.
  - symmetry. apply Z.eqb_neq. lia.
Qed.

Lemma SFcompare_nan_l (y : spec_float) : SFcompare S754_nan y = None.
Proof. done. Qed.

Lemma SFcompare_nan_r (x : spec_float) : SFcompare x S754_nan = None.
Proof. by destruct x. Qed.

(** *** Subtraction *)

Lemma RNZ_opp (z : Z) : RNZ (- z) = - RNZ z.
Proof.
  destruct z as [|p|p]; [reflexivity|reflexivity|].
  change (RN (Zpos p) = - - RN (Zpos p)). by rewrite Z.opp_involutive.
Qed.

Lemma RNZ_sgn (s : bool) (z : Z) : RNZ (sgn s z) = sgn s (RNZ z).
Proof. destruct s; simpl; [apply RNZ_opp|done]. Qed.

Lemma RNZ_pos (z : Z) : 0 < z -> RNZ z = RN z.
Proof. by destruct z. Qed.

(** The value of a valid finite double is not changed by rounding. *)
Lemma RNZ_sv (x : spec_float) :
  valid x = true -> is_finite_sf x = true -> RNZ (sv x) = sv x /\ - OVF < sv x < OVF.
Proof.
  intros Hx Fx. pose proof OVF_pos. destruct x as [s|s| |s m e]; try discriminate.
  - simpl. lia.
  - pose proof (finite_value_bounds _ _ _ Hx) as B.
    destruct (valid_finite _ _ _ Hx) as (He & Hd & _).
    cbn [sv]. rewrite RNZ_sgn, RNZ_pos, RN_short by lia.
    destruct s; simpl; lia.
Qed.

Lemma clip_id (z : Z) : - OVF <= z <= OVF -> clip z = z.
Proof. unfold clip. lia. Qed.

(** The difference of two finite doubles is the rounding of the difference
    of their values. *)
Lemma SFsub_sv (x y : spec_float) :
  valid x = true -> valid y = true ->
  is_finite_sf x = true -> is_finite_sf y = true ->
  is_nan_sf (SFsub prec emax x y) = false /\
  sv (SFsub prec emax x y) = clip (RNZ (sv x - sv y)).
Proof.
  intros Hx Hy Fx Fy. pose proof OVF_pos.
  destruct (RNZ_sv x Hx Fx) as [Rx Bx]. destruct (RNZ_sv y Hy Fy) as [Ry By'].
  destruct x as [sx|sx| |sx mx ex], y as [sy|sy| |sy my ey]; try discriminate.
  - split; [by destruct sx, sy|]. destruct sx, sy; simpl; unfold clip; lia.
  - split; [done|]. cbn [SFsub]. cbn [sv] in *.
    rewrite Z.sub_0_l, RNZ_opp, Ry, clip_id by lia. destruct sy; simpl; lia.
  - split; [done|]. cbn [SFsub]. cbn [sv] in *.
    rewrite Z.sub_0_r, Rx, clip_id by lia. done.
  - destruct (valid_finite _ _ _ Hx) as (Hex & _). destruct (valid_finite _ _ _ Hy) as (Hey & _).
    cbn [SFsub]. set (ez := Z.min ex ey).
    destruct (shl_align_spec mx ex ez ltac:(lia)) as (mx' & -> & Hmx).
    destruct (shl_align_spec my ey ez ltac:(lia)) as (my' & -> & Hmy).
    cbn [fst].
    destruct (binary_normalize_sv
                (cond_Zopp sx (Zpos mx') - cond_Zopp sy (Zpos my')) ez ltac:(lia))
      as [Hn Hv].
    split; [exact Hn|]. rewrite Hv. do 2 f_equal. cbn [sv].
    rewrite Z.mul_sub_distr_r.
    assert (forall s m, cond_Zopp s m * 2 ^ (ez + 1074) = sgn s (m * 2 ^ (ez + 1074))) as E
      by (intros [] ?; simpl; lia).
    rewrite !E, Hmx, Hmy, <- !Z.mul_assoc, <- !Z.pow_add_r by lia.
    by replace (ex - ez + (ez + 1074)) with (ex + 1074) by lia;
       replace (ey - ez + (ez + 1074)) with (ey + 1074) by lia.
Qed.

(** *** Division *)

Lemma Zdigits2_le_pow (q k : Z) : 0 <= q -> q < 2 ^ k -> Zdigits2 q <= k.
Proof.
  intros Hq Hlt. destruct (Z.eq_dec q 0) as [->|Hne].
  - simpl. destruct (Z.le_gt_cases 0 k); [done|].
    rewrite Z.pow_neg_r in Hlt by lia. lia.
  - pose proof (Zdigits2_bounds q ltac:(lia)) as [Hlo _].
    destruct (Z.le_gt_cases (Zdigits2 q) k) as [|Hgt]; [done|].
    assert (0 <= k) by (destruct (Z.le_gt_cases 0 k); [done|];
                        rewrite Z.pow_neg_r in Hlt by lia; lia).
    assert (2 ^ k <= 2 ^ (Zdigits2 q - 1)) by (apply Z.pow_le_mono_r; lia). lia.
Qed.

(** The mantissa and exponent after the shift of [shr_fexp]. *)
Lemma shr_fexp_m (q e : Z) (l : location) :
  0 <= q ->
  let n := Z.max 0 (fexp prec emax (Zdigits2 q + e) - e) in
  snd (shr_fexp prec emax q e l) = e + n /\
  shr_m (fst (shr_fexp prec emax q e l)) = q / 2 ^ n.
Proof.
  intros Hq n. unfold shr_fexp, shr.
  destruct (fexp prec emax (Zdigits2 q + e) - e) as [|p|p] eqn:E; subst n;
    cbn [fst snd].
  - rewrite Z.max_id, Z.add_0_r. change (2 ^ 0) with 1. rewrite Z.div_1_r.
    by destruct l as [|[]].
  - rewrite Z.max_r by lia. split; [done|].
    assert (shr_m (shr_record_of_loc q l) = q) as Hm by (by destruct l as [|[]]).
    destruct (iter_shr_code p (shr_record_of_loc q l) ltac:(lia)) as (_ & Hc & _).
    rewrite code_m, Hc. unfold code. rewrite Hm.
    assert (0 < 2 ^ Zpos p) by (apply Z.pow_pos_nonneg; lia).
    rewrite Z.div_div by lia. rewrite (Z.mul_comm (2 ^ Zpos p) 2).
    rewrite <- Z.div_div by lia. f_equal.
    destruct (shr_r (shr_record_of_loc q l)); simpl Z.b2z; zdiv.
  - rewrite Z.max_l by lia. rewrite Z.add_0_r. change (2 ^ 0) with 1.
    rewrite Z.div_1_r. by destruct l as [|[]].
Qed.

Lemma round_nearest_even_bounds (m : Z) (l : location) :
  m <= round_nearest_even m l <= m + 1.
Proof. destruct l as [|[]]; simpl; try destruct (Z.even m); lia. Qed.

(** Rounding a quotient below one gives a double between zero and one. *)
Lemma round_below_one (q e : Z) (l : location) :
  0 <= q -> q < 2 ^ (- e) ->
  let R := binary_round_aux prec emax false q e l in
  is_nan_sf R = false /\ 0 <= sv R <= 2 ^ 1074.
Proof.
  intros Hq Hlt R.
  assert (e <= 0) as He.
  { destruct (Z.le_gt_cases e 0); [done|]. rewrite Z.pow_neg_r in Hlt by lia. lia. }
  unfold R, binary_round_aux.
  pose proof (shr_fexp_m q e l Hq) as [He1 Hm1].
  destruct (shr_fexp prec emax q e l) as [mrs1 e1]. cbn [fst snd] in He1, Hm1.
  set (n1 := Z.max 0 (fexp prec emax (Zdigits2 q + e) - e)) in *.
  pose proof (Zdigits2_le_pow q (- e) Hq Hlt) as Hdq.
  assert (n1 = Z.max 0 (Z.max (Zdigits2 q + e - 53) (-1074) - e)) as Hn1eq
    by (unfold n1; by rewrite fexp64).
  assert (0 <= n1 /\ e1 <= 0) as [Hn1 He1'] by lia.
  assert (0 < 2 ^ n1) as Hp1 by (apply Z.pow_pos_nonneg; lia).
  assert (shr_m mrs1 < 2 ^ (- e1)) as Hm1lt.
  { rewrite Hm1. apply Z.div_lt_upper_bound; [done|].
    rewrite <- Z.pow_add_r by lia. by replace (n1 + - e1) with (- e) by lia. }
  assert (0 <= shr_m mrs1) as Hm1ge by (rewrite Hm1; apply Z.div_pos; lia).
  pose proof (round_nearest_even_bounds (shr_m mrs1) (loc_of_shr_record mrs1)) as Hr.
  set (m2 := round_nearest_even (shr_m mrs1) (loc_of_shr_record mrs1)) in *.
  pose proof (shr_fexp_m m2 e1 loc_Exact ltac:(lia)) as [He3 Hm3].
  destruct (shr_fexp prec emax m2 e1 loc_Exact) as [mrs3 e3]. cbn [fst snd] in He3, Hm3.
  set (n2 := Z.max 0 (fexp prec emax (Zdigits2 m2 + e1) - e1)) in *.
  assert (m2 < 2 ^ (- e1 + 1)) as Hm2lt.
  { rewrite Z.pow_add_r by lia. change (2 ^ 1) with 2.
    assert (0 < 2 ^ (- e1)) by (apply Z.pow_pos_nonneg; lia). lia. }
  pose proof (Zdigits2_le_pow m2 (- e1 + 1) ltac:(lia) Hm2lt) as Hdm2.
  assert (n2 = Z.max 0 (Z.max (Zdigits2 m2 + e1 - 53) (-1074) - e1)) as Hn2eq
    by (unfold n2; by rewrite fexp64).
  assert (0 <= n2 /\ e3 <= 0) as [Hn2 He3'] by lia.
  assert (0 < 2 ^ n2) as Hp2 by (apply Z.pow_pos_nonneg; lia).
  assert (0 <= shr_m mrs3 <= 2 ^ (- e3)) as Hm3b.
  { rewrite Hm3. split; [apply Z.div_pos; lia|].
    apply Z.div_le_upper_bound; [done|].
    rewrite <- Z.pow_add_r by lia. replace (n2 + - e3) with (- e1) by lia. lia. }
  change (emax - prec) with 971.
  destruct (shr_m mrs3) as [|m3|m3] eqn:Em3; [| |lia].
  - simpl. split; [done|]. split; [lia|]. apply Z.pow_nonneg. lia.
  - destruct (Z.leb_spec e3 971); [|lia]. cbn [is_nan_sf sv sgn].
    split; [done|]. split; [apply Z.mul_nonneg_nonneg; [lia|apply Z.pow_nonneg; lia]|].
    destruct (Z.le_gt_cases 0 (e3 + 1074)) as [Hge|Hneg].
    + apply Z.le_trans with (2 ^ (- e3) * 2 ^ (e3 + 1074)).
      * apply Z.mul_le_mono_nonneg_r; [apply Z.pow_nonneg; lia|lia].
      * rewrite <- Z.pow_add_r by lia. apply Z.pow_le_mono_r; lia.
    + rewrite (Z.pow_neg_r 2 (e3 + 1074)) by lia. rewrite Z.mul_0_r.
      apply Z.pow_nonneg. lia.
Qed.

Lemma div_eucl_div_mod (a b : Z) : Z.div_eucl a b = (a / b, a mod b).
Proof. unfold Z.div, Z.modulo. by destruct (Z.div_eucl a b). Qed.

Lemma new_location_exact (m : Z) : new_location m 0 = loc_Exact.
Proof. unfold new_location. by destruct (Z.even m). Qed.

Lemma shiftl_pos (m s : Z) :
  0 <= s ->
  match s with Zpos _ => Z.shiftl m s | Z0 => m | Zneg _ => 0 end = m * 2 ^ s.
Proof.
  intros Hs. destruct s as [|p|p]; [simpl; lia| |lia].
  apply Z.shiftl_mul_pow2. lia.
Qed.

(** The quotient of a smaller by a larger positive double is between zero
    and one. *)
Lemma SFdiv_lt (ma mb : positive) (ea eb : Z) :
  valid (S754_finite false ma ea) = true -> valid (S754_finite false mb eb) = true ->
  Zpos ma * 2 ^ (ea + 1074) < Zpos mb * 2 ^ (eb + 1074) ->
  let R := SFdiv prec emax (S754_finite false ma ea) (S754_finite false mb eb) in
  is_nan_sf R = false /\ 0 <= sv R <= 2 ^ 1074.
Proof.
  intros Ha Hb Hlt R.
  destruct (valid_finite _ _ _ Ha) as (Hea & _). destruct (valid_finite _ _ _ Hb) as (Heb & _).
  unfold R. cbn [SFdiv xorb]. unfold SFdiv_core_binary.
  cbn [Zdigits2]. rewrite fexp64.
  set (da := Zpos (digits2_pos ma)). set (db := Zpos (digits2_pos mb)).
  set (e' := Z.min (Z.max (da + ea - (db + eb) - 53) (-1074)) (ea - eb)).
  pose proof (digits2_pos_bounds ma) as [Hloa _]. fold da in Hloa.
  pose proof (digits2_pos_bounds mb) as [_ Hhib]. fold db in Hhib.
  assert (da + ea <= db + eb) as Hd.
  { destruct (Z.le_gt_cases (da + ea) (db + eb)) as [|Hgt]; [done|]. exfalso.
    assert (0 < 2 ^ (ea + 1074)) by (apply Z.pow_pos_nonneg; lia).
    assert (0 < 2 ^ (eb + 1074)) by (apply Z.pow_pos_nonneg; lia).
    assert (0 < da) by (unfold da; lia).
    assert (0 < db) by (unfold db; lia).
    assert (2 ^ db * 2 ^ (eb + 1074) <= 2 ^ (da - 1) * 2 ^ (ea + 1074)).
    { rewrite <- !Z.pow_add_r by lia. apply Z.pow_le_mono_r; lia. }
    assert (Zpos mb * 2 ^ (eb + 1074) < 2 ^ db * 2 ^ (eb + 1074))
      by (apply Z.mul_lt_mono_pos_r; lia).
    assert (2 ^ (da - 1) * 2 ^ (ea + 1074) <= Zpos ma * 2 ^ (ea + 1074))
      by (apply Z.mul_le_mono_nonneg_r; lia).
    lia. }
  assert (e' <= -53) as He' by lia.
  assert (0 <= ea - eb - e') as Hs by lia.
  rewrite shiftl_pos by done. rewrite div_eucl_div_mod.
  apply round_below_one.
  - apply Z.div_pos; [|lia]. apply Z.mul_nonneg_nonneg; [lia|apply Z.pow_nonneg; lia].
  - apply Z.div_lt_upper_bound; [lia|].
    assert (0 < 2 ^ (ea + 1074)) as HPa by (apply Z.pow_pos_nonneg; lia).
    assert (0 < 2 ^ (ea - eb - e')) as HS by (apply Z.pow_pos_nonneg; lia).
    assert (2 ^ (- e') * 2 ^ (ea + 1074) = 2 ^ (eb + 1074) * 2 ^ (ea - eb - e')) as E.
    { rewrite <- !Z.pow_add_r by lia. f_equal. lia. }
    apply (Z.mul_lt_mono_pos_r (2 ^ (ea + 1074))); [done|].
    replace (Zpos mb * 2 ^ (- e') * 2 ^ (ea + 1074))
      with (Zpos mb * 2 ^ (eb + 1074) * 2 ^ (ea - eb - e'))
      by (rewrite <- !Z.mul_assoc; f_equal; lia).
    replace (Zpos ma * 2 ^ (ea - eb - e') * 2 ^ (ea + 1074))
      with (Zpos ma * 2 ^ (ea + 1074) * 2 ^ (ea - eb - e')) by ring.
    by apply Z.mul_lt_mono_pos_r.
Qed.

(** A finite double divided by itself is one. *)
Lemma SFdiv_same (sx sy : bool) (m : positive) (e : Z) :
  SFdiv prec emax (S754_finite sx m e) (S754_finite sy m e)
  = S754_finite (xorb sx sy) 4503599627370496 (-52).
Proof.
  cbn [SFdiv]. unfold SFdiv_core_binary. rewrite !Z.sub_diag.
  change (fexp prec emax 0) with (-53). change (Z.min (-53) 0) with (-53).
  change (0 - -53) with 53. cbv iota.
  rewrite Z.shiftl_mul_pow2, div_eucl_div_mod by lia.
  rewrite Z.mul_comm, Z.div_mul, Z.mod_mul, new_location_exact by lia.
  by destruct (xorb sx sy); vm_compute.
Qed.

Lemma round_doubled (s : bool) (m : positive) (e : Z) :
  fexp prec emax (Zpos (digits2_pos m) + e) = e ->
  binary_round_aux prec emax s (Zpos m~0) (e - 1) loc_Exact
  = binary_round_aux prec emax s (Zpos m) e loc_Exact.
Proof.
  intros Hc. unfold binary_round_aux.
  assert (shr_fexp prec emax (Zpos m~0) (e - 1) loc_Exact
          = shr_fexp prec emax (Zpos m) e loc_Exact) as E; [|by rewrite E].
  unfold shr_fexp. cbn [Zdigits2 digits2_pos]. rewrite Hc, Z.sub_diag.
  rewrite Pos2Z.inj_succ.
  replace (Z.succ (Zpos (digits2_pos m)) + (e - 1)) with (Zpos (digits2_pos m) + e) by lia.
  rewrite Hc. replace (e - (e - 1)) with 1 by lia.
  cbn. f_equal. lia.
Qed.

(** Dividing by 1.0 is exact. *)
Lemma SFdiv_one (x : spec_float) :
  valid x = true -> SFdiv prec emax x SFone64 = x.
Proof.
  intros Hx. destruct x as [s|s| |s m e]; cbn [SFdiv SFone64];
    rewrite ?xorb_false_r; try reflexivity.
  destruct (valid_finite _ _ _ Hx) as (He & Hd & Hn).
  assert (fexp prec emax (Zpos (digits2_pos m) + e) = e) as Hc by (rewrite fexp64; lia).
  assert (0 < 2 ^ 52) as H52 by (apply Z.pow_pos_nonneg; lia).
  unfold SFdiv_core_binary. cbn [Zdigits2].
  change (Zpos (digits2_pos 4503599627370496)) with 53. rewrite fexp64.
  change 4503599627370496 with (2 ^ 52) at 1 2.
  destruct (Z.eq_dec e (-1074)) as [->|Hne].
  - replace (Z.min _ _) with (-1074) by lia.
    change (-1074 - -52 - -1074) with 52. cbv iota.
    rewrite Z.shiftl_mul_pow2, div_eucl_div_mod, Z.div_mul, Z.mod_mul,
      new_location_exact by lia.
    rewrite round_canonical by exact Hc. done.
  - assert (Zpos (digits2_pos m) = 53) as Hd53 by lia. rewrite Hd53.
    replace (Z.min _ _) with (e - 1) by lia.
    replace (e - -52 - (e - 1)) with 53 by lia. cbv iota.
    rewrite Z.shiftl_mul_pow2, div_eucl_div_mod by lia.
    change (2 ^ 53) with (2 * 2 ^ 52). rewrite Z.mul_assoc.
    rewrite Z.div_mul, Z.mod_mul, new_location_exact by lia.
    replace (Zpos m * 2) with (Zpos m~0) by lia.
    rewrite round_doubled, round_canonical by exact Hc.
    destruct (Z.leb_spec e 971); [done|lia].
Qed.

(** *** Infinite operands *)

Lemma sv_classify (x : spec_float) :
  valid x = true -> is_nan_sf x = false ->
  (is_inf_sf x = true /\ (sv x = OVF \/ sv x = - OVF)) \/
  (is_inf_sf x = false /\ is_finite_sf x = true /\ - OVF < sv x < OVF).
Proof.
  intros Hx Nx. pose proof OVF_pos. destruct x as [s|s| |s m e]; try discriminate.
  - right. simpl. lia.
  - left. destruct s; simpl; auto.
  - right. destruct (RNZ_sv _ Hx eq_refl). auto.
Qed.

Lemma clip_bounds (z : Z) : - OVF <= clip z <= OVF.
Proof. pose proof OVF_pos. unfold clip. lia. Qed.

Lemma clip_mono (z1 z2 : Z) : z1 <= z2 -> clip z1 <= clip z2.
Proof. unfold clip. lia. Qed.

Lemma clip_RNZ_sign (z : Z) :
  (0 < z -> 0 < clip (RNZ z)) /\ (z < 0 -> clip (RNZ z) < 0) /\
  (z = 0 -> clip (RNZ z) = 0).
Proof.
  pose proof OVF_pos. destruct (RNZ_sign z) as (? & ? & ?). unfold clip. lia.
Qed.

(** The difference of two doubles, none of them NaN: NaN exactly for two
    infinities of the same sign. *)
Lemma SFsub_cases (x y : spec_float) :
  valid x = true -> valid y = true ->
  is_nan_sf x = false -> is_nan_sf y = false ->
  let R := SFsub prec emax x y in
  (is_inf_sf x = true /\ is_inf_sf y = true /\ sv x = sv y /\ is_nan_sf R = true) \/
  (is_nan_sf R = false /\
   ((is_inf_sf x = true /\ sv x <> sv y /\ sv R = sv x) \/
    (is_inf_sf x = false /\ is_inf_sf y = true /\ sv R = - sv y) \/
    (is_inf_sf x = false /\ is_inf_sf y = false /\ sv R = clip (RNZ (sv x - sv y))))).
Proof.
  intros Hx Hy Nx Ny R. pose proof OVF_pos.
  destruct (sv_classify x Hx Nx) as [[Ix Vx]|(Ix & Fx & Vx)];
    destruct (sv_classify y Hy Ny) as [[Iy Vy]|(Iy & Fy & Vy)].
  - destruct x as [|sx| |], y as [|sy| |]; try discriminate.
    destruct sx, sy; simpl in *; [left|right|right|left]; repeat split; auto;
      left; repeat split; lia.
  - right. destruct x as [|sx| |], y as [sy|sy| |sy my ey]; try discriminate;
      (split; [done|]); left; repeat split; lia.
  - right. destruct x as [sx|sx| |sx mx ex], y as [|sy| |]; try discriminate;
      (split; [done|]); right; left; repeat split; destruct sy; simpl; lia.
  - right. destruct (SFsub_sv x y Hx Hy Fx Fy) as [NR VR]. split; [done|].
    right; right. auto.
Qed.

Lemma SFsub_nan_r (x : spec_float) : SFsub prec emax x S754_nan = S754_nan.
Proof. by destruct x. Qed.

Lemma SFleb_true (x y : spec_float) :
  SFleb x y = true -> is_nan_sf x = false /\ is_nan_sf y = false.
Proof. destruct x, y; done. Qed.

Lemma SFeqb_true (x y : spec_float) :
  SFeqb x y = true -> is_nan_sf x = false /\ is_nan_sf y = false.
Proof. destruct x, y; done. Qed.

Lemma SFleb_nan_r (x : spec_float) : SFleb x S754_nan = false.
Proof. by destruct x. Qed.

(** *** From the specification to the primitive operations *)

Lemma Prim2SF_zero : Prim2SF PrimFloat.zero = S754_zero false.
Proof. reflexivity. Qed.
Lemma Prim2SF_one : Prim2SF PrimFloat.one = SFone64.
Proof. reflexivity. Qed.
Lemma Prim2SF_infinity : Prim2SF infinity = S754_infinity false.
Proof. reflexivity. Qed.
Lemma Prim2SF_neg_infinity : Prim2SF neg_infinity = S754_infinity true.
Proof. reflexivity. Qed.

Lemma is_nan_sf_spec (x : float) : PrimFloat.is_nan x = is_nan_sf (Prim2SF x).
Proof.
  unfold PrimFloat.is_nan. rewrite FloatAxioms.eqb_spec. pose proof (Prim2SF_valid x) as V.
  destruct (is_nan_sf (Prim2SF x)) eqn:N.
  - by destruct (Prim2SF x).
  - by rewrite SFeqb_sv, Z.eqb_refl.
Qed.

Lemma is_posinf_spec (x : float) :
  PrimFloat.eqb x infinity = true <-> Prim2SF x = S754_infinity false.
Proof.
  rewrite FloatAxioms.eqb_spec, Prim2SF_infinity.
  destruct (Prim2SF x) as [s|s| |s m e]; try destruct s; cbn; split; congruence.
Qed.

Lemma is_neginf_spec (x : float) :
  PrimFloat.eqb x neg_infinity = true <-> Prim2SF x = S754_infinity true.
Proof.
  rewrite FloatAxioms.eqb_spec, Prim2SF_neg_infinity.
  destruct (Prim2SF x) as [s|s| |s m e]; try destruct s; cbn; split; congruence.
Qed.

Lemma b64_leb_sv (x y : float) :
  PrimFloat.is_nan x = false -> PrimFloat.is_nan y = false ->
  PrimFloat.leb x y = (sv (Prim2SF x) <=? sv (Prim2SF y)).
Proof.
  rewrite !is_nan_sf_spec, leb_spec. intros. apply SFleb_sv; auto using Prim2SF_valid.
Qed.

Lemma b64_leb_true (x y : float) :
  PrimFloat.leb x y = true ->
  PrimFloat.is_nan x = false /\ PrimFloat.is_nan y = false /\
  sv (Prim2SF x) <= sv (Prim2SF y).
Proof.
  intros H. assert (H' := H). rewrite leb_spec in H'. apply SFleb_true in H'.
  rewrite <- !is_nan_sf_spec in H'. destruct H' as [Nx Ny].
  rewrite b64_leb_sv in H by done. apply Z.leb_le in H. auto.
Qed.

Lemma b64_leb_false (x y : float) :
  PrimFloat.is_nan x = false -> PrimFloat.is_nan y = false ->
  PrimFloat.leb x y = false -> sv (Prim2SF y) < sv (Prim2SF x).
Proof. intros Nx Ny. rewrite b64_leb_sv by done. intros H%Z.leb_gt. done. Qed.

Lemma b64_eqb_sv (x y : float) :
  PrimFloat.is_nan x = false -> PrimFloat.is_nan y = false ->
  PrimFloat.eqb x y = (sv (Prim2SF x) =? sv (Prim2SF y)).
Proof.
  rewrite !is_nan_sf_spec, FloatAxioms.eqb_spec. intros.
  apply SFeqb_sv; auto using Prim2SF_valid.
Qed.

Lemma b64_eqb_true (x y : float) :
  PrimFloat.eqb x y = true ->
  PrimFloat.is_nan x = false /\ PrimFloat.is_nan y = false /\
  sv (Prim2SF x) = sv (Prim2SF y).
Proof.
  intros H. assert (H' := H). rewrite FloatAxioms.eqb_spec in H'. apply SFeqb_true in H'.
  rewrite <- !is_nan_sf_spec in H'. destruct H' as [Nx Ny].
  rewrite b64_eqb_sv in H by done. apply Z.eqb_eq in H. auto.
Qed.

Lemma b64_sv_one : sv (Prim2SF PrimFloat.one) = 2 ^ 1074.
Proof. reflexivity. Qed.

Lemma b64_sv_zero : sv (Prim2SF PrimFloat.zero) = 0.
Proof. reflexivity. Qed.

(** The value of a difference. *)
Lemma b64_sub_cases (x y : float) :
  PrimFloat.is_nan x = false -> PrimFloat.is_nan y = false ->
  let X := Prim2SF x in let Y := Prim2SF y in let R := Prim2SF (x - y) in
  (is_inf_sf X = true /\ is_inf_sf Y = true /\ sv X = sv Y /\ PrimFloat.is_nan (x - y) = true) \/
  (PrimFloat.is_nan (x - y) = false /\
   ((is_inf_sf X = true /\ sv X <> sv Y /\ sv R = sv X) \/
    (is_inf_sf X = false /\ is_inf_sf Y = true /\ sv R = - sv Y) \/
    (is_inf_sf X = false /\ is_inf_sf Y = false /\ sv R = clip (RNZ (sv X - sv Y))))).
Proof.
  rewrite !is_nan_sf_spec, sub_spec. intros Nx Ny.
  apply SFsub_cases; auto using Prim2SF_valid.
Qed.

Lemma b64_sv_class (x : float) :
  PrimFloat.is_nan x = false ->
  let X := Prim2SF x in
  (is_inf_sf X = true /\ (sv X = OVF \/ sv X = - OVF)) \/
  (is_inf_sf X = false /\ is_finite_sf X = true /\ - OVF < sv X < OVF).
Proof. rewrite is_nan_sf_spec. apply sv_classify, Prim2SF_valid. Qed.

Lemma b64_sub_zero (x : float) : (x - PrimFloat.zero)%float = x.
Proof.
  apply Prim2SF_inj. rewrite sub_spec, Prim2SF_zero.
  by destruct (Prim2SF x) as [[]|[]| |].
Qed.

Lemma b64_div_one (x : float) : (x / PrimFloat.one)%float = x.
Proof.
  apply Prim2SF_inj. rewrite div_spec, Prim2SF_one. apply SFdiv_one, Prim2SF_valid.
Qed.

Lemma b64_is_nan_zero : PrimFloat.is_nan PrimFloat.zero = false.
Proof. reflexivity. Qed.

Lemma b64_is_nan_one : PrimFloat.is_nan PrimFloat.one = false.
Proof. reflexivity. Qed.

Ltac classify x :=
  let H := fresh "C" in
  pose proof (b64_sv_class x ltac:(assumption)) as H; cbv zeta in H.

Ltac cases :=
  repeat match goal with
         | H : _ /\ _ |- _ => destruct H
         | H : _ \/ _ |- _ => destruct H
         end;
  first [congruence | lia].

Lemma b64_le_refl (x : float) : PrimFloat.is_nan x = false -> PrimFloat.leb x x = true.
Proof. intros N. rewrite b64_leb_sv by done. apply Z.leb_refl. Qed.

Lemma b64_le_trans (x y z : float) :
  PrimFloat.leb x y = true -> PrimFloat.leb y z = true -> PrimFloat.leb x z = true.
Proof.
  intros (Nx & Ny & H1)%b64_leb_true (_ & Nz & H2)%b64_leb_true.
  rewrite b64_leb_sv by done. apply Z.leb_le. lia.
Qed.

Lemma b64_le_total (x y : float) :
  PrimFloat.is_nan x = false -> PrimFloat.is_nan y = false ->
  PrimFloat.leb x y = false -> PrimFloat.leb y x = true.
Proof.
  intros Nx Ny H%b64_leb_false; [|done..]. rewrite b64_leb_sv by done. apply Z.leb_le. lia.
Qed.

Lemma b64_le_nan_r (x y : float) :
  PrimFloat.is_nan y = true -> PrimFloat.leb x y = false.
Proof.
  rewrite is_nan_sf_spec, leb_spec. destruct (Prim2SF y); try discriminate.
  intros _. apply SFleb_nan_r.
Qed.

Lemma b64_posinf_above (x : float) :
  PrimFloat.eqb x infinity = true -> PrimFloat.leb x PrimFloat.one = false.
Proof. intros H%is_posinf_spec. by rewrite leb_spec, H. Qed.

Lemma b64_neginf_below (x : float) :
  PrimFloat.eqb x neg_infinity = true -> PrimFloat.leb PrimFloat.zero x = false.
Proof. intros H%is_neginf_spec. by rewrite leb_spec, H. Qed.

Lemma b64_sub_nan_r (x y : float) :
  PrimFloat.is_nan y = true -> PrimFloat.is_nan (x - y) = true.
Proof.
  rewrite !is_nan_sf_spec, sub_spec. destruct (Prim2SF y); try discriminate.
  intros _. by rewrite SFsub_nan_r.
Qed.

Lemma b64_div_nan_l (x y : float) :
  PrimFloat.is_nan x = true -> PrimFloat.is_nan (x / y) = true.
Proof.
  rewrite !is_nan_sf_spec, div_spec. by destruct (Prim2SF x); try discriminate.
Qed.

Lemma b64_div_nan_r (x y : float) :
  PrimFloat.is_nan y = true -> PrimFloat.is_nan (x / y) = true.
Proof.
  rewrite !is_nan_sf_spec, div_spec.
  destruct (Prim2SF y); try discriminate. by destruct (Prim2SF x).
Qed.

Lemma b64_sub_nonneg (x lo : float) :
  PrimFloat.leb lo x = true ->
  PrimFloat.is_nan (x - lo) = true \/ PrimFloat.leb PrimFloat.zero (x - lo) = true.
Proof.
  intros (Nl & Nx & H)%b64_leb_true. pose proof OVF_pos.
  destruct (b64_sub_cases x lo Nx Nl) as [(_ & _ & _ & N)|(N & Cs)]; [by left|right].
  rewrite b64_leb_sv, b64_sv_zero by done. apply Z.leb_le.
  classify x. classify lo.
  pose proof (clip_RNZ_sign (sv (Prim2SF x) - sv (Prim2SF lo))).
  cases.
Qed.

Lemma b64_sub_mono (x y lo : float) :
  PrimFloat.leb x y = true ->
  PrimFloat.is_nan (x - lo) = true \/ PrimFloat.is_nan (y - lo) = true \/
  PrimFloat.leb (x - lo) (y - lo) = true.
Proof.
  intros (Nx & Ny & H)%b64_leb_true. pose proof OVF_pos.
  destruct (PrimFloat.is_nan lo) eqn:Nl; [left; by apply b64_sub_nan_r|].
  destruct (b64_sub_cases x lo Nx Nl) as [(_ & _ & _ & N1)|(N1 & C1)]; [by left|].
  destruct (b64_sub_cases y lo Ny Nl) as [(_ & _ & _ & N2)|(N2 & C2)]; [right; by left|].
  right; right. rewrite b64_leb_sv by done. apply Z.leb_le.
  classify x. classify y. classify lo.
  pose proof (clip_bounds (RNZ (sv (Prim2SF x) - sv (Prim2SF lo)))).
  pose proof (clip_bounds (RNZ (sv (Prim2SF y) - sv (Prim2SF lo)))).
  pose proof (clip_mono _ _ (RNZ_mono (sv (Prim2SF x) - sv (Prim2SF lo))
                                      (sv (Prim2SF y) - sv (Prim2SF lo)) ltac:(lia))).
  cases.
Qed.

(** A quotient [a / b] with [0 <= a <= b]. *)
Lemma SFdiv_unit (A B : spec_float) :
  valid A = true -> valid B = true ->
  is_nan_sf A = false -> is_nan_sf B = false ->
  0 <= sv A <= sv B ->
  let R := SFdiv prec emax A B in
  is_nan_sf R = true \/ (is_nan_sf R = false /\ 0 <= sv R <= 2 ^ 1074).
Proof.
  intros HA HB NA NB [H0 Hle] R. pose proof OVF_pos. unfold R.
  assert (0 < 2 ^ 1074) by (apply Z.pow_pos_nonneg; lia).
  destruct A as [sa|sa| |sa ma ea]; try discriminate.
  - destruct B as [sb|sb| |sb mb eb]; try discriminate;
      [by left|right; simpl; lia..].
  - destruct sa; [simpl in H0; lia|].
    destruct B as [sb|sb| |sb mb eb]; try discriminate; [simpl in *; lia|by left|].
    pose proof (finite_value_bounds _ _ _ HB). destruct sb; simpl in *; lia.
  - pose proof (finite_value_bounds _ _ _ HA) as BA.
    destruct sa; [simpl in H0; lia|].
    destruct B as [sb|sb| |sb mb eb]; try discriminate.
    + simpl in *; lia.
    + destruct sb; [simpl in *; lia|]. right. simpl. lia.
    + pose proof (finite_value_bounds _ _ _ HB) as BB.
      destruct sb; [simpl in *; lia|]. right. cbn [sv sgn] in Hle.
      destruct (Z.compare_spec (Zpos ma * 2 ^ (ea + 1074)) (Zpos mb * 2 ^ (eb + 1074)))
        as [Heq|Hlt|Hgt]; [|by apply SFdiv_lt|lia].
      apply Z.compare_eq_iff in Heq. rewrite (finite_value_compare false false) in Heq by done.
      destruct (Z.compare_spec ea eb) as [->| |]; try discriminate.
      apply Pos.compare_eq in Heq as ->. rewrite SFdiv_same.
      split; [done|]. change (0 <= 2 ^ 1074 <= 2 ^ 1074). lia.
Qed.

Lemma b64_div_unit (a b : float) :
  PrimFloat.leb PrimFloat.zero a = true -> PrimFloat.leb a b = true ->
  PrimFloat.is_nan (a / b) = true \/
  (PrimFloat.leb PrimFloat.zero (a / b) = true /\
   PrimFloat.leb (a / b) PrimFloat.one = true).
Proof.
  intros (_ & Na & H0)%b64_leb_true (_ & Nb & Hle)%b64_leb_true. rewrite b64_sv_zero in H0.
  pose proof (SFdiv_unit (Prim2SF a) (Prim2SF b) (Prim2SF_valid a) (Prim2SF_valid b)) as H.
  rewrite <- !is_nan_sf_spec in H. specialize (H Na Nb ltac:(lia)). cbv zeta in H.
  rewrite <- div_spec, <- is_nan_sf_spec in H. destruct H as [N|[N B]]; [by left|].
  right. rewrite !b64_leb_sv, b64_sv_zero, b64_sv_one by done. split; apply Z.leb_le; lia.
Qed.

(** *** Zeros and signs *)

Lemma sv_zero_inv (X : spec_float) :
  valid X = true -> is_nan_sf X = false -> sv X = 0 -> exists s, X = S754_zero s.
Proof.
  intros HX NX H0. pose proof OVF_pos. destruct X as [s|s| |s m e]; try discriminate.
  - by exists s.
  - destruct s; cbn [sv sgn] in H0; lia.
  - pose proof (finite_value_bounds _ _ _ HX). destruct s; cbn [sv sgn] in H0; lia.
Qed.

Lemma sv_pos_inv (X : spec_float) :
  valid X = true -> is_nan_sf X = false -> 0 < sv X ->
  X = S754_infinity false \/ exists m e, X = S754_finite false m e.
Proof.
  intros HX NX H0. pose proof OVF_pos. destruct X as [s|s| |s m e]; try discriminate.
  - destruct s; [cbn [sv sgn] in H0; lia|by left].
  - pose proof (finite_value_bounds _ _ _ HX).
    destruct s; [cbn [sv sgn] in H0; lia|right; eauto].
Qed.

Lemma sv_neg_inv (X : spec_float) :
  valid X = true -> is_nan_sf X = false -> sv X < 0 ->
  X = S754_infinity true \/ exists m e, X = S754_finite true m e.
Proof.
  intros HX NX H0. pose proof OVF_pos. destruct X as [s|s| |s m e]; try discriminate.
  - destruct s; [by left|cbn [sv sgn] in H0; lia].
  - pose proof (finite_value_bounds _ _ _ HX).
    destruct s; [right; eauto|cbn [sv sgn] in H0; lia].
Qed.

Lemma b64_eqb_zero (d : float) :
  PrimFloat.eqb d PrimFloat.zero = true -> exists s, Prim2SF d = S754_zero s.
Proof.
  intros (Nd & _ & H)%b64_eqb_true. rewrite b64_sv_zero in H.
  rewrite is_nan_sf_spec in Nd. eapply sv_zero_inv; eauto using Prim2SF_valid.
Qed.

Lemma isfinite_not_inf (a : float) :
  f_isfinite (FL:=binary64) a = true ->
  PrimFloat.is_nan a = false /\ is_inf_sf (Prim2SF a) = false.
Proof.
  unfold f_isfinite. cbn [f_isnan f_isposinf f_isneginf binary64].
  rewrite !andb_true_iff, !negb_true_iff. intros [[N P] M]. split; [done|].
  destruct (Prim2SF a) as [s|s| |s m e] eqn:E; try done.
  destruct s.
  - apply is_neginf_spec in E. congruence.
  - apply is_posinf_spec in E. congruence.
Qed.

Lemma b64_sub_eq (a b : float) :
  f_isfinite (FL:=binary64) a = true -> PrimFloat.eqb a b = true ->
  PrimFloat.eqb (a - b) PrimFloat.zero = true.
Proof.
  intros [_ Ia]%isfinite_not_inf (Na & Nb & H)%b64_eqb_true. pose proof OVF_pos.
  classify a. classify b.
  pose proof (clip_RNZ_sign (sv (Prim2SF a) - sv (Prim2SF b))) as (_ & _ & Hz).
  destruct (b64_sub_cases a b Na Nb) as [(? & _)|(N & Cs)]; [congruence|].
  rewrite b64_eqb_sv, b64_sv_zero by done. apply Z.eqb_eq. cases.
Qed.

Lemma b64_sq_zero (d : float) :
  PrimFloat.eqb d PrimFloat.zero = true -> (d * d)%float = PrimFloat.zero.
Proof.
  intros [s E]%b64_eqb_zero. apply Prim2SF_inj. rewrite mul_spec, E. by destruct s.
Qed.

Lemma of_count_sf (n : nat) :
  (0 < n)%nat -> Z.of_nat n < 2 ^ 63 ->
  let X := Prim2SF (PrimFloat.of_uint63 (Uint63.of_Z (Z.of_nat n))) in
  X = S754_infinity false \/ exists m e, X = S754_finite false m e.
Proof.
  intros Hn Hlt X. unfold X. rewrite of_uint63_spec, Uint63.of_Z_spec.
  change wB with (2 ^ 63). rewrite Z.mod_small by lia.
  destruct (Z.of_nat n) as [|p|p] eqn:E; try lia.
  destruct (binary_round_sv false p 0 ltac:(lia)) as [[R _]|(m & e & R & _)];
    unfold binary_normalize; rewrite R; eauto.
Qed.

Lemma b64_zero_div_count (n : nat) :
  (0 < n)%nat -> Z.of_nat n < 2 ^ 63 ->
  (PrimFloat.zero / PrimFloat.of_uint63 (Uint63.of_Z (Z.of_nat n)))%float = PrimFloat.zero.
Proof.
  intros Hn Hlt. apply Prim2SF_inj. rewrite div_spec.
  by destruct (of_count_sf n Hn Hlt) as [->|(m & e & ->)].
Qed.

Lemma b64_zero_div_zero (d : float) :
  PrimFloat.eqb d PrimFloat.zero = true -> PrimFloat.is_nan (d / PrimFloat.zero) = true.
Proof. intros [s E]%b64_eqb_zero. by rewrite is_nan_sf_spec, div_spec, E. Qed.

Lemma b64_sub_pos (a b : float) :
  PrimFloat.is_nan a = false -> PrimFloat.is_nan b = false ->
  PrimFloat.leb a b = false ->
  PrimFloat.is_nan (a - b) = false /\ PrimFloat.leb (a - b) PrimFloat.zero = false.
Proof.
  intros Na Nb H%b64_leb_false; [|done..]. pose proof OVF_pos.
  classify a. classify b.
  pose proof (clip_RNZ_sign (sv (Prim2SF a) - sv (Prim2SF b))) as (Hp & _ & _).
  destruct (b64_sub_cases a b Na Nb) as [(_ & _ & ? & _)|(N & Cs)]; [lia|].
  split; [done|]. rewrite b64_leb_sv, b64_sv_zero by done. apply Z.leb_gt. cases.
Qed.

Lemma b64_sub_neg (a b : float) :
  PrimFloat.is_nan a = false -> PrimFloat.is_nan b = false ->
  PrimFloat.leb b a = false ->
  PrimFloat.is_nan (a - b) = false /\ PrimFloat.leb PrimFloat.zero (a - b) = false.
Proof.
  intros Na Nb H%b64_leb_false; [|done..]. pose proof OVF_pos.
  classify a. classify b.
  pose proof (clip_RNZ_sign (sv (Prim2SF a) - sv (Prim2SF b))) as (_ & Hn & _).
  destruct (b64_sub_cases a b Na Nb) as [(_ & _ & ? & _)|(N & Cs)]; [lia|].
  split; [done|]. rewrite b64_leb_sv, b64_sv_zero by done. apply Z.leb_gt. cases.
Qed.

Lemma b64_pos_div_zero (p : float) :
  PrimFloat.is_nan p = false -> PrimFloat.leb p PrimFloat.zero = false ->
  PrimFloat.is_nan (p / PrimFloat.zero) = false /\
  PrimFloat.eqb (p / PrimFloat.zero) infinity = true.
Proof.
  intros Np H%b64_leb_false; [|done..]. rewrite b64_sv_zero in H.
  assert (Prim2SF (p / PrimFloat.zero) = S754_infinity false) as E.
  { rewrite div_spec. rewrite is_nan_sf_spec in Np.
    by destruct (sv_pos_inv _ (Prim2SF_valid p) Np H) as [->|(m & e & ->)]. }
  split; [by rewrite is_nan_sf_spec, E|by apply is_posinf_spec].
Qed.

Lemma b64_neg_div_zero (p : float) :
  PrimFloat.is_nan p = false -> PrimFloat.leb PrimFloat.zero p = false ->
  PrimFloat.is_nan (p / PrimFloat.zero) = false /\
  PrimFloat.eqb (p / PrimFloat.zero) infinity = false /\
  PrimFloat.eqb (p / PrimFloat.zero) neg_infinity = true.
Proof.
  intros Np H%b64_leb_false; [|done..]. rewrite b64_sv_zero in H.
  assert (Prim2SF (p / PrimFloat.zero) = S754_infinity true) as E.
  { rewrite div_spec. rewrite is_nan_sf_spec in Np.
    by destruct (sv_neg_inv _ (Prim2SF_valid p) Np H) as [->|(m & e & ->)]. }
  split; [by rewrite is_nan_sf_spec, E|]. split; [|by apply is_neginf_spec].
  destruct (PrimFloat.eqb _ infinity) eqn:P; [|done].
  apply is_posinf_spec in P. congruence.
Qed.

Lemma b64_eq_not_nan (a b : float) :
  PrimFloat.eqb a b = true -> PrimFloat.is_nan a = false /\ PrimFloat.is_nan b = false.
Proof. intros (? & ? & _)%b64_eqb_true. done. Qed.

End Binary64Facts.

(** The three families of laws, for the hardware doubles. *)
#[export] Instance binary64_order : OrderLaws binary64.
Proof.
  split.
  - exact Binary64Facts.b64_le_refl.
  - exact Binary64Facts.b64_le_trans.
  - exact Binary64Facts.b64_le_total.
  - exact Binary64Facts.b64_le_nan_r.
  - reflexivity.
  - exact Binary64Facts.b64_posinf_above.
  - exact Binary64Facts.b64_neginf_below.
  - exact Binary64Facts.b64_sub_nan_r.
  - exact Binary64Facts.b64_div_nan_l.
  - exact Binary64Facts.b64_div_nan_r.
  - exact Binary64Facts.b64_sub_nonneg.
  - exact Binary64Facts.b64_sub_mono.
  - exact Binary64Facts.b64_div_unit.
Qed.

#[export] Instance binary64_identity : IdentityLaws binary64.
Proof. split; [exact Binary64Facts.b64_sub_zero|exact Binary64Facts.b64_div_one]. Qed.

#[export] Instance binary64_zero : ZeroLaws binary64.
Proof.
  split.
  - exact Binary64Facts.b64_eq_not_nan.
  - exact Binary64Facts.b64_sub_eq.
  - exact Binary64Facts.b64_sq_zero.
  - reflexivity.
  - exact Binary64Facts.b64_zero_div_count.
  - reflexivity.
  - exact Binary64Facts.b64_zero_div_zero.
  - exact Binary64Facts.b64_sub_pos.
  - exact Binary64Facts.b64_pos_div_zero.
  - exact Binary64Facts.b64_sub_neg.
  - exact Binary64Facts.b64_neg_div_zero.
Qed.

(** ** The transforms on hardware doubles *)
Section DoubleTransforms.
Local Open Scope float_scope.

(** C6: min-max scaling of a matrix of doubles with its own minimum and
    maximum gives a matrix whose entries all lie in [0, 1]; this holds
    for every matrix, whatever NaNs and infinities it contains. *)
Theorem train_X_norm_in_unit (X M : list (list float)) :
  train_X_norm (FL:=binary64) X = Some M ->
  Forall (Forall (in_unit (FL:=binary64))) M.
Proof. apply (own_range_in_unit (FL:=binary64)). Qed.

(** C7, as the code has it: with the statistics of data that is already
    scaled (minimum 0 and maximum 1, resp. column means 0 and standard
    deviations 1) a transform of doubles applied twice gives what it gives
    applied once. *)
Theorem idempotent_at_identity_statistics (m : nat) (X : list (list float)) :
  has_cols (FL:=binary64) m X ->
  minmax_with (FL:=binary64) 0 1 (minmax_with (FL:=binary64) 0 1 X)
    = minmax_with (FL:=binary64) 0 1 X /\
  standardize_with (FL:=binary64) (replicate m 0) (replicate m 1)
      (standardize_with (FL:=binary64) (replicate m 0) (replicate m 1) X)
    = standardize_with (FL:=binary64) (replicate m 0) (replicate m 1) X.
Proof. apply (identity_statistics_idempotent (FL:=binary64)). Qed.

End DoubleTransforms.

(** ** Shuffle and split *)
Section SplitProofs.
Context {rng : Type}.
Variable RandomState : Z -> rng.
Variable rk_interval : nat -> rng -> nat * rng.
(** A draw of [rk_interval max] is at most [max]. *)
Hypothesis rk_interval_le : forall max st, (rk_interval max st).1 <= max.

Lemma insert_Permutation {A} (l : list A) (i : nat) (x y : A) :
  l !! i = Some y -> <[i := x]> l ≡ₚ x :: delete i l.
Proof.
  intros Hi.
  rewrite (delete_Permutation (<[i:=x]> l) i x)
    by (apply list_lookup_insert_eq; by eapply lookup_lt_Some).
  by rewrite !delete_take_drop, take_insert_ge, drop_insert_lt by lia.
Qed.

Lemma swap_Some {A} (x : list A) (i j : nat) :
  i < length x -> j < length x ->
  exists x', swap x i j = Some x' /\ x' ≡ₚ x.
Proof.
  intros [xi Hi]%lookup_lt_is_Some [xj Hj]%lookup_lt_is_Some.
  unfold swap. rewrite Hi, Hj. simpl. eexists. split; [done|].
  destruct (decide (i = j)) as [->|Hne].
  - assert (xi = xj) as -> by congruence.
    by rewrite (list_insert_id x j xj), (list_insert_id x j xj).
  - assert (<[i:=xj]> x !! j = Some xj) as Hj'
      by (by rewrite list_lookup_insert_ne).
    etrans; [apply (insert_Permutation _ j xi xj Hj')|].
    etrans; [|symmetry; apply (delete_Permutation x i xi Hi)].
    apply Permutation_skip, (Permutation_cons_inv (a := xj)).
    etrans; [symmetry; apply (delete_Permutation _ j xj Hj')|].
    by apply insert_Permutation with xi.
Qed.

Lemma shuffle_down_Some {A} (i : nat) (x : list A) (st : rng) :
  i < length x ->
  exists x' st', shuffle_down rk_interval i x st = Some (x', st') /\ x' ≡ₚ x.
Proof.
  revert x st. induction i as [|i IH]; intros x st Hi; simpl.
  - by exists x, st.
  - pose proof (rk_interval_le (S i) st) as Hj.
    destruct (rk_interval (S i) st) as [j st'] eqn:Hrk. simpl in Hj.
    destruct (swap_Some x (S i) j) as (x1 & -> & Hx1); [lia..|]. simpl.
    destruct (IH x1 st') as (x2 & st2 & -> & Hx2).
    { rewrite (Permutation_length Hx1). lia. }
    exists x2, st2. split; [done|]. by etrans.
Qed.

Lemma rs_shuffle_Some {A} (x : list A) (st : rng) :
  exists x' st', rs_shuffle rk_interval x st = Some (x', st') /\ x' ≡ₚ x.
Proof.
  unfold rs_shuffle. destruct x as [|a x].
  - simpl. by exists [], st.
  - apply shuffle_down_Some. simpl. lia.
Qed.

Lemma safe_indexing_Some {A} (a : list A) (indices : list nat) :
  Forall (fun i => i < length a) indices ->
  exists a', safe_indexing a indices = Some a' /\ length a' = length indices.
Proof.
  intros Hall. unfold safe_indexing.
  destruct (mapM (fun i => a !! i) indices) as [a'|] eqn:Hm.
  - exists a'. split; [done|]. apply mapM_Some_1, Forall2_length in Hm. done.
  - exfalso. assert (is_Some (mapM (fun i => a !! i) indices)) as [? ?].
    { apply mapM_is_Some_2. eapply Forall_impl; [exact Hall|].
      simpl. intros i Hi. by apply lookup_lt_is_Some. }
    congruence.
Qed.

(** The shuffle with an integer seed: it returns, keeps the lengths, and
    neither reads nor changes the process-wide generator. *)
Lemma sk_shuffle_seed {A B} (X : list A) (y : list B) (seed : Z) :
  length X = length y ->
  exists X' y', length X' = length X /\ length y' = length y /\
    forall g, sk_shuffle RandomState rk_interval X y (RSSeed seed) g = Some (X', y', g).
Proof.
  intros Hlen. unfold sk_shuffle.
  destruct (rs_shuffle_Some (seq 0 (length X)) (RandomState seed))
    as (idx & st' & Hidx & Hperm).
  assert (Forall (fun i => i < length X) idx) as Hlt.
  { rewrite Hperm. apply Forall_seq. intros; lia. }
  destruct (safe_indexing_Some X idx Hlt) as (X' & HX' & HlX).
  destruct (safe_indexing_Some y idx) as (y' & Hy' & Hly).
  { by rewrite <- Hlen. }
  exists X', y'.
  assert (length idx = length X) as Hli.
  { by rewrite (Permutation_length Hperm), length_seq. }
  split; [congruence|]. split; [congruence|]. intros g.
  rewrite Hlen, Nat.eqb_refl. simpl. rewrite <- Hlen, Hidx. simpl.
  rewrite HX'. simpl. rewrite Hy'. done.
Qed.

(** C4: on 800 rows of features and labels the cell returns 600 training
    and 200 testing rows of each, and the same ones whatever the state of
    the process-wide generator when it runs; that state is left as it is. *)
Theorem split_800_deterministic {A B} (features : list A) (labels : list B) :
  length features = 800 -> length labels = 800 ->
  exists d : split_data A B,
    (forall g, shuffle_and_split RandomState rk_interval features labels g
               = Some (d, g)) /\
    length (train_X d) = 600 /\ length (test_X d) = 200 /\
    length (train_y d) = 600 /\ length (test_y d) = 200.
Proof.
  intros Hf Hl.
  destruct (sk_shuffle_seed features labels 0 ltac:(congruence))
    as (X' & y' & HX & Hy & Hrun).
  assert (floor_three_quarters (length y') = Some 600) as Hsplit
    by (rewrite Hy, Hl; reflexivity).
  exists (SplitData (take 600 X') (take 600 y') (drop 600 X') (drop 600 y')). split.
  - intros g. unfold shuffle_and_split. rewrite Hrun. simpl. by rewrite Hsplit.
  - simpl. rewrite !length_take, !length_drop, HX, Hy, Hf, Hl. done.
Qed.
End SplitProofs.

(** ** One-hot rows and their argmax *)
Section Labels.
Lemma argmax_loop_below (mp : Z) (max_ind i : nat) (ip : list Z) :
  Forall (fun x => (x <= mp)%Z) ip -> argmax_loop mp max_ind i ip = max_ind.
Proof.
  intros Hall. revert i. induction Hall as [|x ip Hx _ IH]; intros i; simpl; [done|].
  destruct (Z.ltb_spec mp x); [lia|]. apply IH.
Qed.

Lemma argmax_loop_one (max_ind i k m : nat) :
  k < m ->
  argmax_loop 0 max_ind i (<[k := 1%Z]> (replicate m 0%Z)) = i + k.
Proof.
  revert max_ind i k. induction m as [|m IH]; intros max_ind i k Hk; [lia|].
  destruct k as [|k]; simpl.
  - rewrite argmax_loop_below; [lia|].
    apply Forall_replicate. lia.
  - rewrite IH by lia. lia.
Qed.

Lemma argmax_one_hot (nb_classes y : nat) :
  y < nb_classes -> np_argmax (one_hot nb_classes y) = Some y.
Proof.
  intros Hy. unfold one_hot. destruct nb_classes as [|n]; [lia|].
  destruct y as [|y]; simpl.
  - rewrite argmax_loop_below; [done|]. apply Forall_replicate. lia.
  - rewrite argmax_loop_one by lia. done.
Qed.

(** Decoding what [to_categorical] encodes gives the class indices back. *)
Lemma decode_to_categorical (ys : list nat) (Y : list (list Z)) :
  to_categorical ys = Some Y -> decode_labels Y = Some ys.
Proof.
  unfold to_categorical, decode_labels. destruct ys as [|y0 ys0] eqn:E; [done|].
  rewrite <- E. intros [= <-]. apply mapM_Some_2.
  apply Forall2_fmap_l, Forall_Forall2_diag, Forall_forall. intros y Hy.
  apply argmax_one_hot. apply max_list_elem_of_le in Hy. lia.
Qed.

(** C10: the argmax of the one-hot row of a class index below the number
    of classes is that index. *)
Theorem one_hot_round_trip (nb_classes y : nat) :
  y < nb_classes -> np_argmax (one_hot nb_classes y) = Some y.
Proof. apply argmax_one_hot. Qed.

(** C8, as the code has it: whatever the number of inputs and whatever
    the labels of the dataset, the softmax layer of the model has 18
    units; it has as many units as there are distinct labels exactly when
    there are 18 distinct labels. *)
Theorem softmax_layer_has_18_units (num_inputs : nat) (labels : list string) :
  softmax_units (get_model num_inputs) = Some 18 /\
  (softmax_units (get_model num_inputs) = Some (label_cardinality labels)
   <-> label_cardinality labels = 18).
Proof.
  split; [reflexivity|]. simpl. split; [by intros [= ->]|by intros ->].
Qed.
End Labels.

(** ** The save of the trial history *)
Section SaveTrials.
Import Py.

Lemma name_e_unbound (out : list string) :
  name notebook_globals "e" out = (inl (NameError "e"), out).
Proof. reflexivity. Qed.

(** Whatever exception the serialization raises, the cell ends with a
    [NameError] raised by the [except] clause and prints nothing. *)
Lemma save_trials_not_caught (dump : py unit) (out out' : list string) (x : exn) :
  dump out = (inl x, out') ->
  save_trials notebook_globals dump out = (inl (NameError "e"), out').
Proof.
  intros Hdump. unfold save_trials, try_except. rewrite Hdump.
  by rewrite name_e_unbound.
Qed.

(** When the serialization succeeds the clause is not evaluated. *)
Lemma save_trials_success (dump : py unit) (out out' : list string) :
  dump out = (inr tt, out') ->
  save_trials notebook_globals dump out = (inr tt, out').
Proof. intros Hdump. unfold save_trials, try_except. by rewrite Hdump. Qed.
End SaveTrials.

(* ================================================================== *)
(** * The results on concrete inputs *)

Section Doubles.
Lemma float_eq_eqb (x y : float) :
  x = y -> PrimFloat.is_nan x = false -> PrimFloat.eqb x y = true.
Proof.
  intros <-. unfold PrimFloat.is_nan. by intros ->%negb_false_iff.
Qed.

(** The end-to-end scenario of min-max scaling. *)
Example minmax_scenario :
  train_X_norm (FL:=binary64) demo_train = Some [[0; 1]; [0.5; 0.5]; [1; 0]]%float.
Proof. vm_compute. reflexivity. Qed.

(** The split point of the notebook, and of neighbouring lengths. *)
Example split_point_800 :
  floor_three_quarters 800 = Some 600 /\ floor_three_quarters 801 = Some 600 /\
  floor_three_quarters 802 = Some 601 /\ floor_three_quarters 0 = Some 0.
Proof. repeat split; reflexivity. Qed.

(** C1: when [pickle.dump] fails with a [FileNotFoundError], the cell
    does not catch it: evaluating the clause [except e] raises a
    [NameError], which leaves the cell, and nothing is printed; with the
    clause [except Exception as e] the message would be printed and the
    cell would end normally. *)
Lemma save_failure_not_caught :
  Py.save_trials Py.notebook_globals dump_fails [] = (inl (Py.NameError "e"), []) /\
  Py.save_trials_as dump_fails [] = (inr tt, [Py.exn_msg FileNotFoundError]).
Proof. split; reflexivity. Qed.


(** With rounding the training column need not be zero either: the mean
    of three copies of 0.1 is not 0.1, and the standardized column is -1. *)
Example rounded_mean_column :
  np_mean0 (FL:=binary64) tenth_train = [0x1.999999999999bp-4%float] /\
  train_X_std (FL:=binary64) tenth_train = [[-1]; [-1]; [-1]]%float.
Proof. split; reflexivity. Qed.

(** The order of the additions shows in the last bit of the mean.  The
    eight entries of a single column are summed pairwise: the sum is
    exactly 0.8, the mean is 0.1, the deviation 0 and the standardized
    column is zero.  In a matrix of two columns the rows are added one
    after the other: each mean is 0.09999999999999999, the deviation is
    [2^-56], and the standardized columns are 1. *)
Example summation_order :
  np_mean0 (FL:=binary64) eight_tenths = [tenth] /\
  np_std0 (FL:=binary64) eight_tenths = [0%float] /\
  train_X_std (FL:=binary64) eight_tenths = replicate 8 [0%float] /\
  np_mean0 (FL:=binary64) eight_tenths2
    = [0x1.9999999999999p-4; 0x1.9999999999999p-4]%float /\
  np_std0 (FL:=binary64) eight_tenths2 = [0x1p-56; 0x1p-56]%float /\
  train_X_std (FL:=binary64) eight_tenths2 = replicate 8 [1; 1]%float.
Proof. repeat split; reflexivity. Qed.

(** C3 fails on an infinite quotient: scaled with the statistics of a
    constant training matrix, the test entry 7 gives the quotient +inf,
    which becomes the largest finite double, not zero. *)
Lemma infinite_quotient_not_zero :
  div_scalar (FL:=binary64) (sub_scalar [[7]]%float 5%float) (5 - 5)%float
    = [[infinity]] /\
  test_X_norm (FL:=binary64) [[5; 5]]%float [[7]]%float = Some [[f_max]] /\
  (f_max (Float64:=binary64)) <> f_zero.
Proof.
  split; [reflexivity|]. split; [reflexivity|]. intros H.
  apply float_eq_eqb in H; [discriminate H|reflexivity].
Qed.

(** C7 fails: with minimum 0 and maximum 2 (resp. mean 0 and standard
    deviation 2) the entry 1 becomes 0.5, and 0.5 becomes 0.25. *)
Lemma rescaling_not_idempotent :
  (minmax_with (FL:=binary64) 0 2 (minmax_with 0 2 [[1]])
    <> minmax_with 0 2 [[1]])%float /\
  (standardize_with (FL:=binary64) [0] [2] (standardize_with [0] [2] [[1]])
    <> standardize_with [0] [2] [[1]])%float.
Proof.
  split; intros H;
    apply (f_equal (fun M => match M with [[x]] => x | _ => 0%float end)) in H;
    vm_compute in H;
    (apply float_eq_eqb in H; [discriminate H|reflexivity]).
Qed.

(** C8 fails on a dataset with two distinct labels: the softmax layer
    still has 18 units. *)
Lemma softmax_units_not_cardinality :
  label_cardinality ["Grass"; "Fire"; "Grass"] = 2 /\
  softmax_units (get_model 6) <> Some (label_cardinality ["Grass"; "Fire"; "Grass"]).
Proof. split; [reflexivity|]. vm_compute. discriminate. Qed.
End Doubles.

(** Witnesses on hardware doubles, integers and strings. *)
Section Witnesses.
Lemma lcg_interval_le (max : nat) (st : Z) : (lcg_interval max st).1 <= max.
Proof.
  unfold lcg_interval. simpl.
  pose proof (Z.mod_pos_bound st (Z.of_nat max + 1) ltac:(lia)). lia.
Defined.

Lemma nan_to_num_coerces_witness :
  Forall2 (Forall2 (replaced (FL:=binary64)))
    (div_rows (FL:=binary64)
       (sub_rows (FL:=binary64) const_test (np_mean0 (FL:=binary64) const_train))
       (np_std0 (FL:=binary64) const_train))
    (standardize (FL:=binary64) const_test const_train).
Proof.
  exact (proj2 (nan_to_num_coerces (FL:=binary64) (CL:=binary64_classify)
                  const_test const_train)).
Defined.

Lemma split_800_deterministic_witness :
  exists d : split_data nat nat,
    (forall g, shuffle_and_split lcg_seed lcg_interval (seq 0 800) (seq 1000 800) g
               = Some (d, g)) /\
    length (train_X d) = 600 /\ length (test_X d) = 200 /\
    length (train_y d) = 600 /\ length (test_y d) = 200.
Proof.
  apply (split_800_deterministic lcg_seed lcg_interval lcg_interval_le);
    apply length_seq.
Defined.

Lemma statistics_from_train_only_witness :
  exists lo hi s1' s2',
    np_min (FL:=binary64) demo_train = Some lo /\ np_max demo_train = Some hi /\
    preprocessing_cell demo_store = Some (tt, s1') /\
    preprocessing_cell demo_store' = Some (tt, s2') /\
    value_of "test_X_norm" s1' = Some (minmax_with lo hi [[20; 5]]%float) /\
    value_of "test_X_norm" s2' = Some (minmax_with lo hi [[-3; 7]; [2; 2]]%float) /\
    value_of "test_X_std" s1' =
      Some (standardize_with (np_mean0 demo_train) (np_std0 demo_train) [[20; 5]]%float) /\
    value_of "test_X_std" s2' =
      Some (standardize_with (np_mean0 demo_train) (np_std0 demo_train)
              [[-3; 7]; [2; 2]]%float) /\
    value_of "train_X_norm" s1' = Some (minmax_with lo hi demo_train) /\
    value_of "train_X_norm" s2' = Some (minmax_with lo hi demo_train) /\
    value_of "train_X_std" s1' =
      Some (standardize_with (np_mean0 demo_train) (np_std0 demo_train) demo_train) /\
    value_of "train_X_std" s2' =
      Some (standardize_with (np_mean0 demo_train) (np_std0 demo_train) demo_train).
Proof.
  apply (statistics_from_train_only demo_store demo_store');
    [reflexivity..|discriminate].
Defined.

Lemma inputs_not_mutated_witness :
  exists s', preprocessing_cell demo_store = Some (tt, s') /\
    env s' !! "train_X" = Some 0%nat /\
    env s' !! "test_X" = Some 1%nat /\
    heap demo_store `prefix_of` heap s' /\
    value_of "train_X" s' = Some demo_train /\
    value_of "test_X" s' = Some [[20; 5]]%float /\
    Forall (newly_bound demo_store s') outputs.
Proof.
  apply (inputs_not_mutated demo_store demo_train [[20; 5]]%float);
    [reflexivity..|discriminate].
Defined.

Lemma one_hot_round_trip_witness :
  7 < 18 /\ np_argmax (one_hot 18 7) = Some 7.
Proof. split; [lia|]. apply (one_hot_round_trip 18 7). lia. Defined.

Lemma train_X_norm_in_unit_witness :
  exists M, train_X_norm (FL:=binary64) demo_train = Some M /\
            Forall (Forall (in_unit (FL:=binary64))) M.
Proof.
  eexists. split; [reflexivity|].
  apply (train_X_norm_in_unit demo_train). reflexivity.
Defined.

Lemma idempotent_at_identity_statistics_witness :
  (minmax_with (FL:=binary64) 0 1 (minmax_with (FL:=binary64) 0 1 demo_train)
    = minmax_with (FL:=binary64) 0 1 demo_train /\
  standardize_with (FL:=binary64) (replicate 2 0) (replicate 2 1)
      (standardize_with (FL:=binary64) (replicate 2 0) (replicate 2 1) demo_train)
    = standardize_with (FL:=binary64) (replicate 2 0) (replicate 2 1) demo_train)%float.
Proof.
  apply (idempotent_at_identity_statistics 2 demo_train).
  by repeat constructor.
Defined.
End Witnesses.

(* ================================================================== *)
(** * Further properties of the notebooks *)

(** ** The loader *)
Section Loader.
Lemma read_rows_Some (reader : list (list string)) fs ls :
  Forall (fun row => 3 <= length row) reader ->
  exists names, Forall2 (fun row l => row !! 2 = Some l) reader names /\
    read_rows reader fs ls = Some (fs ++ map (slice 5 11) reader, ls ++ names).
Proof.
  intros Hall. revert fs ls.
  induction Hall as [|row reader Hrow _ IH]; intros fs ls.
  - exists []. split; [constructor|]. simpl. by rewrite !app_nil_r.
  - destruct (lookup_lt_is_Some_2 row 2 ltac:(lia)) as [l Hl].
    destruct (IH (fs ++ [slice 5 11 row]) (ls ++ [l])) as (names & Hn & Hrun).
    exists (l :: names). split; [by constructor|].
    simpl. rewrite Hl. simpl. rewrite Hrun. by rewrite <- !app_assoc.
Qed.

Lemma read_rows_None (reader : list (list string)) fs ls :
  Exists (fun row => length row < 3) reader -> read_rows reader fs ls = None.
Proof.
  intros Hex. revert fs ls. induction reader as [|row reader IH]; intros fs ls.
  - by apply Exists_nil in Hex.
  - simpl. destruct (row !! 2) as [l|] eqn:Hl; [|done]. simpl.
    apply IH. apply Exists_cons in Hex as [Hrow|Hex]; [|done].
    apply lookup_lt_Some in Hl. lia.
Qed.

Lemma slice_length {A} (lo hi : nat) (l : list A) :
  length (slice lo hi l) = (hi - lo) `min` (length l - lo).
Proof. unfold slice. by rewrite length_take, length_drop. Qed.

Lemma load_csv_Some (header : list string) (rows : list (list string)) :
  Forall (fun row => 3 <= length row) (header :: rows) ->
  exists labels,
    load_csv (header :: rows) = Some (map (slice 5 11) rows, labels) /\
    Forall2 (fun row l => row !! 2 = Some l) rows labels.
Proof.
  intros Hall. destruct (read_rows_Some (header :: rows) [] [] Hall)
    as (names & Hn & Hrun).
  apply Forall2_cons_inv_l in Hn as (h & labels & Hh & Hn & ->).
  exists labels. unfold load_csv. rewrite Hrun. done.
Qed.

(** X1: the loader on a file of a header and data rows of three fields or
    more: one feature row and one label per data row, in the order of the
    file, the feature row being fields 5 to 10 of the data row and the
    label its field 2; the header contributes nothing.  A feature row has
    six entries when the data row has eleven fields or more, and fewer
    otherwise. *)
Theorem load_csv_rows (header : list string) (rows : list (list string)) :
  Forall (fun row => 3 <= length row) (header :: rows) ->
  exists features labels,
    load_csv (header :: rows) = Some (features, labels) /\
    features = map (slice 5 11) rows /\
    Forall2 (fun row l => row !! 2 = Some l) rows labels /\
    length features = length rows /\ length labels = length rows /\
    forall i row f, rows !! i = Some row -> features !! i = Some f ->
      length f <= 6 /\ (length f = 6 <-> 11 <= length row).
Proof.
  intros Hall. destruct (load_csv_Some header rows Hall) as (labels & Hrun & Hl).
  exists (map (slice 5 11) rows), labels.
  split; [done|]. split; [done|]. split; [done|].
  split; [by rewrite length_map|]. split; [symmetry; by eapply Forall2_length|].
  intros i row f Hrow Hf. rewrite list_lookup_fmap, Hrow in Hf.
  injection Hf as <-. rewrite slice_length. lia.
Qed.

(** X2: the loader raises [IndexError] exactly on an empty file (from
    [pop(0)]) and on a file with a row, header included, of fewer than
    three fields (from [row[2]]). *)
Theorem load_csv_IndexError (reader : list (list string)) :
  load_csv reader = None <->
  reader = [] \/ Exists (fun row => length row < 3) reader.
Proof.
  split.
  - intros Hnone. destruct reader as [|header rows]; [by left|]. right.
    destruct (decide (Exists (fun row => length row < 3) (header :: rows)))
      as [|Hno]; [done|]. exfalso.
    apply not_Exists_Forall in Hno; [|intros ?; apply _].
    assert (Forall (fun row => 3 <= length row) (header :: rows)) as Hall.
    { eapply Forall_impl; [exact Hno|]. simpl. intros; lia. }
    destruct (load_csv_Some header rows Hall) as (labels & Hrun & _). congruence.
  - intros [->|Hex]; [done|]. unfold load_csv. by rewrite read_rows_None.
Qed.
End Loader.

(** ** The codes of the labels *)
Section LabelCodes.
Implicit Types (labels : list string) (l : string) (i : nat).

Lemma uniq_labels_NoDup labels : NoDup (uniq_labels labels).
Proof. unfold uniq_labels. apply NoDup_elements. Qed.

Lemma elem_of_uniq_labels labels l : l ∈ uniq_labels labels <-> l ∈ labels.
Proof. unfold uniq_labels. by rewrite elem_of_elements, elem_of_list_to_set. Qed.

Lemma label_2_int_lookup labels l i :
  label_2_int labels !! l = Some i <-> uniq_labels labels !! i = Some l.
Proof.
  unfold label_2_int. set (u := uniq_labels labels).
  rewrite <- elem_of_list_to_map.
  - rewrite list_elem_of_lookup. split.
    + intros [k Hk]. apply lookup_zip_with_Some in Hk as (a & b & [= <- <-] & Ha & Hb).
      apply lookup_seq in Hb as [-> _]. done.
    + intros Hi. exists i. apply lookup_zip_with_Some. exists l, i.
      split; [done|]. split; [done|]. apply lookup_seq. split; [done|].
      by eapply lookup_lt_Some.
  - rewrite fst_zip by (rewrite length_seq; lia). apply uniq_labels_NoDup.
Qed.

(** X3: the dictionary [label_2_int] numbers the distinct labels: a label has
    the code [i] exactly when it is entry [i] of [uniq_labels]; so every
    label of the list has a code, below the number of distinct labels,
    two labels with one code are equal, and a string that is not in the
    list has no code (the lookup raises [KeyError]). *)
Theorem label_2_int_numbers labels :
  (forall l i, label_2_int labels !! l = Some i <-> uniq_labels labels !! i = Some l) /\
  (forall l, l ∈ labels <-> exists i, label_2_int labels !! l = Some i /\
                                      i < label_cardinality labels) /\
  (forall l l' i, label_2_int labels !! l = Some i ->
                  label_2_int labels !! l' = Some i -> l = l') /\
  (forall l, l ∉ labels -> label_2_int labels !! l = None).
Proof.
  split; [apply label_2_int_lookup|]. split; [|split].
  - intros l. rewrite <- elem_of_uniq_labels, list_elem_of_lookup. split.
    + intros [i Hi]. exists i. split; [by apply label_2_int_lookup|].
      by eapply lookup_lt_Some.
    + intros (i & Hi & _). exists i. by apply label_2_int_lookup.
  - intros l l' i Hl Hl'. apply label_2_int_lookup in Hl, Hl'. congruence.
  - intros l Hl. destruct (label_2_int labels !! l) as [i|] eqn:Hi; [|done].
    exfalso. apply Hl, elem_of_uniq_labels, list_elem_of_lookup.
    exists i. by apply label_2_int_lookup.
Qed.

Lemma codes_Some labels :
  exists ints, mapM (fun l => label_2_int labels !! l) labels = Some ints /\
    Forall2 (fun l i => uniq_labels labels !! i = Some l) labels ints.
Proof.
  assert (Forall (fun l => is_Some (label_2_int labels !! l)) labels) as Hall.
  { apply Forall_forall. intros l Hl.
    apply elem_of_uniq_labels, list_elem_of_lookup in Hl as [i Hi].
    exists i. by apply label_2_int_lookup. }
  apply mapM_is_Some_2 in Hall as [ints Hints]. exists ints. split; [done|].
  apply mapM_Some_1 in Hints. eapply Forall2_impl; [exact Hints|].
  simpl. intros l i. apply label_2_int_lookup.
Qed.

Lemma codes_max labels ints :
  labels <> [] ->
  Forall2 (fun l i => uniq_labels labels !! i = Some l) labels ints ->
  S (max_list ints) = label_cardinality labels.
Proof.
  intros Hne Hcodes. unfold label_cardinality.
  assert (max_list ints < length (uniq_labels labels)) as Hlt.
  { assert (uniq_labels labels <> []) as Hu.
    { destruct labels as [|l0 ?]; [done|]. intros Hnil.
      assert (l0 ∈ uniq_labels (l0 :: labels)) as Hin
        by (apply elem_of_uniq_labels; left).
      rewrite Hnil in Hin. by apply elem_of_nil in Hin. }
    assert (Forall (fun i => i < length (uniq_labels labels)) ints) as Hall.
    { apply Forall_forall. intros i [k Hk]%list_elem_of_lookup.
      destruct (Forall2_lookup_r _ _ _ _ _ Hcodes Hk) as (l & _ & Hl).
      by eapply lookup_lt_Some. }
    clear Hcodes. induction Hall as [|i ints Hi _ IH]; simpl.
    - destruct (uniq_labels labels); [done|simpl; lia].
    - lia. }
  assert (length (uniq_labels labels) - 1 ∈ ints) as Hin.
  { destruct (lookup_lt_is_Some_2 (uniq_labels labels)
                (length (uniq_labels labels) - 1) ltac:(lia)) as [l Hl].
    assert (l ∈ labels) as [k Hk]%list_elem_of_lookup.
    { apply elem_of_uniq_labels, list_elem_of_lookup. eauto. }
    destruct (Forall2_lookup_l _ _ _ _ _ Hcodes Hk) as (i & Hi & Hl').
    assert (i = length (uniq_labels labels) - 1) as <-.
    { eapply NoDup_lookup; [apply uniq_labels_NoDup|exact Hl'|exact Hl]. }
    apply list_elem_of_lookup. eauto. }
  apply max_list_elem_of_le in Hin. lia.
Qed.

(** X4: encoding the labels of a non-empty list never raises; it gives one
    row per label, each with as many columns as there are distinct labels;
    and decoding is its inverse: entry [argmax(row k)] of [uniq_labels] is
    label [k].  On an empty list the encoding raises (in [np.max]). *)
Theorem encode_labels_round_trip labels :
  labels <> [] ->
  exists Y, encode_labels labels = Some Y /\
    length Y = length labels /\
    Forall (fun r => length r = label_cardinality labels) Y /\
    forall k l, labels !! k = Some l ->
      exists r i, Y !! k = Some r /\ np_argmax r = Some i /\
                  uniq_labels labels !! i = Some l.
Proof.
  intros Hne. destruct (codes_Some labels) as (ints & Hints & Hcodes).
  pose proof (codes_max labels ints Hne Hcodes) as Hmax.
  pose proof (Forall2_length _ _ _ Hcodes) as Hlen.
  unfold encode_labels. rewrite Hints. simpl.
  assert (ints <> []) as Hi by (destruct ints, labels; done).
  unfold to_categorical. destruct ints as [|i0 ints0] eqn:E; [done|].
  rewrite <- E in *. rewrite Hmax. eexists. split; [done|].
  split; [by rewrite length_map|]. split.
  - apply Forall_map, Forall_forall. intros i _. simpl.
    unfold one_hot. by rewrite length_insert, length_replicate.
  - intros k l Hk. destruct (Forall2_lookup_l _ _ _ _ _ Hcodes Hk) as (i & Hi' & Hl).
    exists (one_hot (label_cardinality labels) i), i.
    split; [by rewrite list_lookup_fmap, Hi'|]. split; [|done].
    apply argmax_one_hot. by eapply lookup_lt_Some.
Qed.
(** X5: [to_categorical] on a non-empty list of class indices: one row per
    index, each of [max(y) + 1] columns, and the argmax of the rows gives
    the indices back. *)
Theorem to_categorical_round_trip (ys : list nat) :
  ys <> [] ->
  exists Y, to_categorical ys = Some Y /\ length Y = length ys /\
    Forall (fun r => length r = S (max_list ys)) Y /\
    decode_labels Y = Some ys.
Proof.
  intros Hne. destruct (to_categorical ys) as [Y|] eqn:HY; [|by destruct ys].
  exists Y. split; [done|]. pose proof (decode_to_categorical ys Y HY) as Hdec.
  split; [|split; [|done]].
  - apply mapM_Some_1, Forall2_length in Hdec. done.
  - unfold to_categorical in HY. destruct ys as [|y0 ys0] eqn:E; [done|].
    rewrite <- E in *. injection HY as <-. apply Forall_map, Forall_forall.
    intros y _. simpl. unfold one_hot. by rewrite length_insert, length_replicate.
Qed.
End LabelCodes.

(** ** The split point, the shuffle and the split *)
Module SplitPoint.
Import Binary64 Binary64Facts.
Local Open Scope Z_scope.

Lemma digits_le_53 (p : positive) : Zpos p < 2 ^ 53 -> Zpos (digits2_pos p) <= 53.
Proof.
  intros Hp. pose proof (digits2_pos_bounds p) as [Hlo _].
  destruct (Z.le_gt_cases (Zpos (digits2_pos p)) 53) as [|Hgt]; [done|].
  assert (2 ^ 53 <= 2 ^ (Zpos (digits2_pos p) - 1)) by (apply Z.pow_le_mono_r; lia).
  lia.
Qed.

(** A positive count below [2^53] is converted without rounding. *)
Lemma of_count_value (n : nat) :
  (0 < n)%nat -> Z.of_nat n < 2 ^ 53 ->
  exists m e, Prim2SF (PrimFloat.of_uint63 (Uint63.of_Z (Z.of_nat n))) = S754_finite false m e /\
    Zpos m * 2 ^ (e + 1074) = Z.of_nat n * 2 ^ 1074.
Proof.
  intros Hn Hlt. rewrite of_uint63_spec, Uint63.of_Z_spec.
  change wB with (2 ^ 63). rewrite Z.mod_small by lia.
  destruct (Z.of_nat n) as [|p|p] eqn:E; try lia.
  unfold binary_normalize.
  pose proof (digits_le_53 p Hlt) as Hd.
  pose proof (RN_short p 1074 Hd ltac:(lia)) as HRN.
  destruct (binary_round_sv false p 0 ltac:(lia)) as [[_ HV]|(m & e & -> & HV & _)];
    cbv zeta in HV; rewrite Z.add_0_l, HRN in HV.
  - exfalso. assert (Zpos p * 2 ^ 1074 < 2 ^ 53 * 2 ^ 1074)
      by (apply Z.mul_lt_mono_pos_r; lia).
    assert (2 ^ 53 * 2 ^ 1074 <= OVF); [|lia].
    unfold OVF. rewrite <- Z.pow_add_r by lia. apply Z.pow_le_mono_r; lia.
  - eauto.
Qed.

(** A long mantissa is rounded to 53 bits. *)
Lemma round_aux_value (s : bool) (M : positive) (e : Z) :
  53 < Zpos (digits2_pos M) -> -1074 <= e ->
  let V := RN (Zpos M * 2 ^ (e + 1074)) in
  let R := binary_round_aux prec emax s (Zpos M) e loc_Exact in
  (R = S754_infinity s /\ OVF <= V) \/
  (exists m' e', R = S754_finite s m' e' /\ Zpos m' * 2 ^ (e' + 1074) = V /\ V < OVF).
Proof.
  intros Hd He V R. unfold V. rewrite RN_long by lia.
  replace (Zpos (digits2_pos M) - 53 + (e + 1074))
    with (Zpos (digits2_pos M) - 53 + e + 1074) by lia.
  apply (round_long s M e); lia.
Qed.

(** The floor of a positive double, from its value. *)
Lemma shiftl_floor (m : positive) (e : Z) :
  -1074 <= e -> Z.shiftl (Zpos m) e = Zpos m * 2 ^ (e + 1074) / 2 ^ 1074.
Proof.
  intros He. destruct (Z.le_gt_cases 0 e) as [H0|H0].
  - rewrite Z.shiftl_mul_pow2 by done.
    replace (e + 1074) with (e + 1074)%Z by done.
    rewrite Z.pow_add_r, Z.mul_assoc, Z.div_mul by lia. done.
  - rewrite Z.shiftl_div_pow2 by lia.
    replace (2 ^ 1074) with (2 ^ (- e) * 2 ^ (e + 1074)).
    + rewrite Z.div_mul_cancel_r; [done| |]; apply Z.pow_nonzero; lia.
    + rewrite <- Z.pow_add_r by lia. f_equal. lia.
Qed.

Lemma three_quarters_sf : Prim2SF 0.75 = S754_finite false 6755399441055744 (-53).
Proof. reflexivity. Qed.

Lemma math_floor_three_quarters (n : nat) :
  Z.of_nat n < 2 ^ 51 ->
  math_floor (PrimFloat.mul (PrimFloat.of_uint63 (Uint63.of_Z (Z.of_nat n))) 0.75)
  = Some (3 * Z.of_nat n / 4).
Proof.
  intros Hlt. destruct (Nat.eq_dec n 0%nat) as [->|Hn]; [reflexivity|].
  destruct (of_count_value n ltac:(lia) ltac:(lia)) as (mx & ex & HX & Hval).
  set (x := PrimFloat.of_uint63 _) in *.
  pose proof (Prim2SF_valid x) as Vx. rewrite HX in Vx.
  destruct (valid_finite _ _ _ Vx) as (Hex & Hdx & Hnorm).
  pose proof (digits2_pos_bounds mx) as [Hlo Hhi].
  assert (0 < 2 ^ 1074) as P1074 by (apply Z.pow_pos_nonneg; lia).
  (* the exponent is above -53 *)
  assert (-53 < ex) as Hex'.
  { destruct (Z.le_gt_cases ex (-53)) as [Hle|]; [exfalso|lia].
    assert (Zpos mx < 2 ^ 53).
    { eapply Z.lt_le_trans; [exact Hhi|]. apply Z.pow_le_mono_r; lia. }
    assert (2 ^ (ex + 1074) <= 2 ^ 1021) by (apply Z.pow_le_mono_r; lia).
    assert (0 < 2 ^ (ex + 1074)) by (apply Z.pow_pos_nonneg; lia).
    assert (Zpos mx * 2 ^ (ex + 1074) < 2 ^ 53 * 2 ^ 1021) by nia.
    replace (2 ^ 53 * 2 ^ 1021) with (2 ^ 1074) in * by (rewrite <- Z.pow_add_r by lia; done).
    nia. }
  rewrite Hnorm in Hlo by lia. change (53 - 1) with 52 in Hlo.
  (* the product *)
  unfold math_floor. rewrite mul_spec, HX, three_quarters_sf.
  cbn [SFmul SF64mul xorb].
  assert (Zpos (mx * 6755399441055744) * 2 ^ (ex + -53 + 1074)
          = 3 * Z.of_nat n * 2 ^ 1072) as Hprod.
  { rewrite Pos2Z.inj_mul. change (Zpos 6755399441055744) with (3 * 2 ^ 51).
    replace (ex + -53 + 1074) with (ex + 1021) by lia.
    assert (Zpos mx * 2 ^ (ex + 1021) = Z.of_nat n * 2 ^ 1021) as Hq.
    { replace (ex + 1074) with (ex + 1021 + 53) in Hval by lia.
      rewrite Z.pow_add_r, Z.mul_assoc in Hval by lia.
      replace (2 ^ 1074) with (2 ^ 1021 * 2 ^ 53) in Hval
        by (rewrite <- Z.pow_add_r by lia; done).
      rewrite Z.mul_assoc in Hval. apply Z.mul_cancel_r in Hval; [done|].
      apply Z.pow_nonzero; lia. }
    replace (2 ^ 1072) with (2 ^ 1021 * 2 ^ 51) by (rewrite <- Z.pow_add_r by lia; done).
    transitivity (3 * 2 ^ 51 * (Zpos mx * 2 ^ (ex + 1021))); [ring|]. rewrite Hq. ring. }
  assert (53 < Zpos (digits2_pos (mx * 6755399441055744))) as Hlong.
  { pose proof (digits2_pos_bounds (mx * 6755399441055744)) as [_ Hup].
    rewrite Pos2Z.inj_mul in Hup. change (Zpos 6755399441055744) with (3 * 2 ^ 51) in Hup.
    destruct (Z.le_gt_cases (Zpos (digits2_pos (mx * 6755399441055744))) 53) as [Hle|]; [|lia].
    assert (2 ^ Zpos (digits2_pos (mx * 6755399441055744)) <= 2 ^ 53)
      by (apply Z.pow_le_mono_r; lia).
    exfalso. nia. }
  assert (RN (3 * Z.of_nat n * 2 ^ 1072) = 3 * Z.of_nat n * 2 ^ 1072) as HRN.
  { destruct (3 * Z.of_nat n) as [|q|q] eqn:E; try lia.
    apply RN_short; [|lia]. apply digits_le_53. change (2 ^ 53) with (4 * 2 ^ 51). lia. }
  destruct (round_aux_value false (mx * 6755399441055744) (ex + -53) Hlong ltac:(lia))
    as [[_ HV]|(m' & e' & HR & HV & _)]; cbv zeta in HV; rewrite Hprod, HRN in HV.
  - exfalso. assert (3 * Z.of_nat n * 2 ^ 1072 < 2 ^ 53 * 2 ^ 1072).
    { apply Z.mul_lt_mono_pos_r; [apply Z.pow_pos_nonneg; lia|].
      change (2 ^ 53) with (4 * 2 ^ 51). lia. }
    assert (2 ^ 53 * 2 ^ 1072 <= OVF); [|lia].
    unfold OVF. rewrite <- Z.pow_add_r by lia. apply Z.pow_le_mono_r; lia.
  - pose proof (Prim2SF_valid (x * 0.75)) as Vr.
    rewrite mul_spec, HX, three_quarters_sf in Vr. cbn [SFmul SF64mul xorb] in Vr.
    rewrite HR in *. destruct (valid_finite _ _ _ Vr) as (He' & _).
    f_equal. rewrite shiftl_floor by lia. rewrite HV.
    change (2 ^ 1074) with (4 * 2 ^ 1072).
    rewrite Z.div_mul_cancel_r; [done|lia|]. apply Z.pow_nonzero; lia.
Qed.
End SplitPoint.

Lemma floor_three_quarters_value (n : nat) :
  (Z.of_nat n < 2 ^ 51)%Z -> floor_three_quarters n = Some (3 * n / 4).
Proof.
  intros Hlt. unfold floor_three_quarters.
  rewrite SplitPoint.math_floor_three_quarters by done.
  change (Some (Z.to_nat (3 * Z.of_nat n / 4)) = Some (3 * n / 4)). f_equal.
  replace (3 * Z.of_nat n)%Z with (Z.of_nat (3 * n)) by lia.
  change 4%Z with (Z.of_nat 4). rewrite <- Nat2Z.inj_div. apply Nat2Z.id.
Qed.

(** X6: the split point of [n] rows, [n < 2^51]: the product [n * 0.75] is
    exact in double precision and its floor is the integer quotient of
    [3 * n] by [4].  It leaves at least one test row when there is a row
    at all, and at least one training row when there are two. *)
Theorem floor_three_quarters_exact (n : nat) :
  (Z.of_nat n < 2 ^ 51)%Z ->
  exists split, floor_three_quarters n = Some split /\
    split = 3 * n / 4 /\ split <= n /\
    (0 < n -> split < n) /\ (split = 0 <-> n < 2).
Proof.
  intros Hlt. exists (3 * n / 4). split; [by apply floor_three_quarters_value|].
  split; [done|].
  pose proof (Nat.div_mod_eq (3 * n) 4). pose proof (Nat.mod_upper_bound (3 * n) 4).
  lia.
Qed.

Section ShuffleProofs.
Context {rng : Type}.
Variable RandomState : Z -> rng.
Variable rk_interval : nat -> rng -> nat * rng.
Hypothesis rk_interval_le : forall max st, (rk_interval max st).1 <= max.

(** Indexing with a permutation of the positions gives a permutation. *)
Lemma safe_indexing_Permutation {A} (a a' : list A) (indices : list nat) :
  indices ≡ₚ seq 0 (length a) -> safe_indexing a indices = Some a' -> a' ≡ₚ a.
Proof.
  intros Hperm Hidx. apply mapM_Some_1 in Hidx.
  destruct (Permutation_Forall2 Hperm Hidx) as (b & Hb & Hall).
  rewrite Hb. clear Hperm Hidx Hb a' indices.
  assert (b = a) as ->; [|done].
  apply list_eq. intros i.
  destruct (a !! i) as [x|] eqn:Hx.
  - assert (seq 0 (length a) !! i = Some i) as Hi
      by (apply lookup_seq; split; [done|by eapply lookup_lt_Some]).
    destruct (Forall2_lookup_l _ _ _ _ _ Hall Hi) as (y & Hy & Hxy). congruence.
  - apply lookup_ge_None. apply lookup_ge_None in Hx.
    rewrite <- (Forall2_length _ _ _ Hall), length_seq. done.
Qed.

Lemma safe_indexing_zip {A B} (X X' : list A) (y y' : list B) (indices : list nat) :
  safe_indexing X indices = Some X' -> safe_indexing y indices = Some y' ->
  safe_indexing (zip X y) indices = Some (zip X' y').
Proof.
  unfold safe_indexing. intros HX%mapM_Some_1 Hy%mapM_Some_1. apply mapM_Some_2.
  revert y' Hy. induction HX as [|i x idx X' Hx _ IH]; intros y' Hy.
  - inversion Hy. constructor.
  - inversion Hy as [|? b ? y'' Hb Hy']; subst. simpl. constructor; [|by apply IH].
    apply lookup_zip_with_Some. eauto.
Qed.

Lemma sk_shuffle_Some {A B} (X : list A) (y : list B) (rs : random_state) (g : rng) :
  length X = length y ->
  exists indices X' y' g',
    sk_shuffle RandomState rk_interval X y rs g = Some (X', y', g') /\
    indices ≡ₚ seq 0 (length X) /\
    safe_indexing X indices = Some X' /\ safe_indexing y indices = Some y' /\
    (forall seed, rs = RSSeed seed -> g' = g).
Proof.
  intros Hlen. unfold sk_shuffle. rewrite Hlen, Nat.eqb_refl. simpl. rewrite <- Hlen.
  assert (exists indices g',
    match rs with
    | RSNone => rs_shuffle rk_interval (seq 0 (length X)) g
    | RSSeed seed =>
        '(indices, _) ← rs_shuffle rk_interval (seq 0 (length X)) (RandomState seed);
        Some (indices, g)
    end = Some (indices, g') /\ indices ≡ₚ seq 0 (length X) /\
    (forall seed, rs = RSSeed seed -> g' = g)) as (idx & g' & -> & Hperm & Hg).
  { destruct rs as [|seed].
    - destruct (rs_shuffle_Some rk_interval rk_interval_le (seq 0 (length X)) g)
        as (idx & g' & E & Hperm).
      exists idx, g'. split; [done|]. split; [done|]. intros; discriminate.
    - destruct (rs_shuffle_Some rk_interval rk_interval_le (seq 0 (length X))
                  (RandomState seed)) as (idx & g' & E & Hperm).
      exists idx, g. rewrite E. split; [done|]. split; [done|]. done. }
  simpl.
  assert (Forall (fun i => i < length X) idx) as Hlt.
  { rewrite Hperm. apply Forall_seq. intros; lia. }
  destruct (safe_indexing_Some X idx Hlt) as (X' & HX' & _).
  destruct (safe_indexing_Some y idx) as (y' & Hy' & _); [by rewrite <- Hlen|].
  exists idx, X', y', g'. rewrite HX'. simpl. rewrite Hy'. done.
Qed.

(** X7: [shuffle] on two arrays of one length, with a seed or with the
    process-wide generator: it returns; the two results are the inputs
    rearranged by one and the same permutation, so that each row keeps its
    label; with a seed the process-wide generator is left as it was. *)
Theorem sk_shuffle_aligned {A B} (X : list A) (y : list B) (rs : random_state) (g : rng) :
  length X = length y ->
  exists X' y' g',
    sk_shuffle RandomState rk_interval X y rs g = Some (X', y', g') /\
    zip X' y' ≡ₚ zip X y /\ X' ≡ₚ X /\ y' ≡ₚ y /\
    (forall seed, rs = RSSeed seed -> g' = g).
Proof.
  intros Hlen.
  destruct (sk_shuffle_Some X y rs g Hlen) as (idx & X' & y' & g' & Hrun & Hperm & HX & Hy & Hg).
  exists X', y', g'. split; [done|]. split; [|split; [|split; [|done]]].
  - apply (safe_indexing_Permutation _ _ idx); [|by apply safe_indexing_zip].
    by rewrite length_zip_with, <- Hlen, Nat.min_id.
  - by apply (safe_indexing_Permutation _ _ idx).
  - apply (safe_indexing_Permutation _ _ idx); [by rewrite <- Hlen|done].
Qed.

(** X8: the whole cell on [n] rows, [n < 2^51]: it returns, and what it
    returns does not depend on the process-wide generator, which it leaves
    as it was; the first [3 n / 4] shuffled rows are the training set and
    the rest the test set; no row is lost or repeated, and each row keeps
    its label. *)
Theorem shuffle_and_split_partition {A B} (features : list A) (labels : list B) :
  length features = length labels ->
  (Z.of_nat (length labels) < 2 ^ 51)%Z ->
  exists d : split_data A B,
    (forall g, shuffle_and_split RandomState rk_interval features labels g = Some (d, g)) /\
    length (train_X d) = 3 * length labels / 4 /\
    length (train_y d) = length (train_X d) /\
    length (test_X d) = length labels - 3 * length labels / 4 /\
    length (test_y d) = length (test_X d) /\
    zip (train_X d ++ test_X d) (train_y d ++ test_y d) ≡ₚ zip features labels.
Proof.
  intros Hlen Hlt.
  destruct (sk_shuffle_seed RandomState rk_interval rk_interval_le features labels 0 Hlen)
    as (X' & y' & HX & Hy & Hrun).
  set (g0 := RandomState 0).
  destruct (sk_shuffle_Some features labels (RSSeed 0) g0 Hlen)
    as (idx & X'' & y'' & g' & Hrun' & Hperm & HiX & Hiy & _).
  rewrite Hrun in Hrun'. injection Hrun' as <- <- _.
  pose proof (floor_three_quarters_value (length y') ltac:(by rewrite Hy)) as Hsplit.
  assert (3 * length y' / 4 = 3 * length labels / 4) as Hs by (by rewrite Hy).
  rewrite Hs in Hsplit. set (split := 3 * length labels / 4) in *.
  assert (split <= length labels) as Hle.
  { unfold split.
    pose proof (Nat.div_mod_eq (3 * length labels) 4).
    pose proof (Nat.mod_upper_bound (3 * length labels) 4). lia. }
  clearbody split.
  exists (SplitData (take split X') (take split y') (drop split X') (drop split y')).
  split; [|split; [|split; [|split; [|split]]]].
  - intros g. unfold shuffle_and_split. rewrite Hrun. simpl. by rewrite Hsplit.
  - simpl. rewrite length_take. lia.
  - simpl. rewrite !length_take. lia.
  - simpl. rewrite length_drop. lia.
  - simpl. rewrite !length_drop. lia.
  - simpl. rewrite !take_drop.
    apply (safe_indexing_Permutation _ _ idx); [|by apply safe_indexing_zip].
    by rewrite length_zip_with, <- Hlen, Nat.min_id.
Qed.
End ShuffleProofs.

(** ** More of min-max scaling *)
Section MinMaxMore.
Context {FL : Float64} {CL : ClassifyLaws FL} {OL : OrderLaws FL}.

Lemma minmax_entry (X train : matrix) (lo hi : F) (i j : nat) (r : list F) (x : F) :
  np_min train = Some lo -> np_max train = Some hi ->
  X !! i = Some r -> r !! j = Some x ->
  exists M r', minmax X train = Some M /\ M !! i = Some r' /\
    r' !! j = Some (nan_to_num1 ((x ⊖ lo) ⊘ (hi ⊖ lo))).
Proof.
  intros Hlo Hhi Hr Hx. unfold minmax. rewrite Hlo, Hhi. simpl.
  eexists _, _. split; [done|].
  unfold minmax_with, nan_to_num, div_scalar, sub_scalar.
  rewrite !map_map, lookup_map, Hr. simpl. split; [done|].
  by rewrite !map_map, lookup_map, Hx.
Qed.

Lemma in_range_in_unit (train te : matrix) (lo hi : F) (i j : nat) (r : list F) (x : F) :
  np_min train = Some lo -> np_max train = Some hi ->
  te !! i = Some r -> r !! j = Some x ->
  fle lo x = true -> fle x hi = true ->
  exists M r' y, test_X_norm train te = Some M /\ M !! i = Some r' /\
    r' !! j = Some y /\ in_unit y.
Proof.
  intros Hlo Hhi Hr Hx Hlx Hxh.
  destruct (minmax_entry te train lo hi i j r x Hlo Hhi Hr Hx) as (M & r' & HM & Hr' & Hy).
  exists M, r', (nan_to_num1 ((x ⊖ lo) ⊘ (hi ⊖ lo))).
  split; [done|]. split; [done|]. split; [done|]. by apply scaled_in_unit.
Qed.

Lemma nan_zeroes (X train : matrix) :
  Exists (fun y => f_isnan y = true) (concat train) ->
  minmax X train = Some (map (map (fun _ => f_zero)) X).
Proof.
  intros Hex. unfold minmax, np_min, np_max.
  destruct (concat train) as [|x0 xs] eqn:Hcat; [by apply Exists_nil in Hex|].
  simpl. f_equal. unfold minmax_with, nan_to_num, div_scalar, sub_scalar.
  rewrite !map_map. apply map_ext. intros r. rewrite !map_map. apply map_ext. intros x.
  apply nan_to_num1_nan, div_nan_l, sub_nan_r. by apply fold_min_nan.
Qed.
End MinMaxMore.

Section ConstantMatrix.
Context {FL : Float64} {CL : ClassifyLaws FL} {ZL : ZeroLaws FL}.
(** For a finite [x], the difference [x - x] is [0.0] and [x == x]. *)
Hypothesis sub_self : forall x : F, f_isfinite x = true -> x ⊖ x = f_zero.
Hypothesis eq_self : forall x : F, f_isfinite x = true -> feq x x = true.

Lemma fold_min_const (xs : list F) (c : F) :
  Forall (fun x => x = c) xs -> fold_left minimum_step xs c = c.
Proof.
  induction 1 as [|x xs -> _ IH]; simpl; [done|].
  assert (minimum_step c c = c) as -> by (unfold minimum_step; by destruct (_ || _)).
  exact IH.
Qed.

Lemma fold_max_const (xs : list F) (c : F) :
  Forall (fun x => x = c) xs -> fold_left maximum_step xs c = c.
Proof.
  induction 1 as [|x xs -> _ IH]; simpl; [done|].
  assert (maximum_step c c = c) as -> by (unfold maximum_step; by destruct (_ || _)).
  exact IH.
Qed.

Lemma const_min_max (train : matrix) (c : F) :
  concat train <> [] -> Forall (Forall (fun x => x = c)) train ->
  np_min train = Some c /\ np_max train = Some c.
Proof.
  intros Hne Hall.
  assert (Forall (fun x => x = c) (concat train)) as Hcat.
  { clear Hne. induction Hall as [|r train Hr _ IH]; simpl; [constructor|].
    by apply Forall_app. }
  unfold np_min, np_max. destruct (concat train) as [|x0 xs]; [done|].
  apply Forall_cons in Hcat as [-> Hxs].
  by rewrite fold_min_const, fold_max_const.
Qed.

Lemma const_matrix (train te : matrix) (c : F) :
  concat train <> [] -> Forall (Forall (fun x => x = c)) train ->
  f_isfinite c = true ->
  train_X_norm train = Some (map (map (fun _ => f_zero)) train) /\
  forall i j r x, te !! i = Some r -> r !! j = Some x ->
    exists M r' out, test_X_norm train te = Some M /\ M !! i = Some r' /\
      r' !! j = Some out /\
      (f_isfinite x = true -> feq x c = true -> out = f_zero) /\
      (f_isnan x = false -> fle x c = false -> out = f_max) /\
      (f_isnan x = false -> fle c x = false -> out = f_min).
Proof.
  intros Hne Hall Hfin. destruct (const_min_max train c Hne Hall) as [Hlo Hhi].
  pose proof (eq_self c Hfin) as Hcc. split.
  - unfold train_X_norm, minmax. rewrite Hlo, Hhi. simpl. f_equal.
    unfold minmax_with, nan_to_num, div_scalar, sub_scalar. rewrite !map_map.
    apply map_ext_Forall. eapply Forall_impl; [exact Hall|]. simpl. intros r Hr.
    rewrite !map_map. apply map_ext_Forall. eapply Forall_impl; [exact Hr|].
    simpl. intros x ->.
    assert ((c ⊖ c) ⊘ (c ⊖ c) = (c ⊖ c) ⊘ f_zero) as ->
      by (by rewrite (sub_self c Hfin)).
    by apply equal_to_zero.
  - intros i j r x Hr Hx. unfold test_X_norm, minmax. rewrite Hlo, Hhi. simpl.
    eexists _, _, _. split; [done|].
    unfold minmax_with, nan_to_num, div_scalar, sub_scalar.
    rewrite !map_map, lookup_map, Hr. simpl. split; [done|].
    rewrite !map_map, lookup_map, Hx. simpl. split; [done|].
    rewrite (sub_self c Hfin). split; [|split].
    + by apply equal_to_zero.
    + by apply (above_to_max c).
    + by apply (below_to_min c).
Qed.
End ConstantMatrix.

Section Extremes.
Context {FL : Float64} {CL : ClassifyLaws FL} {OL : OrderLaws FL} {ZL : ZeroLaws FL}.
(** For [a == b] with [b] finite, [a - b] is a zero, and [a - lo] compares
    equal to [b - lo] for a finite [lo]; a zero divided by a positive
    finite [d] is a zero, and a zero is finite; for [a == d] with [d]
    positive and finite, [a / d] is [1.0]; and [1.0] is finite. *)
Hypothesis sub_eq_r : forall a b : F,
  f_isfinite b = true -> feq a b = true -> feq (a ⊖ b) f_zero = true.
Hypothesis sub_congr : forall a b lo : F,
  f_isfinite b = true -> f_isfinite lo = true -> feq a b = true ->
  feq (a ⊖ lo) (b ⊖ lo) = true.
Hypothesis zero_div_pos : forall z d : F,
  feq z f_zero = true ->
  f_isnan d = false -> fle d f_zero = false -> f_isposinf d = false ->
  feq (z ⊘ d) f_zero = true.
Hypothesis eq_zero_finite : forall z : F, feq z f_zero = true -> f_isfinite z = true.
Hypothesis div_eq_one : forall a d : F,
  feq a d = true ->
  f_isnan d = false -> fle d f_zero = false -> f_isposinf d = false ->
  a ⊘ d = f_one.
Hypothesis one_finite : f_isfinite f_one = true.

Lemma extremes (X train : matrix) (lo hi : F) (i j : nat) (r : list F) (x : F) :
  np_min train = Some lo -> np_max train = Some hi ->
  f_isfinite lo = true -> f_isfinite hi = true ->
  fle hi lo = false -> f_isposinf (hi ⊖ lo) = false ->
  X !! i = Some r -> r !! j = Some x ->
  exists M r' out, minmax X train = Some M /\ M !! i = Some r' /\
    r' !! j = Some out /\
    (feq x lo = true -> feq out f_zero = true) /\
    (feq x hi = true -> out = f_one).
Proof.
  intros Hlo Hhi Flo Fhi Hlt Hinf Hr Hx.
  destruct (minmax_entry X train lo hi i j r x Hlo Hhi Hr Hx) as (M & r' & HM & Hr' & Hout).
  exists M, r', (nan_to_num1 ((x ⊖ lo) ⊘ (hi ⊖ lo))).
  split; [done|]. split; [done|]. split; [done|].
  destruct (isfinite_inv _ Flo) as (Nlo & _). destruct (isfinite_inv _ Fhi) as (Nhi & _).
  destruct (sub_pos hi lo Nhi Nlo Hlt) as [Nd Pd]. split.
  - intros E. pose proof (zero_div_pos _ _ (sub_eq_r x lo Flo E) Nd Pd Hinf) as Hz.
    by rewrite nan_to_num1_finite by (by apply eq_zero_finite).
  - intros E. rewrite (div_eq_one _ _ (sub_congr x hi lo Fhi Flo E) Nd Pd Hinf).
    by apply nan_to_num1_finite.
Qed.
End Extremes.

(** ** More of standardization *)
Section StandardizeMore.
Context {FL : Float64} {CL : ClassifyLaws FL} {OL : OrderLaws FL}.
(** A sum with a NaN is a NaN, and so is a NaN divided or square-rooted. *)
Hypothesis add_nan_l : forall x y : F, f_isnan x = true -> f_isnan (x ⊕ y) = true.
Hypothesis add_nan_r : forall x y : F, f_isnan y = true -> f_isnan (x ⊕ y) = true.
Hypothesis sub_self : forall x : F, f_isfinite x = true -> x ⊖ x = f_zero.
Hypothesis zero_div_pos : forall d : F,
  f_isnan d = false -> fle d f_zero = false -> f_isposinf d = false ->
  f_zero ⊘ d = f_zero.

Lemma standardize_lookup (X train : matrix) (i j : nat) (r : list F) (x m sd : F) :
  X !! i = Some r -> r !! j = Some x ->
  np_mean0 train !! j = Some m -> np_std0 train !! j = Some sd ->
  exists r', standardize X train !! i = Some r' /\
             r' !! j = Some (nan_to_num1 ((x ⊖ m) ⊘ sd)).
Proof.
  intros Hi Hx Hm Hsd.
  unfold standardize, standardize_with, nan_to_num, div_rows, sub_rows.
  rewrite !map_map, lookup_map, Hi. simpl. eexists. split; [done|].
  rewrite lookup_map. unfold row_div, row_sub.
  by rewrite !lookup_zip_with, Hx, Hm, Hsd.
Qed.

Lemma at_mean (X train : matrix) (i j : nat) (r : list F) (m sd : F) :
  X !! i = Some r -> r !! j = Some m ->
  np_mean0 train !! j = Some m -> np_std0 train !! j = Some sd ->
  f_isfinite m = true ->
  f_isnan sd = false -> fle sd f_zero = false -> f_isposinf sd = false ->
  exists r', standardize X train !! i = Some r' /\ r' !! j = Some f_zero.
Proof.
  intros Hi Hx Hm Hsd Fm Nsd Psd Isd.
  destruct (standardize_lookup X train i j r m m sd Hi Hx Hm Hsd) as (r' & Hr' & Hout).
  exists r'. split; [done|]. rewrite Hout. f_equal.
  rewrite (sub_self m Fm), (zero_div_pos sd Nsd Psd Isd).
  apply nan_to_num1_finite, zero_finite.
Qed.

Lemma fold_row_add_nan (rs : matrix) (r : list F) (j : nat) (a : F) :
  r !! j = Some a -> Forall (fun r' => is_Some (r' !! j)) rs ->
  f_isnan a = true \/ Exists (fun r' => exists y, r' !! j = Some y /\ f_isnan y = true) rs ->
  exists s, fold_left row_add rs r !! j = Some s /\ f_isnan s = true.
Proof.
  intros Ha Hall. revert r a Ha. induction Hall as [|r' rs [y Hy] _ IH]; intros r a Ha Hnan.
  - simpl. destruct Hnan as [Hn|Hex]; [eauto|by apply Exists_nil in Hex].
  - simpl. apply (IH _ (a ⊕ y)).
    + unfold row_add. by rewrite lookup_zip_with, Ha, Hy.
    + destruct Hnan as [Hn|Hex]; [left; by apply add_nan_l|].
      apply Exists_cons in Hex as [(y' & Hy' & Hn)|Hex]; [|by right].
      left. apply add_nan_r. congruence.
Qed.

(** A NaN in a run makes its sum a NaN, in each regime of the pairwise
    sum: every element of the run enters the sum. *)
Lemma fold_add_nan (a : vector) (acc : F) :
  f_isnan acc = true \/ Exists (fun x => f_isnan x = true) a ->
  f_isnan (fold_left fadd a acc) = true.
Proof.
  revert acc. induction a as [|x a IH]; intros acc H; simpl.
  - destruct H as [H|H]; [done|by apply Exists_nil in H].
  - apply IH. destruct H as [H|H]; [left; by apply add_nan_l|].
    apply Exists_cons in H as [H|H]; [left; by apply add_nan_r|by right].
Qed.

Lemma zip_add_nan (r b : vector) :
  length r = length b ->
  Exists (fun x => f_isnan x = true) r \/ Exists (fun x => f_isnan x = true) b ->
  Exists (fun x => f_isnan x = true) (zip_with fadd r b).
Proof.
  revert b. induction r as [|x r IH]; intros [|y b] Hlen H; simplify_eq/=.
  - destruct H as [H|H]; by apply Exists_nil in H.
  - apply Exists_cons. destruct H as [H|H]; apply Exists_cons in H as [H|H].
    + left. by apply add_nan_l.
    + right. apply IH; [done|by left].
    + left. by apply add_nan_r.
    + right. apply IH; [done|by right].
Qed.

Lemma accumulate8_nan (blocks : nat) (r a : vector) :
  length r = 8 -> 8 * blocks <= length a ->
  Exists (fun x => f_isnan x = true) r \/ Exists (fun x => f_isnan x = true) a ->
  length (fst (accumulate8 blocks r a)) = 8 /\
  (Exists (fun x => f_isnan x = true) (fst (accumulate8 blocks r a)) \/
   Exists (fun x => f_isnan x = true) (snd (accumulate8 blocks r a))).
Proof.
  revert r a. induction blocks as [|blocks IH]; intros r a Hr Ha H; simpl; [done|].
  apply IH.
  - rewrite length_zip_with, length_take. lia.
  - rewrite length_drop. lia.
  - destruct H as [H|H].
    + left. apply zip_add_nan; [rewrite length_take; lia|by left].
    + rewrite <- (take_drop 8 a) in H. apply Exists_app in H as [H|H]; [|by right].
      left. apply zip_add_nan; [rewrite length_take; lia|by right].
Qed.

Lemma combine8_nan (r : vector) :
  length r = 8 -> Exists (fun x => f_isnan x = true) r -> f_isnan (combine8 r) = true.
Proof.
  intros Hr H.
  destruct r as [|r0 [|r1 [|r2 [|r3 [|r4 [|r5 [|r6 [|r7 [|r8 r]]]]]]]]]; try done.
  simpl.
  repeat (apply Exists_cons in H as [H|H]); [..|by apply Exists_nil in H];
    auto using add_nan_l, add_nan_r.
Qed.

Lemma unrolled_sum_nan (a : vector) :
  8 <= length a -> Exists (fun x => f_isnan x = true) a ->
  f_isnan (unrolled_sum a) = true.
Proof.
  intros Hlen H. unfold unrolled_sum.
  destruct (accumulate8_nan (length a / 8 - 1) (take 8 a) (drop 8 a)) as [Hr Hn].
  - rewrite length_take. lia.
  - rewrite length_drop. pose proof (Nat.div_mod_eq (length a) 8). lia.
  - rewrite <- (take_drop 8 a) in H. by apply Exists_app in H.
  - destruct (accumulate8 _ _ _) as [r rest]. simpl in *. apply fold_add_nan.
    destruct Hn as [Hn|Hn]; [left; by apply combine8_nan|by right].
Qed.

Lemma pairwise_sum_nan (depth : nat) (a : vector) :
  Exists (fun x => f_isnan x = true) a -> f_isnan (pairwise_sum depth a) = true.
Proof.
  revert a. induction depth as [|depth IH]; intros a H; rewrite pairwise_sum_eq.
  - destruct (Nat.ltb_spec (length a) 8);
      [apply fold_add_nan; by right|by apply unrolled_sum_nan].
  - destruct (Nat.ltb_spec (length a) 8); [apply fold_add_nan; by right|].
    destruct (128 <? length a); [|by apply unrolled_sum_nan].
    rewrite <- (take_drop (length a / 2 - (length a / 2) mod 8) a) in H.
    apply Exists_app in H as [H|H]; [apply add_nan_l|apply add_nan_r]; by apply IH.
Qed.

Lemma sum_axis0_nan (train : matrix) (j : nat) :
  Forall (fun r => is_Some (r !! j)) train ->
  Exists (fun r => exists y, r !! j = Some y /\ f_isnan y = true) train ->
  exists s, sum_axis0 train !! j = Some s /\ f_isnan s = true.
Proof.
  intros Hall Hex.
  destruct train as [|r0 rs]; [by apply Exists_nil in Hex|]. unfold sum_axis0.
  pose proof (Forall_inv Hall) as [a Ha].
  destruct (one_column (r0 :: rs)) eqn:Hone.
  - pose proof (one_column_lookup _ _ _ _ Hone Ha) as ->. eexists. split; [done|].
    by apply add_nan_r, pairwise_sum_nan, one_column_concat_Exists.
  - apply (fold_row_add_nan (r0 :: rs) (replicate (length r0) f_zero) j f_zero).
    + apply lookup_replicate_2. by apply lookup_lt_Some in Ha.
    + done.
    + by right.
Qed.

Lemma nan_column (X train : matrix) (j : nat) :
  Forall (fun r => is_Some (r !! j)) train ->
  Exists (fun r => exists y, r !! j = Some y /\ f_isnan y = true) train ->
  forall i r x, X !! i = Some r -> r !! j = Some x ->
    exists r', standardize X train !! i = Some r' /\ r' !! j = Some f_zero.
Proof.
  intros Hall Hex i r x Hi Hx.
  destruct (sum_axis0_nan train j Hall Hex) as (s & Hs & Ns).
  assert (exists m, np_mean0 train !! j = Some m /\ f_isnan m = true) as (m & Hm & Nm).
  { unfold np_mean0. rewrite lookup_map, Hs. simpl. eexists. split; [done|].
    by apply div_nan_l. }
  assert (exists sd, np_std0 train !! j = Some sd) as [sd Hsd].
  { unfold np_std0, np_var0. rewrite !lookup_map.
    destruct (sum_axis0_lookup (square (sub_rows train (np_mean0 train))) j) as [q ->].
    - unfold square, sub_rows. destruct train; [by apply Exists_nil in Hex|done].
    - unfold square, sub_rows. rewrite !Forall_map.
      eapply Forall_impl; [exact Hall|]. simpl. intros r' [y Hy].
      rewrite lookup_map. unfold row_sub. by rewrite lookup_zip_with, Hy, Hm.
    - by eexists. }
  destruct (standardize_lookup X train i j r x m sd Hi Hx Hm Hsd) as (r' & Hr' & Hout).
  exists r'. split; [done|]. rewrite Hout. f_equal.
  apply nan_to_num1_nan, div_nan_l. by apply sub_nan_r.
Qed.
End StandardizeMore.

(** ** Shapes *)
Section Shapes.
Context {FL : Float64}.

Lemma fold_row_add_length (m : nat) (rs : matrix) (r : list F) :
  length r = m -> has_cols m rs -> length (fold_left row_add rs r) = m.
Proof.
  intros Hr Hrs. revert r Hr. induction Hrs as [|r' rs Hr' _ IH]; intros r Hr; simpl.
  - done.
  - apply IH. unfold row_add. rewrite length_zip_with. lia.
Qed.

Lemma sum_axis0_length (m : nat) (X : matrix) :
  X <> [] -> has_cols m X -> length (sum_axis0 X) = m.
Proof.
  intros Hne Hc. unfold sum_axis0. destruct X as [|r rs]; [done|].
  pose proof (Forall_inv Hc) as Hr. simpl in Hr.
  destruct (one_column (r :: rs)) eqn:Hone.
  - apply andb_prop in Hone as [Hone _]. apply Nat.eqb_eq in Hone. simpl. lia.
  - apply fold_row_add_length; [|done]. by rewrite length_replicate.
Qed.

Lemma np_mean0_length (m : nat) (X : matrix) :
  X <> [] -> has_cols m X -> length (np_mean0 X) = m.
Proof. intros. unfold np_mean0. rewrite length_map. by apply sum_axis0_length. Qed.

Lemma np_std0_length (m : nat) (X : matrix) :
  X <> [] -> has_cols m X -> length (np_std0 X) = m.
Proof.
  intros Hne Hc. unfold np_std0, np_var0. rewrite !length_map.
  apply sum_axis0_length.
  - unfold square, sub_rows. by destruct X.
  - unfold square, sub_rows, has_cols. rewrite !Forall_map.
    eapply Forall_impl; [exact Hc|]. simpl. intros r Hr.
    unfold row_sub. rewrite length_map, length_zip_with, (np_mean0_length m) by done. lia.
Qed.

(** X9: both transforms return a matrix of the shape of their argument: as
    many rows, and [m] columns in each, when the training matrix is not
    empty and both matrices have [m] columns. *)
Theorem transforms_keep_shape (m : nat) (train X : matrix) :
  train <> [] -> has_cols m train -> has_cols m X ->
  (forall M, minmax X train = Some M -> length M = length X /\ has_cols m M) /\
  length (standardize X train) = length X /\ has_cols m (standardize X train).
Proof.
  intros Hne Htr HX. split; [|split].
  - intros M HM. unfold minmax in HM.
    destruct (np_min train) as [lo|]; [|done]. destruct (np_max train) as [hi|]; [|done].
    injection HM as <-. unfold minmax_with, nan_to_num, div_scalar, sub_scalar.
    split; [by rewrite !length_map|]. unfold has_cols. rewrite !Forall_map.
    eapply Forall_impl; [exact HX|]. simpl. intros r Hr. by rewrite !length_map.
  - unfold standardize, standardize_with, nan_to_num, div_rows, sub_rows.
    by rewrite !length_map.
  - unfold standardize, standardize_with, nan_to_num, div_rows, sub_rows, has_cols.
    rewrite !Forall_map. eapply Forall_impl; [exact HX|]. simpl. intros r Hr.
    unfold row_div, row_sub.
    rewrite length_map, !length_zip_with, (np_mean0_length m), (np_std0_length m) by done.
    lia.
Qed.
End Shapes.

Module Binary64More.
Import Binary64 Binary64Facts.
Local Open Scope Z_scope.

Lemma SFsub_self (x : spec_float) :
  is_finite_sf x = true -> SFsub prec emax x x = S754_zero false.
Proof.
  destruct x as [s|s| |s m e]; try discriminate; intros _.
  - by destruct s.
  - cbn [SFsub]. rewrite Z.min_id, shl_align_none by lia. cbn [fst].
    by rewrite Z.sub_diag.
Qed.

Lemma b64_sub_self (x : float) :
  f_isfinite (FL:=binary64) x = true -> (x - x)%float = PrimFloat.zero.
Proof.
  intros [Hn Hi]%isfinite_not_inf. apply Prim2SF_inj.
  rewrite sub_spec, Prim2SF_zero. apply SFsub_self.
  rewrite is_nan_sf_spec in Hn. by destruct (Prim2SF x).
Qed.

Lemma b64_eq_self (x : float) :
  f_isfinite (FL:=binary64) x = true -> PrimFloat.eqb x x = true.
Proof.
  intros [Hn _]%isfinite_not_inf. rewrite b64_eqb_sv by done. apply Z.eqb_refl.
Qed.
Lemma b64_pos_finite (d : float) :
  PrimFloat.is_nan d = false -> PrimFloat.leb d PrimFloat.zero = false ->
  PrimFloat.eqb d infinity = false ->
  exists m e, Prim2SF d = S754_finite false m e.
Proof.
  intros Nd Pd Hinf. apply b64_leb_false in Pd; [|done..]. rewrite b64_sv_zero in Pd.
  rewrite is_nan_sf_spec in Nd.
  destruct (sv_pos_inv _ (Prim2SF_valid d) Nd Pd) as [E|?]; [|done].
  apply is_posinf_spec in E. congruence.
Qed.

Lemma b64_zero_div_pos (d : float) :
  PrimFloat.is_nan d = false -> PrimFloat.leb d PrimFloat.zero = false ->
  PrimFloat.eqb d infinity = false -> (PrimFloat.zero / d)%float = PrimFloat.zero.
Proof.
  intros Nd Pd Hinf. destruct (b64_pos_finite d Nd Pd Hinf) as (m & e & E).
  apply Prim2SF_inj. by rewrite div_spec, E.
Qed.

(** Two positive finite doubles of the same value are the same double. *)
Lemma finite_value_inj (m1 m2 : positive) (e1 e2 : Z) :
  valid (S754_finite false m1 e1) = true -> valid (S754_finite false m2 e2) = true ->
  Zpos m1 * 2 ^ (e1 + 1074) = Zpos m2 * 2 ^ (e2 + 1074) -> m1 = m2 /\ e1 = e2.
Proof.
  intros H1 H2 E. pose proof (finite_value_compare false false _ _ _ _ H1 H2) as C.
  rewrite E, Z.compare_refl in C.
  destruct (Z.compare_spec e1 e2) as [->|?|?]; try discriminate.
  split; [|done]. symmetry in C. by apply Pos.compare_eq in C.
Qed.

Lemma b64_div_eq_one (a d : float) :
  PrimFloat.eqb a d = true ->
  PrimFloat.is_nan d = false -> PrimFloat.leb d PrimFloat.zero = false ->
  PrimFloat.eqb d infinity = false -> (a / d)%float = PrimFloat.one.
Proof.
  intros (Na & _ & H)%b64_eqb_true Nd Pd Hinf. pose proof OVF_pos.
  destruct (b64_pos_finite d Nd Pd Hinf) as (m & e & Ed).
  pose proof (Prim2SF_valid d) as Vd. pose proof (Prim2SF_valid a) as Va.
  rewrite Ed in Vd, H. pose proof (finite_value_bounds _ _ _ Vd) as Bd.
  cbn [sv sgn] in H. rewrite is_nan_sf_spec in Na.
  destruct (sv_pos_inv _ Va Na ltac:(lia)) as [Ea|(m' & e' & Ea)].
  - rewrite Ea in H. cbn [sv sgn] in H. lia.
  - rewrite Ea in H, Va. cbn [sv sgn] in H.
    destruct (finite_value_inj _ _ _ _ Va Vd H) as [-> ->].
    apply Prim2SF_inj. rewrite div_spec, Ea, Ed, Prim2SF_one. apply SFdiv_same.
Qed.

Lemma b64_sub_eq_r (a b : float) :
  f_isfinite (FL:=binary64) b = true -> PrimFloat.eqb a b = true ->
  PrimFloat.eqb (a - b) PrimFloat.zero = true.
Proof.
  intros [_ Ib]%isfinite_not_inf (Na & Nb & H)%b64_eqb_true. pose proof OVF_pos.
  classify a. classify b.
  pose proof (clip_RNZ_sign (sv (Prim2SF a) - sv (Prim2SF b))) as (_ & _ & Hz).
  destruct (b64_sub_cases a b Na Nb) as [(? & _)|(N & Cs)]; [cases|].
  rewrite b64_eqb_sv, b64_sv_zero by done. apply Z.eqb_eq. cases.
Qed.

Lemma b64_sub_congr (a b lo : float) :
  f_isfinite (FL:=binary64) b = true -> f_isfinite (FL:=binary64) lo = true ->
  PrimFloat.eqb a b = true -> PrimFloat.eqb (a - lo) (b - lo) = true.
Proof.
  intros [_ Ib]%isfinite_not_inf [Nlo Ilo]%isfinite_not_inf (Na & Nb & H)%b64_eqb_true.
  pose proof OVF_pos. classify a. classify b.
  destruct (b64_sub_cases a lo Na Nlo) as [(? & ? & _)|(N1 & C1)]; [congruence|].
  destruct (b64_sub_cases b lo Nb Nlo) as [(? & ? & _)|(N2 & C2)]; [congruence|].
  rewrite b64_eqb_sv by done. apply Z.eqb_eq. cases.
Qed.

Lemma b64_zero_div_pos_eq (z d : float) :
  PrimFloat.eqb z PrimFloat.zero = true ->
  PrimFloat.is_nan d = false -> PrimFloat.leb d PrimFloat.zero = false ->
  PrimFloat.eqb d infinity = false ->
  PrimFloat.eqb (z / d) PrimFloat.zero = true.
Proof.
  intros [s E]%b64_eqb_zero Nd Pd Hinf.
  destruct (b64_pos_finite d Nd Pd Hinf) as (m & e & Ed).
  rewrite FloatAxioms.eqb_spec, div_spec, E, Ed, Prim2SF_zero. by destruct s.
Qed.

Lemma b64_eq_zero_finite (z : float) :
  PrimFloat.eqb z PrimFloat.zero = true -> f_isfinite (FL:=binary64) z = true.
Proof.
  intros [s E]%b64_eqb_zero.
  assert (z = if s then neg_zero else PrimFloat.zero) as ->.
  { apply Prim2SF_inj. rewrite E. by destruct s. }
  by destruct s.
Qed.
Lemma b64_add_nan_l (x y : float) :
  PrimFloat.is_nan x = true -> PrimFloat.is_nan (x + y) = true.
Proof.
  rewrite !is_nan_sf_spec, add_spec. by destruct (Prim2SF x).
Qed.

Lemma b64_add_nan_r (x y : float) :
  PrimFloat.is_nan y = true -> PrimFloat.is_nan (x + y) = true.
Proof.
  rewrite !is_nan_sf_spec, add_spec.
  destruct (Prim2SF y); try discriminate. by destruct (Prim2SF x).
Qed.
End Binary64More.

Section DoubleTransformsMore.
Local Open Scope float_scope.

(** X10: a test entry between the minimum and the maximum of the training
    matrix is scaled into [0, 1]. *)
Theorem test_in_range_in_unit (train te : list (list float)) (lo hi : float)
    (i j : nat) (r : list float) (x : float) :
  np_min (FL:=binary64) train = Some lo -> np_max (FL:=binary64) train = Some hi ->
  te !! i = Some r -> r !! j = Some x ->
  PrimFloat.leb lo x = true -> PrimFloat.leb x hi = true ->
  exists M r' y, test_X_norm (FL:=binary64) train te = Some M /\
    M !! i = Some r' /\ r' !! j = Some y /\
    PrimFloat.leb 0 y = true /\ PrimFloat.leb y 1 = true.
Proof. apply (in_range_in_unit (FL:=binary64)). Qed.

(** X11: a NaN anywhere in the training matrix makes the minimum a NaN, and
    min-max scaling then turns every entry of any matrix into [0.0]. *)
Theorem nan_in_train_zeroes (X train : list (list float)) :
  Exists (fun y => PrimFloat.is_nan y = true) (concat train) ->
  minmax (FL:=binary64) X train = Some (map (map (fun _ => 0)) X).
Proof. apply (nan_zeroes (FL:=binary64)). Qed.

(** X12: min-max scaling with a training matrix whose entries are all the
    same finite value: the maximum minus the minimum is [0.0]; the scaled
    training matrix is all zeros, and a test entry becomes [0.0] when it
    equals that value, the largest finite double when it is above and the
    most negative one when it is below. *)
Theorem constant_matrix_minmax (train te : list (list float)) (c : float) :
  concat train <> [] -> Forall (Forall (fun x => x = c)) train ->
  f_isfinite (FL:=binary64) c = true ->
  train_X_norm (FL:=binary64) train = Some (map (map (fun _ => 0)) train) /\
  forall i j r x, te !! i = Some r -> r !! j = Some x ->
    exists M r' out, test_X_norm (FL:=binary64) train te = Some M /\
      M !! i = Some r' /\ r' !! j = Some out /\
      (f_isfinite (FL:=binary64) x = true -> PrimFloat.eqb x c = true -> out = 0) /\
      (PrimFloat.is_nan x = false -> PrimFloat.leb x c = false ->
       out = 0x1.fffffffffffffp+1023) /\
      (PrimFloat.is_nan x = false -> PrimFloat.leb c x = false ->
       out = -0x1.fffffffffffffp+1023).
Proof.
  apply (const_matrix (FL:=binary64) Binary64More.b64_sub_self Binary64More.b64_eq_self).
Qed.
(** X13: when the minimum and the maximum of the training matrix are finite,
    differ, and their difference does not overflow, min-max scaling sends
    every entry that compares equal to the minimum to a zero, and every
    entry that compares equal to the maximum to [1.0].  The comparison is
    [==], under which [-0.0] and [0.0] are equal: which of the two zeros
    comes out for the minimum depends on which of them [np.min] returned. *)
Theorem extremes_to_zero_and_one (X train : list (list float)) (lo hi : float)
    (i j : nat) (r : list float) (x : float) :
  np_min (FL:=binary64) train = Some lo -> np_max (FL:=binary64) train = Some hi ->
  f_isfinite (FL:=binary64) lo = true -> f_isfinite (FL:=binary64) hi = true ->
  PrimFloat.leb hi lo = false -> PrimFloat.eqb (hi - lo) infinity = false ->
  X !! i = Some r -> r !! j = Some x ->
  exists M r' out, minmax (FL:=binary64) X train = Some M /\ M !! i = Some r' /\
    r' !! j = Some out /\
    (PrimFloat.eqb x lo = true -> PrimFloat.eqb out 0 = true) /\
    (PrimFloat.eqb x hi = true -> out = 1).
Proof.
  apply (extremes (FL:=binary64) Binary64More.b64_sub_eq_r Binary64More.b64_sub_congr
           Binary64More.b64_zero_div_pos_eq Binary64More.b64_eq_zero_finite
           Binary64More.b64_div_eq_one eq_refl).
Qed.

(** X15: a NaN anywhere in column [j] of the training matrix makes the mean of
    that column a NaN, and standardization then turns every entry of
    column [j] of any matrix into [0.0]. *)
Theorem nan_in_column_zeroes (X train : list (list float)) (j : nat) :
  Forall (fun r => is_Some (r !! j)) train ->
  Exists (fun r => exists y, r !! j = Some y /\ PrimFloat.is_nan y = true) train ->
  forall i r x, X !! i = Some r -> r !! j = Some x ->
    exists r', standardize (FL:=binary64) X train !! i = Some r' /\ r' !! j = Some 0.
Proof.
  apply (nan_column (FL:=binary64) Binary64More.b64_add_nan_l Binary64More.b64_add_nan_r).
Qed.
End DoubleTransformsMore.

(** ** The argmax *)
Section ArgmaxInt.
Lemma argmax_loop_spec (ip pre : list Z) (mp : Z) (max_ind : nat) :
  pre !! max_ind = Some mp ->
  Forall (fun x => (x <= mp)%Z) pre ->
  (forall j x, j < max_ind -> pre !! j = Some x -> (x < mp)%Z) ->
  exists m, (pre ++ ip) !! argmax_loop mp max_ind (length pre) ip = Some m /\
    Forall (fun x => (x <= m)%Z) (pre ++ ip) /\
    forall j x, j < argmax_loop mp max_ind (length pre) ip ->
                (pre ++ ip) !! j = Some x -> (x < m)%Z.
Proof.
  revert pre mp max_ind. induction ip as [|x ip IH]; intros pre mp max_ind Hmp Hle Hlt.
  - simpl. rewrite app_nil_r. eauto.
  - simpl. pose proof (lookup_lt_Some _ _ _ Hmp) as Hi.
    replace (pre ++ x :: ip) with ((pre ++ [x]) ++ ip) by (by rewrite <- app_assoc).
    replace (S (length pre)) with (length (pre ++ [x])) by (rewrite length_app; simpl; lia).
    destruct (Z.ltb_spec mp x) as [Hx|Hx].
    + apply IH.
      * by rewrite lookup_app_r, Nat.sub_diag by lia.
      * apply Forall_app. split; [|by repeat constructor].
        eapply Forall_impl; [exact Hle|]. simpl. intros; lia.
      * intros j y Hj Hy. rewrite lookup_app_l in Hy by done.
        apply list_elem_of_lookup_2 in Hy. rewrite Forall_forall in Hle.
        specialize (Hle y Hy). lia.
    + apply IH.
      * by rewrite lookup_app_l.
      * apply Forall_app. split; [done|]. repeat constructor. lia.
      * intros j y Hj Hy. rewrite lookup_app_l in Hy by lia. eauto.
Qed.

(** X16: [np.argmax] on a row of integers returns the position of the first
    maximum: the entry there is at least every entry and strictly above
    every earlier one; on an empty row it raises. *)
Theorem np_argmax_first_maximum (v : list Z) :
  (v = [] -> np_argmax v = None) /\
  (v <> [] -> exists i m, np_argmax v = Some i /\ v !! i = Some m /\
     Forall (fun x => (x <= m)%Z) v /\
     forall j x, j < i -> v !! j = Some x -> (x < m)%Z).
Proof.
  split; [by intros ->|]. intros Hne. destruct v as [|x v]; [done|].
  destruct (argmax_loop_spec v [x] x 0) as (m & Hm & Hle & Hlt).
  - done.
  - repeat constructor. lia.
  - intros; lia.
  - exists (argmax_loop x 0 1 v), m. split; [done|]. split; [exact Hm|]. split; done.
Qed.
End ArgmaxInt.

Section ArgmaxDouble.
Context {FL : Float64} {OL : OrderLaws FL}.

Lemma argmax_double_loop_spec (ip pre : list F) (mp : F) (max_ind : nat) :
  Forall (fun x => f_isnan x = false) (pre ++ ip) ->
  pre !! max_ind = Some mp ->
  Forall (fun x => fle x mp = true) pre ->
  (forall j x, j < max_ind -> pre !! j = Some x -> fle mp x = false) ->
  exists m, (pre ++ ip) !! argmax_double_loop mp max_ind (length pre) ip = Some m /\
    Forall (fun x => fle x m = true) (pre ++ ip) /\
    forall j x, j < argmax_double_loop mp max_ind (length pre) ip ->
                (pre ++ ip) !! j = Some x -> fle m x = false.
Proof.
  revert pre mp max_ind.
  induction ip as [|x ip IH]; intros pre mp max_ind Hnan Hmp Hle Hlt.
  - simpl. rewrite app_nil_r. eauto.
  - simpl. pose proof (lookup_lt_Some _ _ _ Hmp) as Hi.
    assert (f_isnan x = false) as Hx.
    { rewrite Forall_app in Hnan. destruct Hnan as [_ Hn]. by inversion Hn. }
    assert (f_isnan mp = false) as Hmpn.
    { rewrite Forall_app in Hnan. destruct Hnan as [Hn _].
      rewrite Forall_forall in Hn. apply Hn. by eapply list_elem_of_lookup_2. }
    replace (pre ++ x :: ip) with ((pre ++ [x]) ++ ip) in * by (by rewrite <- app_assoc).
    replace (S (length pre)) with (length (pre ++ [x])) by (rewrite length_app; simpl; lia).
    destruct (fle x mp) eqn:Hxmp; simpl.
    + apply IH; [done| | |].
      * by rewrite lookup_app_l.
      * apply Forall_app. split; [done|]. by repeat constructor.
      * intros j y Hj Hy. rewrite lookup_app_l in Hy by lia. eauto.
    + rewrite Hx. pose proof (le_total x mp Hx Hmpn Hxmp) as Hmpx.
      apply IH; [done| | |].
      * by rewrite lookup_app_r, Nat.sub_diag by lia.
      * apply Forall_app. split.
        -- eapply Forall_impl; [exact Hle|]. simpl. intros y Hy. by apply le_trans with mp.
        -- repeat constructor. by apply le_refl.
      * intros j y Hj Hy. rewrite lookup_app_l in Hy by done.
        apply list_elem_of_lookup_2 in Hy. rewrite Forall_forall in Hle.
        specialize (Hle y Hy). destruct (fle x y) eqn:Hxy; [|done].
        by rewrite (le_trans x y mp Hxy Hle) in Hxmp.
Qed.

Lemma argmax_double_first (v : list F) :
  v <> [] -> Forall (fun x => f_isnan x = false) v ->
  exists i m, np_argmax_double v = Some i /\ v !! i = Some m /\
    Forall (fun x => fle x m = true) v /\
    forall j x, j < i -> v !! j = Some x -> fle m x = false.
Proof.
  intros Hne Hnan. destruct v as [|x v]; [done|].
  assert (f_isnan x = false) as Hx by (by inversion Hnan).
  destruct (argmax_double_loop_spec v [x] x 0) as (m & Hm & Hle & Hlt).
  - done.
  - done.
  - repeat constructor. by apply le_refl.
  - intros; lia.
  - simpl. rewrite Hx. eauto 10.
Qed.
End ArgmaxDouble.

(** X17: [np.argmax] on a row of doubles without NaN returns the position of
    the first maximum: the entry there is at least every entry, and no
    earlier entry reaches it. *)
Theorem np_argmax_double_first_maximum (v : list float) :
  v <> [] -> Forall (fun x => PrimFloat.is_nan x = false) v ->
  exists i m, np_argmax_double (FL:=binary64) v = Some i /\ v !! i = Some m /\
    Forall (fun x => PrimFloat.leb x m = true) v /\
    forall j x, j < i -> v !! j = Some x -> PrimFloat.leb m x = false.
Proof. apply (argmax_double_first (FL:=binary64)). Qed.

(** ** The printed accuracy *)
Module CountFacts.
Import Binary64 Binary64Facts.
Local Open Scope Z_scope.

(** The double of a count: never a NaN, its value the rounded count. *)
Lemma of_count_sv (n : nat) :
  Z.of_nat n < 2 ^ 63 ->
  let x := PrimFloat.of_uint63 (Uint63.of_Z (Z.of_nat n)) in
  PrimFloat.is_nan x = false /\
  sv (Prim2SF x) = clip (RNZ (Z.of_nat n * 2 ^ 1074)).
Proof.
  intros Hlt x. unfold x. rewrite is_nan_sf_spec, of_uint63_spec, Uint63.of_Z_spec.
  change wB with (2 ^ 63). rewrite Z.mod_small by lia.
  apply (binary_normalize_sv (Z.of_nat n) 0). lia.
Qed.

Lemma of_count_below (n : nat) :
  Z.of_nat n < 2 ^ 63 -> clip (RNZ (Z.of_nat n * 2 ^ 1074)) < OVF.
Proof.
  intros Hlt. pose proof OVF_pos. assert (0 < 2 ^ 1074) by (apply Z.pow_pos_nonneg; lia).
  destruct (Z.eq_dec (Z.of_nat n) 0) as [->|Hn].
  - change (clip 0 < OVF). unfold clip. lia.
  - assert (0 < Z.of_nat n * 2 ^ 1074) as Hpos by nia.
    rewrite RNZ_pos by done. pose proof (RN_bounds _ Hpos) as [_ Hup].
    assert (Zdigits2 (Z.of_nat n * 2 ^ 1074) <= 1137).
    { apply Zdigits2_le_pow; [lia|]. change 1137 with (63 + 1074).
      rewrite Z.pow_add_r by lia. apply Z.mul_lt_mono_pos_r; lia. }
    assert (2 ^ Zdigits2 (Z.of_nat n * 2 ^ 1074) <= 2 ^ 1137)
      by (apply Z.pow_le_mono_r; lia).
    assert (2 ^ 1137 < OVF) by (apply Z.pow_lt_mono_r; lia).
    unfold clip. lia.
Qed.

Lemma SFdiv_unit_defined (A B : spec_float) :
  valid A = true -> valid B = true ->
  is_nan_sf A = false -> is_nan_sf B = false ->
  0 <= sv A <= sv B -> 0 < sv B < OVF ->
  is_nan_sf (SFdiv prec emax A B) = false.
Proof.
  intros HA HB NA NB [H0 Hle] [Hpos Hfin]. pose proof OVF_pos.
  destruct (sv_pos_inv B HB NB Hpos) as [->|(mb & eb & ->)]; [simpl in Hfin; lia|].
  destruct A as [sa|sa| |sa ma ea]; try discriminate.
  - done.
  - destruct sa; cbn [sv sgn] in *; lia.
  - pose proof (finite_value_bounds _ _ _ HA) as BA.
    destruct sa; [cbn [sv sgn] in H0; lia|]. cbn [sv sgn] in Hle.
    destruct (Z.compare_spec (Zpos ma * 2 ^ (ea + 1074)) (Zpos mb * 2 ^ (eb + 1074)))
      as [Heq|Hlt|Hgt]; [|by apply SFdiv_lt|lia].
    apply Z.compare_eq_iff in Heq. rewrite (finite_value_compare false false) in Heq by done.
    destruct (Z.compare_spec ea eb) as [->| |]; try discriminate.
    apply Pos.compare_eq in Heq as ->. by rewrite SFdiv_same.
Qed.

(** The quotient of a count by a count that is not smaller and not zero
    lies in [0, 1]. *)
Lemma count_ratio_in_unit (c n : nat) :
  (c <= n)%nat -> (0 < n)%nat -> Z.of_nat n < 2 ^ 63 ->
  let q := PrimFloat.div (PrimFloat.of_uint63 (Uint63.of_Z (Z.of_nat c)))
                         (PrimFloat.of_uint63 (Uint63.of_Z (Z.of_nat n))) in
  PrimFloat.leb PrimFloat.zero q = true /\ PrimFloat.leb q PrimFloat.one = true.
Proof.
  intros Hcn Hn Hlt q.
  destruct (of_count_sv c ltac:(lia)) as [Nc Vc]. destruct (of_count_sv n Hlt) as [Nn Vn].
  pose proof (of_count_below n Hlt) as Hbelow.
  set (a := PrimFloat.of_uint63 (Uint63.of_Z (Z.of_nat c))) in *.
  set (b := PrimFloat.of_uint63 (Uint63.of_Z (Z.of_nat n))) in *.
  assert (0 < 2 ^ 1074) by (apply Z.pow_pos_nonneg; lia).
  assert (0 <= sv (Prim2SF a) <= sv (Prim2SF b)) as Hab.
  { rewrite Vc, Vn. split.
    - destruct (clip_RNZ_sign (Z.of_nat c * 2 ^ 1074)) as (Hp & _ & Hz).
      destruct (Z.eq_dec (Z.of_nat c) 0) as [E|E]; [rewrite Hz; nia|].
      assert (0 < Z.of_nat c * 2 ^ 1074) by nia. specialize (Hp ltac:(done)). lia.
    - apply clip_mono, RNZ_mono. nia. }
  assert (0 < sv (Prim2SF b)) as Hb.
  { rewrite Vn. apply clip_RNZ_sign. nia. }
  assert (PrimFloat.is_nan q = false) as Nq.
  { unfold q. rewrite is_nan_sf_spec, div_spec.
    rewrite is_nan_sf_spec in Nc, Nn.
    apply SFdiv_unit_defined; auto using Prim2SF_valid. rewrite Vn in *. lia. }
  assert (PrimFloat.leb PrimFloat.zero a = true) as H0a.
  { rewrite b64_leb_sv, b64_sv_zero by done. apply Z.leb_le. lia. }
  assert (PrimFloat.leb a b = true) as Hle.
  { rewrite b64_leb_sv by done. apply Z.leb_le. lia. }
  destruct (b64_div_unit a b H0a Hle) as [N|?]; [|done].
  unfold q in Nq. congruence.
Qed.
End CountFacts.

Section Accuracy.
Lemma correct_count_le {FL : Float64} (expected : list (list Z)) (predicted : list (list F)) (n : nat) :
  correct_count expected predicted = Some n -> n <= length predicted.
Proof.
  revert expected n. induction predicted as [|p predicted IH]; intros expected n.
  - destruct expected; simpl; intros ?; simplify_eq; lia.
  - destruct expected as [|e expected]; [done|]. simpl.
    destruct (np_argmax_double p) as [a|]; [|done].
    destruct (np_argmax e) as [b|]; [|done]. simpl.
    destruct (correct_count expected predicted) as [k|] eqn:Hk; [|done]. simpl.
    intros ?; simplify_eq. specialize (IH _ _ Hk). destruct (decide (a = b)); simpl; lia.
Qed.

Lemma correct_count_Some {FL : Float64} (expected : list (list Z)) (predicted : list (list F)) :
  length predicted <= length expected ->
  Forall (fun p => p <> []) predicted -> Forall (fun e => e <> []) expected ->
  exists n, correct_count expected predicted = Some n.
Proof.
  intros Hlen Hp He. revert expected Hlen He.
  induction Hp as [|p predicted Hp _ IH]; intros expected Hlen He.
  - destruct expected; simpl; eauto.
  - destruct expected as [|e expected]; [simpl in Hlen; lia|].
    apply Forall_cons in He as [He Hes].
    destruct (IH expected ltac:(simpl in Hlen; lia) Hes) as [k Hk].
    simpl. destruct p as [|x p]; [done|]. destruct e as [|z e]; [done|].
    simpl. rewrite Hk. simpl. eauto.
Qed.

(** X18: the accuracy of predictions that do not outnumber the rows of
    [test_y]: [print_accuracy] has a number to print, and this number lies
    in [0, 1]. *)
Theorem accuracy_in_unit (test_y expected : list (list Z)) (predicted : list (list float)) :
  length predicted <= length expected -> length predicted <= length test_y ->
  test_y <> [] -> (Z.of_nat (length test_y) < 2 ^ 53)%Z ->
  Forall (fun p => p <> []) predicted -> Forall (fun e => e <> []) expected ->
  exists a, accuracy test_y expected predicted = Some a /\
    PrimFloat.leb 0 a = true /\ PrimFloat.leb a 1 = true.
Proof.
  intros Hpe Hpt Hne Hlt Hp He.
  destruct (correct_count_Some (FL:=binary64) expected predicted Hpe Hp He) as [n Hn].
  pose proof (correct_count_le _ _ _ Hn) as Hle.
  unfold accuracy. rewrite Hn. simpl.
  destruct (decide (length test_y = 0)) as [E|E]; [by destruct test_y|].
  eexists. split; [done|].
  apply (CountFacts.count_ratio_in_unit n (length test_y));
    [exact (Nat.le_trans _ _ _ Hle Hpt)|lia|].
  eapply Z.lt_trans; [exact Hlt|reflexivity].
Qed.
End Accuracy.

(** ** Errors of the preprocessing cell *)
Section CellErrors.
Context {FL : Float64}.
Local Open Scope cmd_scope.

Lemma value_of_Some (x : string) (s : store) (X : list (list F)) :
  value_of x s = Some X -> exists l, env s !! x = Some l /\ heap s !! l = Some X.
Proof.
  unfold value_of. destruct (env s !! x) as [l|]; [|done]. simpl. eauto.
Qed.

Lemma norm_stmt_empty (dst src : string) (s : store) (X tr : list (list F)) :
  value_of src s = Some X -> value_of "train_X" s = Some tr -> concat tr = [] ->
  norm_stmt dst src s = None.
Proof.
  intros (a & Ha & _)%value_of_Some (t & Ht & Htr)%value_of_Some Hcat.
  unfold norm_stmt.
  erewrite bind_ok by (by apply var_ok).
  erewrite bind_ok by (by apply var_ok).
  unfold bind at 1, reduce_opt, bind, load, lift. rewrite Htr. simpl.
  unfold np_min. by rewrite Hcat.
Qed.

(** X19: the cell raises when [train_X] is not bound, when [test_X] is not
    bound, and when the training matrix has no entry ([np.min] of a
    zero-size array); in the last two cases after the copies that come
    before have been made. *)
Theorem preprocessing_cell_raises (s : store) :
  (env s !! "train_X" = None -> preprocessing_cell s = None) /\
  (forall tr, value_of "train_X" s = Some tr -> env s !! "test_X" = None ->
     preprocessing_cell s = None) /\
  (forall tr te, value_of "train_X" s = Some tr -> value_of "test_X" s = Some te ->
     concat tr = [] -> preprocessing_cell s = None).
Proof.
  split; [|split].
  - intros Hnone. unfold preprocessing_cell, copy_stmt, bind, var, lift.
    by rewrite Hnone.
  - intros tr Htr Hnone. unfold preprocessing_cell.
    destruct (copy_stmt_spec "train_X_base" "train_X" s tr Htr) as (s1 & E1 & A1).
    erewrite bind_ok by exact E1.
    assert (env s1 !! "test_X" = None) as Hnone1
      by (by rewrite (assigned_env_ne _ _ _ _ _ A1)).
    unfold bind at 1, copy_stmt, bind, var, lift. by rewrite Hnone1.
  - intros tr te Htr Hte Hcat. unfold preprocessing_cell.
    destruct (copy_stmt_spec "train_X_base" "train_X" s tr Htr) as (s1 & E1 & A1).
    erewrite bind_ok by exact E1.
    assert (value_of "train_X" s1 = Some tr) as Htr1
      by (by apply (assigned_frame _ _ _ _ _ _ A1)).
    assert (value_of "test_X" s1 = Some te) as Hte1
      by (by apply (assigned_frame _ _ _ _ _ _ A1)).
    destruct (copy_stmt_spec "test_X_base" "test_X" s1 te Hte1) as (s2 & E2 & A2).
    erewrite bind_ok by exact E2.
    assert (value_of "train_X" s2 = Some tr) as Htr2
      by (by apply (assigned_frame _ _ _ _ _ _ A2)).
    unfold bind at 1. by rewrite (norm_stmt_empty _ _ _ tr tr Htr2 Htr2 Hcat).
Qed.
End CellErrors.

(** ** The handler of the save *)
Section SaveTrialsMore.
Import Py.

(** X20: the save cell in the notebook's namespace, for any behaviour of
    [pickle.dump]: when the call raises, whatever the exception, the cell
    ends with the [NameError] of the except clause; when it returns, the
    cell ends normally.  Either way the cell prints nothing: the output is
    what [pickle.dump] left. *)
Theorem save_trials_behaviour (dump : py unit) (out : list string) :
  save_trials notebook_globals dump out =
    match dump out with
    | (inl _, out') => (inl (NameError "e"), out')
    | (inr tt, out') => (inr tt, out')
    end.
Proof.
  unfold save_trials, try_except.
  destruct (dump out) as [[x|[]] out']; [|done]. by rewrite name_e_unbound.
Qed.

(** X21: when the name [e] is bound, what the handler prints is the value of
    [e], never the message of the exception.  With [e] bound to an
    exception class the exception is an instance of, or to a tuple of
    exception classes with such an item, the text of [e] is printed and
    the cell ends normally; with an exception class or a tuple of them
    that does not match, the exception propagates; with [e] bound to
    anything else (a class that does not derive from [BaseException], a
    tuple with an item that is no exception class, any other object) the
    clause raises [TypeError]. *)
Theorem save_trials_e_bound (globals : gmap string value) (dump : py unit)
    (out out' : list string) (x : exn) (v : value) :
  globals !! "e" = Some v -> dump out = (inl x, out') ->
  save_trials globals dump out =
    match v with
    | VExcClass c =>
        if bool_decide (c ∈ exn_mro x)
        then (inr tt, out' ++ ["<class '" +:+ c +:+ "'>"])
        else (inl x, out')
    | VTuple vs =>
        match mapM exception_class vs with
        | Some cs =>
            if existsb (fun c => bool_decide (c ∈ exn_mro x)) cs
            then (inr tt, out' ++ [str v])
            else (inl x, out')
        | None => (inl TypeError, out')
        end
    | VClass _ | VObject _ => (inl TypeError, out')
    end.
Proof.
  intros He Hdump. unfold save_trials, try_except, name, seq. rewrite Hdump, He.
  destruct v as [c|c|vs|r]; try done.
  unfold pure, catches. destruct (mapM exception_class vs) as [cs|]; [|done].
  cbn [mbind option_bind]. by destruct (existsb _ cs).
Qed.
End SaveTrialsMore.

(** ** The baseline copies *)
Section BaseCopies.
Context {FL : Float64}.

(** X22: after the cell, [train_X_base] and [test_X_base] hold the values of
    [train_X] and [test_X], in arrays of their own: no name of a copy is
    bound to the array of its original. *)
Theorem base_copies_are_new_arrays (s : store) (tr te : matrix) :
  value_of "train_X" s = Some tr -> value_of "test_X" s = Some te ->
  concat tr <> [] ->
  exists s', preprocessing_cell s = Some (tt, s') /\
    value_of "train_X_base" s' = Some tr /\ value_of "test_X_base" s' = Some te /\
    env s' !! "train_X_base" <> env s' !! "train_X" /\
    env s' !! "test_X_base" <> env s' !! "test_X".
Proof.
  intros Htr Hte (lo & hi & Hlo & Hhi)%np_min_max_defined.
  destruct (preprocessing_cell_spec s tr te lo hi Htr Hte Hlo Hhi)
    as (s' & Hrun & _ & [Ha Hb] & _ & _ & [Hc Hd] & _ & Hn).
  exists s'. split; [done|]. split; [done|]. split; [done|].
  apply value_of_Some in Htr as (lt & Hlt & Hht).
  apply value_of_Some in Hte as (le & Hle & Hhe).
  apply lookup_lt_Some in Hht, Hhe.
  rewrite Forall_forall in Hn.
  destruct (Hn "train_X_base") as (l1 & Hl1 & Hnew1); [set_solver|].
  destruct (Hn "test_X_base") as (l2 & Hl2 & Hnew2); [set_solver|].
  rewrite Hc, Hd, Hlt, Hle, Hl1, Hl2. split; intros [= ->]; lia.
Qed.
End BaseCopies.

(** ** Witnesses of the further properties *)
Section MoreWitnesses.
Lemma load_csv_rows_witness :
  exists features labels,
    load_csv (pokemon_header :: pokemon_rows) = Some (features, labels) /\
    features = map (slice 5 11) pokemon_rows /\
    Forall2 (fun row l => row !! 2 = Some l) pokemon_rows labels /\
    length features = length pokemon_rows /\ length labels = length pokemon_rows /\
    forall i row f, pokemon_rows !! i = Some row -> features !! i = Some f ->
      length f <= 6 /\ (length f = 6 <-> 11 <= length row).
Proof.
  apply (load_csv_rows pokemon_header pokemon_rows).
  repeat constructor; simpl; lia.
Defined.

Lemma encode_labels_round_trip_witness :
  exists Y, encode_labels ["Grass"; "Fire"; "Grass"] = Some Y /\
    length Y = length ["Grass"; "Fire"; "Grass"] /\
    Forall (fun r => length r = label_cardinality ["Grass"; "Fire"; "Grass"]) Y /\
    forall k l, ["Grass"; "Fire"; "Grass"] !! k = Some l ->
      exists r i, Y !! k = Some r /\ np_argmax r = Some i /\
                  uniq_labels ["Grass"; "Fire"; "Grass"] !! i = Some l.
Proof. apply (encode_labels_round_trip ["Grass"; "Fire"; "Grass"]). discriminate. Defined.

Lemma to_categorical_round_trip_witness :
  exists Y, to_categorical [2; 0; 1] = Some Y /\ length Y = length [2; 0; 1] /\
    Forall (fun r => length r = S (max_list [2; 0; 1])) Y /\
    decode_labels Y = Some [2; 0; 1].
Proof. apply (to_categorical_round_trip [2; 0; 1]). discriminate. Defined.

Lemma floor_three_quarters_exact_witness :
  exists split, floor_three_quarters 800 = Some split /\
    split = 3 * 800 / 4 /\ split <= 800 /\
    (0 < 800 -> split < 800) /\ (split = 0 <-> 800 < 2).
Proof. apply (floor_three_quarters_exact 800). reflexivity. Defined.

Lemma sk_shuffle_aligned_witness :
  exists X' y' g',
    sk_shuffle lcg_seed lcg_interval [10; 20; 30] ["a"; "b"; "c"] RSNone 7%Z
      = Some (X', y', g') /\
    zip X' y' ≡ₚ zip [10; 20; 30] ["a"; "b"; "c"] /\
    X' ≡ₚ [10; 20; 30] /\ y' ≡ₚ ["a"; "b"; "c"] /\
    (forall seed, RSNone = RSSeed seed -> g' = 7%Z).
Proof.
  apply (sk_shuffle_aligned lcg_seed lcg_interval lcg_interval_le). reflexivity.
Defined.

Lemma shuffle_and_split_partition_witness :
  exists d : split_data nat string,
    (forall g, shuffle_and_split lcg_seed lcg_interval [10; 20; 30; 40; 50]
                 ["a"; "b"; "c"; "d"; "e"] g = Some (d, g)) /\
    length (train_X d) = 3 * 5 / 4 /\
    length (train_y d) = length (train_X d) /\
    length (test_X d) = 5 - 3 * 5 / 4 /\
    length (test_y d) = length (test_X d) /\
    zip (train_X d ++ test_X d) (train_y d ++ test_y d)
      ≡ₚ zip [10; 20; 30; 40; 50] ["a"; "b"; "c"; "d"; "e"].
Proof.
  apply (shuffle_and_split_partition lcg_seed lcg_interval lcg_interval_le
           [10; 20; 30; 40; 50] ["a"; "b"; "c"; "d"; "e"]); reflexivity.
Defined.

Lemma test_in_range_in_unit_witness :
  exists M r' y, test_X_norm (FL:=binary64) demo_train [[20; 5]]%float = Some M /\
    M !! 0 = Some r' /\ r' !! 1 = Some y /\
    PrimFloat.leb 0 y = true /\ PrimFloat.leb y 1 = true.
Proof.
  apply (test_in_range_in_unit demo_train [[20; 5]]%float 0%float 10%float
           0 1 [20; 5]%float 5%float); reflexivity.
Defined.

Lemma nan_in_train_zeroes_witness :
  minmax (FL:=binary64) [[3; 4]]%float nan_train
  = Some (map (map (fun _ => 0%float)) [[3; 4]]%float).
Proof.
  apply (nan_in_train_zeroes [[3; 4]]%float nan_train).
  apply Exists_cons_tl, Exists_cons_hd. reflexivity.
Defined.

Lemma constant_matrix_minmax_witness :
  train_X_norm (FL:=binary64) fives = Some (map (map (fun _ => 0%float)) fives) /\
  forall i j r x, const_tests !! i = Some r -> r !! j = Some x ->
    exists M r' out, test_X_norm (FL:=binary64) fives const_tests = Some M /\
      M !! i = Some r' /\ r' !! j = Some out /\
      (f_isfinite (FL:=binary64) x = true -> PrimFloat.eqb x 5 = true -> out = 0%float) /\
      (PrimFloat.is_nan x = false -> PrimFloat.leb x 5 = false ->
       out = 0x1.fffffffffffffp+1023%float) /\
      (PrimFloat.is_nan x = false -> PrimFloat.leb 5 x = false ->
       out = (-0x1.fffffffffffffp+1023)%float).
Proof.
  apply (constant_matrix_minmax fives const_tests 5%float).
  - discriminate.
  - by repeat constructor.
  - reflexivity.
Defined.

Lemma transforms_keep_shape_witness :
  (forall M, minmax (FL:=binary64) [[20; 5]]%float demo_train = Some M ->
     length M = length [[20; 5]]%float /\ has_cols (FL:=binary64) 2 M) /\
  length (standardize (FL:=binary64) [[20; 5]]%float demo_train)
    = length [[20; 5]]%float /\
  has_cols (FL:=binary64) 2 (standardize (FL:=binary64) [[20; 5]]%float demo_train).
Proof.
  apply (transforms_keep_shape (FL:=binary64) 2 demo_train [[20; 5]]%float).
  - discriminate.
  - by repeat constructor.
  - by repeat constructor.
Defined.

Lemma np_argmax_double_first_maximum_witness :
  exists i m, np_argmax_double (FL:=binary64) [0.125; 0.75; 0.75; 0.5]%float = Some i /\
    [0.125; 0.75; 0.75; 0.5]%float !! i = Some m /\
    Forall (fun x => PrimFloat.leb x m = true) [0.125; 0.75; 0.75; 0.5]%float /\
    forall j x, j < i -> [0.125; 0.75; 0.75; 0.5]%float !! j = Some x ->
                PrimFloat.leb m x = false.
Proof.
  apply (np_argmax_double_first_maximum [0.125; 0.75; 0.75; 0.5]%float).
  - discriminate.
  - by repeat constructor.
Defined.

Lemma accuracy_in_unit_witness :
  exists a, accuracy expected_rows expected_rows scores = Some a /\
    PrimFloat.leb 0 a = true /\ PrimFloat.leb a 1 = true.
Proof.
  apply (accuracy_in_unit expected_rows expected_rows scores).
  - simpl. lia.
  - simpl. lia.
  - discriminate.
  - reflexivity.
  - by repeat constructor.
  - by repeat constructor.
Defined.

Lemma base_copies_are_new_arrays_witness :
  exists s', preprocessing_cell demo_store = Some (tt, s') /\
    value_of "train_X_base" s' = Some demo_train /\
    value_of "test_X_base" s' = Some [[20; 5]]%float /\
    env s' !! "train_X_base" <> env s' !! "train_X" /\
    env s' !! "test_X_base" <> env s' !! "test_X".
Proof.
  apply (base_copies_are_new_arrays demo_store demo_train [[20; 5]]%float);
    [reflexivity..|discriminate].
Defined.

Lemma save_trials_e_bound_witness :
  Py.save_trials (<["e" := Py.VExcClass "Exception"]> Py.notebook_globals) dump_fails []
  = (inr tt, ["<class 'Exception'>"]).
Proof.
  apply (save_trials_e_bound (<["e" := Py.VExcClass "Exception"]> Py.notebook_globals)
           dump_fails [] [] FileNotFoundError (Py.VExcClass "Exception"));
    reflexivity.
Defined.

(** The clause on other values of [e]: a tuple with the class of the
    exception, a class of the notebook, an exception class of another
    branch. *)
Example save_trials_other_clauses :
  Py.save_trials
    (<["e" := Py.VTuple [Py.VExcClass "NameError"; Py.VExcClass "OSError"]]>
       Py.notebook_globals) dump_fails []
  = (inr tt, ["(<class 'NameError'>, <class 'OSError'>)"]) /\
  Py.save_trials (<["e" := Py.VClass "Sequential"]> Py.notebook_globals) dump_fails []
  = (inl Py.TypeError, []) /\
  Py.save_trials (<["e" := Py.VExcClass "NameError"]> Py.notebook_globals) dump_fails []
  = (inl FileNotFoundError, []).
Proof. repeat split; reflexivity. Qed.

Lemma extremes_to_zero_and_one_witness :
  exists M r' out, minmax (FL:=binary64) signed_zeros signed_zeros = Some M /\
    M !! 0 = Some r' /\ r' !! 1 = Some out /\
    (PrimFloat.eqb 0 neg_zero = true -> PrimFloat.eqb out 0 = true) /\
    (PrimFloat.eqb 0 1 = true -> out = 1%float).
Proof.
  apply (extremes_to_zero_and_one signed_zeros signed_zeros neg_zero 1%float
           0 1 [neg_zero; 0; 1]%float 0%float); reflexivity.
Defined.


Lemma nan_in_column_zeroes_witness :
  exists r', standardize (FL:=binary64) [[3; 4]]%float nan_train !! 0 = Some r' /\
             r' !! 1 = Some 0%float.
Proof.
  apply (nan_in_column_zeroes [[3; 4]]%float nan_train 1) with [3; 4]%float 4%float.
  - repeat constructor; by eexists.
  - apply Exists_cons_hd. exists nan. split; reflexivity.
  - reflexivity.
  - reflexivity.
Defined.

(** Without the bound on the difference the maximum need not become
    [1.0]: here the difference overflows, and the maximum becomes [0.0]. *)
Example overflowing_range :
  train_X_norm (FL:=binary64) [[-0x1.fffffffffffffp+1023; 0x1.fffffffffffffp+1023]]%float
  = Some [[0; 0]]%float.
Proof. reflexivity. Qed.
End MoreWitnesses.
